(** * image_geometry.cameramodels: pinhole and stereo camera models

    A shallow embedding of [src/image_geometry/src/image_geometry/cameramodels.py]
    (classes [PinholeCameraModel] and [StereoCameraModel]) and the properties
    of its calibration, projection and disparity arithmetic.

    The Python code is written over an interface of float operations
    ([PyFloat]), instantiated by [binary64]: IEEE 754 double precision as
    CPython executes it (Stdlib's [spec_float] with 53 bits of mantissa),
    with rounding to nearest even, overflow, underflow, signed zeros,
    infinities and NaN.  Statements about the size of rounding errors read
    a finite binary64 number as the real number it stands for ([B2R]).
    Python raises [ZeroDivisionError] on a float division by zero; errors are
    results of the embedding, and a method is a state transformer over the
    object it is called on. *)

From Stdlib Require Import ZArith List String Bool Lia.
From Stdlib Require Import Reals Lra.
From Stdlib Require Import Floats.SpecFloat.
Import ListNotations.

Set Implicit Arguments.
Close Scope R_scope.
Open Scope nat_scope.

(* ===================================================================== *)
(** * Exceptions and the method monad *)
(* ===================================================================== *)

Inductive exn : Type :=
| ZeroDivisionError   (* float division by zero *)
| ValueError          (* math domain error *)
| AttributeError      (* no such attribute or method *)
| TypeError           (* indexing or calling None *)
| IndexError          (* matrix index out of range *)
| CvError.            (* cv: matrix sizes do not fit *)

Inductive result (A : Type) : Type :=
| Ok (a : A)
| Raise (e : exn).
Arguments Ok {A} a.
Arguments Raise {A} e.

(** A method body runs on the object [self : S]; what it assigned before an
    exception stays assigned. *)
Definition M (S A : Type) : Type := S -> result A * S.

Definition ret {S A} (a : A) : M S A := fun s => (Ok a, s).

Definition bind {S A B} (m : M S A) (f : A -> M S B) : M S B :=
  fun s => match m s with
           | (Ok a, s') => f a s'
           | (Raise e, s') => (Raise e, s')
           end.

Definition raise {S A} (e : exn) : M S A := fun s => (Raise e, s).

(** A computation that has no object to touch, run inside a method. *)
Definition lift {S A} (r : result A) : M S A := fun s => (r, s).

Definition gets {S A} (f : S -> A) : M S A := fun s => (Ok (f s), s).

Definition modify {S} (f : S -> S) : M S unit := fun s => (Ok tt, f s).

(** Reading an attribute that [__init__] left at [None] and using it. *)
Definition attr {S A} (f : S -> option A) : M S A :=
  fun s => match f s with
           | Some a => (Ok a, s)
           | None => (Raise TypeError, s)
           end.

Declare Scope py_scope.
Delimit Scope py_scope with py.
Notation "x <- c1 ;; c2" := (bind c1 (fun x => c2))
  (at level 100, c1 at next level, right associativity) : py_scope.
Notation "c1 ;; c2" := (bind c1 (fun _ => c2))
  (at level 100, right associativity) : py_scope.
Open Scope py_scope.

(** Errors without state: the same bind on [result]. *)
Definition rbind {A B} (r : result A) (f : A -> result B) : result B :=
  match r with
  | Ok a => f a
  | Raise e => Raise e
  end.

(* ===================================================================== *)
(** * Python floats *)
(* ===================================================================== *)

(** The operations of a C double that the module uses.  [fdiv] is the IEEE
    quotient; Python's [/] checks the divisor first ([py_div] below). *)
Class PyFloat (T : Type) : Type := {
  of_int : Z -> T;            (* int operand converted by the float operator *)
  fadd : T -> T -> T;
  fsub : T -> T -> T;
  fmul : T -> T -> T;
  fdiv : T -> T -> T;
  fneg : T -> T;
  fsqrt : T -> T;
  feqb : T -> T -> bool;      (* == *)
  fltb : T -> T -> bool;      (* < *)
  finf : T;                   (* float('inf') *)
  fnan : T                    (* float('nan') *)
}.

Section PythonArith.
Context {T : Type} {F : PyFloat T}.

(** [x / y] on floats: [ZeroDivisionError] when [y == 0] (either zero). *)
Definition py_div (x y : T) : result T :=
  if feqb y (of_int 0) then Raise ZeroDivisionError else Ok (fdiv x y).

(** [math.sqrt]: [ValueError] below zero, NaN passes through. *)
Definition py_sqrt (x : T) : result T :=
  if fltb x (of_int 0) then Raise ValueError else Ok (fsqrt x).

(** [x != 0] *)
Definition py_ne0 (x : T) : bool := negb (feqb x (of_int 0)).
End PythonArith.

(** ** binary64 *)

Module B64.
Definition prec : Z := 53.
Definition emax : Z := 1024.
Definition float : Type := spec_float.

Definition of_Z (n : Z) : float := binary_normalize prec emax n 0 false.
(** [m * 2^e], rounded to nearest even. *)
Definition lit (m e : Z) : float := binary_normalize prec emax m e false.
Definition add : float -> float -> float := SFadd prec emax.
Definition sub : float -> float -> float := SFsub prec emax.
Definition mul : float -> float -> float := SFmul prec emax.
Definition div : float -> float -> float := SFdiv prec emax.
Definition sqrt : float -> float := SFsqrt prec emax.

(** Neither an infinity nor NaN. *)
Definition is_finite (x : float) : bool :=
  match x with
  | S754_zero _ | S754_finite _ _ _ => true
  | S754_infinity _ | S754_nan => false
  end.

Definition is_nan (x : float) : bool :=
  match x with
  | S754_nan => true
  | _ => false
  end.
(** Not below zero: NaN, or a zero, a finite number or an infinity with the
    sign bit clear. *)
Definition not_negative (x : float) : Prop :=
  match x with
  | S754_nan => True
  | S754_infinity s | S754_zero s | S754_finite s _ _ => s = false
  end.

(** NaN, [+inf], or a positive finite number with its leading bit at
    [2^0] or above, that is a number that is at least 1. *)
Definition at_least_one (x : float) : Prop :=
  match x with
  | S754_nan => True
  | S754_infinity s => s = false
  | S754_zero _ => False
  | S754_finite s m e => s = false /\ (1 <= Zpos (digits2_pos m) + e)%Z
  end.
End B64.

#[export] Instance binary64 : PyFloat B64.float := {|
  of_int := B64.of_Z;
  fadd := B64.add;
  fsub := B64.sub;
  fmul := B64.mul;
  fdiv := B64.div;
  fneg := SFopp;
  fsqrt := B64.sqrt;
  feqb := SFeqb;
  fltb := SFltb;
  finf := S754_infinity false;
  fnan := S754_nan
|}.

(* ===================================================================== *)
(** * cv matrices *)
(* ===================================================================== *)

(** A [CV_64FC1] matrix: row-major data, element [(i, j)] at [i * cols + j]. *)
Record CvMat (T : Type) : Type := {
  rows : nat;
  cols : nat;
  data : list T
}.

Fixpoint list_set {A} (l : list A) (n : nat) (v : A) : list A :=
  match l, n with
  | [], _ => []
  | _ :: l', O => v :: l'
  | a :: l', S n' => a :: list_set l' n' v
  end.

Section Matrices.
Context {T : Type} {F : PyFloat T}.

(** [mkmat(rows, cols, L)]: [cv.CreateMat] then [cv.SetData] with a row
    step of [8 * cols] bytes. *)
Definition mkmat (r c : nat) (L : list T) : CvMat T :=
  {| rows := r; cols := c; data := L |}.

(** [cv.CreateMat(r, c, CV_64FC1)] followed by [cv.SetZero]. *)
Definition zeros (r c : nat) : CvMat T :=
  mkmat r c (repeat (of_int 0) (r * c)).

(** [m[i, j]] *)
Definition mat_get (m : CvMat T) (i j : nat) : result T :=
  if (i <? rows m) && (j <? cols m) then
    match nth_error (data m) (i * cols m + j) with
    | Some v => Ok v
    | None => Raise IndexError
    end
  else Raise IndexError.

(** [m[i, j] = v] *)
Definition mat_set (m : CvMat T) (i j : nat) (v : T) : result (CvMat T) :=
  if (i <? rows m) && (j <? cols m) && (i * cols m + j <? List.length (data m)) then
    Ok {| rows := rows m; cols := cols m;
          data := list_set (data m) (i * cols m + j) v |}
  else Raise IndexError.

Definition elt (m : CvMat T) (i j : nat) : T :=
  nth (i * cols m + j) (data m) (of_int 0).

(** Modelled from the spec: [cv.MatMul] belongs to the OpenCV binding,
    which is not part of the sources; the spec has it multiply the matrix
    by the homogeneous column vector.  Each entry of the product is the
    row-by-column sum, accumulated in index order from zero; sizes that do
    not fit are an error of the binding. *)
Definition MatMul_entry (a b : CvMat T) (i j : nat) : T :=
  fold_left (fun acc k => fadd acc (fmul (elt a i k) (elt b k j)))
            (seq 0 (cols a)) (of_int 0).

Definition MatMul (a b : CvMat T) : result (CvMat T) :=
  if (cols a =? rows b)
     && (List.length (data a) =? rows a * cols a)
     && (List.length (data b) =? rows b * cols b)
  then Ok (mkmat (rows a) (cols b)
             (flat_map (fun i => map (MatMul_entry a b i) (seq 0 (cols b)))
                       (seq 0 (rows a))))
  else Raise CvError.
End Matrices.

(* ===================================================================== *)
(** * sensor_msgs: the calibration message *)
(* ===================================================================== *)

Module RegionOfInterest.
Record t : Type := {
  x_offset : Z;
  y_offset : Z;
  height : Z;
  width : Z
}.
End RegionOfInterest.

Module Header.
Record t : Type := {
  stamp : Z * Z;        (* secs, nsecs *)
  frame_id : string
}.
End Header.

Module CameraInfo.
Record t (T : Type) : Type := {
  header : Header.t;
  height : Z;
  width : Z;
  D : list T;
  K : list T;
  R : list T;
  P : list T;
  binning_x : Z;
  binning_y : Z;
  roi : RegionOfInterest.t
}.

Definition uint32 (n : Z) : bool := (0 <=? n)%Z && (n <? 2 ^ 32)%Z.

(** The message type: [float64[9] K], [float64[9] R], [float64[12] P] and
    [uint32] sizes, binning factors and ROI fields. *)
Definition valid {T} (msg : t T) : bool :=
  (List.length (K msg) =? 9) && (List.length (R msg) =? 9)
  && (List.length (P msg) =? 12)
  && uint32 (height msg) && uint32 (width msg)
  && uint32 (binning_x msg) && uint32 (binning_y msg)
  && uint32 (RegionOfInterest.x_offset (roi msg))
  && uint32 (RegionOfInterest.y_offset (roi msg))
  && uint32 (RegionOfInterest.height (roi msg))
  && uint32 (RegionOfInterest.width (roi msg)).
End CameraInfo.

(* ===================================================================== *)
(** * PinholeCameraModel *)
(* ===================================================================== *)

Module PinholeCameraModel.
Import RegionOfInterest.

(** The attributes that [__init__] creates, each [None] until
    [fromCameraInfo] assigns it.  ([rectifyImage] and [rectifyPoint] hand
    the matrices to the OpenCV binding and are outside this development.) *)
Record t (T : Type) : Type := {
  K : option (CvMat T);
  D : option (CvMat T);
  R : option (CvMat T);
  P : option (CvMat T);
  full_K : option (CvMat T);
  full_P : option (CvMat T);
  width : option Z;
  height : option Z;
  binning_x : option Z;
  binning_y : option Z;
  raw_roi : option RegionOfInterest.t;
  tf_frame : option string;
  stamp : option (Z * Z)
}.

(** What a method call or an attribute read hands back to an untyped
    caller. *)
Inductive value (T : Type) : Type :=
| VNone
| VMat (m : CvMat T)
| VFloat (x : T)
| VInt (n : Z)
| VStr (s : string)
| VRoi (r : RegionOfInterest.t)
| VTime (secs_nsecs : Z * Z).
Arguments VNone {T}.
Arguments VInt {T} n.
Arguments VStr {T} s.
Arguments VRoi {T} r.
Arguments VTime {T} secs_nsecs.

Section Methods.
Context {T : Type} {F : PyFloat T}.
Abbreviation self := (t T).

(** [__init__] *)
Definition init : self :=
  {| K := None; D := None; R := None; P := None;
     full_K := None; full_P := None; width := None; height := None;
     binning_x := None; binning_y := None; raw_roi := None;
     tf_frame := None; stamp := None |}.

(** Attribute assignment, one per attribute. *)
Definition set_K v (s : self) : self :=
  {| K := v; D := D s; R := R s; P := P s; full_K := full_K s;
     full_P := full_P s; width := width s; height := height s;
     binning_x := binning_x s; binning_y := binning_y s;
     raw_roi := raw_roi s; tf_frame := tf_frame s; stamp := stamp s |}.
Definition set_D v (s : self) : self :=
  {| K := K s; D := v; R := R s; P := P s; full_K := full_K s;
     full_P := full_P s; width := width s; height := height s;
     binning_x := binning_x s; binning_y := binning_y s;
     raw_roi := raw_roi s; tf_frame := tf_frame s; stamp := stamp s |}.
Definition set_R v (s : self) : self :=
  {| K := K s; D := D s; R := v; P := P s; full_K := full_K s;
     full_P := full_P s; width := width s; height := height s;
     binning_x := binning_x s; binning_y := binning_y s;
     raw_roi := raw_roi s; tf_frame := tf_frame s; stamp := stamp s |}.
Definition set_P v (s : self) : self :=
  {| K := K s; D := D s; R := R s; P := v; full_K := full_K s;
     full_P := full_P s; width := width s; height := height s;
     binning_x := binning_x s; binning_y := binning_y s;
     raw_roi := raw_roi s; tf_frame := tf_frame s; stamp := stamp s |}.
Definition set_full_K v (s : self) : self :=
  {| K := K s; D := D s; R := R s; P := P s; full_K := v;
     full_P := full_P s; width := width s; height := height s;
     binning_x := binning_x s; binning_y := binning_y s;
     raw_roi := raw_roi s; tf_frame := tf_frame s; stamp := stamp s |}.
Definition set_full_P v (s : self) : self :=
  {| K := K s; D := D s; R := R s; P := P s; full_K := full_K s;
     full_P := v; width := width s; height := height s;
     binning_x := binning_x s; binning_y := binning_y s;
     raw_roi := raw_roi s; tf_frame := tf_frame s; stamp := stamp s |}.
Definition set_width v (s : self) : self :=
  {| K := K s; D := D s; R := R s; P := P s; full_K := full_K s;
     full_P := full_P s; width := v; height := height s;
     binning_x := binning_x s; binning_y := binning_y s;
     raw_roi := raw_roi s; tf_frame := tf_frame s; stamp := stamp s |}.
Definition set_height v (s : self) : self :=
  {| K := K s; D := D s; R := R s; P := P s; full_K := full_K s;
     full_P := full_P s; width := width s; height := v;
     binning_x := binning_x s; binning_y := binning_y s;
     raw_roi := raw_roi s; tf_frame := tf_frame s; stamp := stamp s |}.
Definition set_binning_x v (s : self) : self :=
  {| K := K s; D := D s; R := R s; P := P s; full_K := full_K s;
     full_P := full_P s; width := width s; height := height s;
     binning_x := v; binning_y := binning_y s;
     raw_roi := raw_roi s; tf_frame := tf_frame s; stamp := stamp s |}.
Definition set_binning_y v (s : self) : self :=
  {| K := K s; D := D s; R := R s; P := P s; full_K := full_K s;
     full_P := full_P s; width := width s; height := height s;
     binning_x := binning_x s; binning_y := v;
     raw_roi := raw_roi s; tf_frame := tf_frame s; stamp := stamp s |}.
Definition set_raw_roi v (s : self) : self :=
  {| K := K s; D := D s; R := R s; P := P s; full_K := full_K s;
     full_P := full_P s; width := width s; height := height s;
     binning_x := binning_x s; binning_y := binning_y s;
     raw_roi := v; tf_frame := tf_frame s; stamp := stamp s |}.
Definition set_tf_frame v (s : self) : self :=
  {| K := K s; D := D s; R := R s; P := P s; full_K := full_K s;
     full_P := full_P s; width := width s; height := height s;
     binning_x := binning_x s; binning_y := binning_y s;
     raw_roi := raw_roi s; tf_frame := v; stamp := stamp s |}.
Definition set_stamp v (s : self) : self :=
  {| K := K s; D := D s; R := R s; P := P s; full_K := full_K s;
     full_P := full_P s; width := width s; height := height s;
     binning_x := binning_x s; binning_y := binning_y s;
     raw_roi := raw_roi s; tf_frame := tf_frame s; stamp := v |}.

(** [self.K[i, j]] and [self.K[i, j] = v]; the same on [self.P]. *)
Definition load_K (i j : nat) : M self T :=
  m <- attr (@K T) ;; lift (mat_get m i j).
Definition store_K (i j : nat) (v : T) : M self unit :=
  m <- attr (@K T) ;; m' <- lift (mat_set m i j v) ;;
  modify (set_K (Some m')).
Definition load_P (i j : nat) : M self T :=
  m <- attr (@P T) ;; lift (mat_get m i j).
Definition store_P (i j : nat) (v : T) : M self unit :=
  m <- attr (@P T) ;; m' <- lift (mat_set m i j v) ;;
  modify (set_P (Some m')).

Definition roi_is_zero (r : RegionOfInterest.t) : bool :=
  ((x_offset r =? 0) && (y_offset r =? 0)
   && (RegionOfInterest.width r =? 0)
   && (RegionOfInterest.height r =? 0))%Z.

Definition fromCameraInfo (msg : CameraInfo.t T) : M self unit :=
  modify (set_K (Some (mkmat 3 3 (CameraInfo.K msg)))) ;;
  (match CameraInfo.D msg with
   | [] => modify (set_D None)
   | _ :: _ =>
       modify (set_D (Some (mkmat (List.length (CameraInfo.D msg)) 1
                                  (CameraInfo.D msg))))
   end) ;;
  modify (set_R (Some (mkmat 3 3 (CameraInfo.R msg)))) ;;
  modify (set_P (Some (mkmat 3 4 (CameraInfo.P msg)))) ;;
  modify (set_full_K (Some (mkmat 3 3 (CameraInfo.K msg)))) ;;
  modify (set_full_P (Some (mkmat 3 4 (CameraInfo.P msg)))) ;;
  modify (set_width (Some (CameraInfo.width msg))) ;;
  modify (set_height (Some (CameraInfo.height msg))) ;;
  modify (set_binning_x (Some (Z.max 1 (CameraInfo.binning_x msg)))) ;;
  modify (set_binning_y (Some (Z.max 1 (CameraInfo.binning_y msg)))) ;;
  modify (set_raw_roi (Some (CameraInfo.roi msg))) ;;
  (* ROI all zeros is considered the same as full resolution *)
  roi <- attr (@raw_roi T) ;;
  (if roi_is_zero roi then
     w <- attr (@width T) ;;
     h <- attr (@height T) ;;
     modify (set_raw_roi
               (Some {| x_offset := x_offset roi; y_offset := y_offset roi;
                        RegionOfInterest.height := h;
                        RegionOfInterest.width := w |}))
   else ret tt) ;;
  modify (set_tf_frame (Some (Header.frame_id (CameraInfo.header msg)))) ;;
  modify (set_stamp (Some (Header.stamp (CameraInfo.header msg)))) ;;
  (* Adjust K and P for binning and ROI *)
  (k <- load_K 0 0 ;; b <- attr (@binning_x T) ;;
   q <- lift (py_div k (of_int b)) ;; store_K 0 0 q) ;;
  (k <- load_K 1 1 ;; b <- attr (@binning_y T) ;;
   q <- lift (py_div k (of_int b)) ;; store_K 1 1 q) ;;
  (k <- load_K 0 2 ;; roi <- attr (@raw_roi T) ;;
   b <- attr (@binning_x T) ;;
   q <- lift (py_div (fsub k (of_int (x_offset roi))) (of_int b)) ;;
   store_K 0 2 q) ;;
  (k <- load_K 1 2 ;; roi <- attr (@raw_roi T) ;;
   b <- attr (@binning_y T) ;;
   q <- lift (py_div (fsub k (of_int (y_offset roi))) (of_int b)) ;;
   store_K 1 2 q) ;;
  (p <- load_P 0 0 ;; b <- attr (@binning_x T) ;;
   q <- lift (py_div p (of_int b)) ;; store_P 0 0 q) ;;
  (p <- load_P 1 1 ;; b <- attr (@binning_y T) ;;
   q <- lift (py_div p (of_int b)) ;; store_P 1 1 q) ;;
  (p <- load_P 0 2 ;; roi <- attr (@raw_roi T) ;;
   b <- attr (@binning_x T) ;;
   q <- lift (py_div (fsub p (of_int (x_offset roi))) (of_int b)) ;;
   store_P 0 2 q) ;;
  (p <- load_P 1 2 ;; roi <- attr (@raw_roi T) ;;
   b <- attr (@binning_y T) ;;
   q <- lift (py_div (fsub p (of_int (y_offset roi))) (of_int b)) ;;
   store_P 1 2 q).

Definition cx : M self T := load_P 0 2.
Definition cy : M self T := load_P 1 2.
Definition fx : M self T := load_P 0 0.
Definition fy : M self T := load_P 1 1.
Definition Tx : M self T := load_P 0 3.
Definition Ty : M self T := load_P 1 3.

Definition project3dToPixel (point : T * T * T) : M self (T * T) :=
  let '(p0, p1, p2) := point in
  let src := mkmat 4 1 [p0; p1; p2; of_int 1] in
  P_ <- attr (@P T) ;;
  dst <- lift (MatMul P_ src) ;;
  x <- lift (mat_get dst 0 0) ;;
  y <- lift (mat_get dst 1 0) ;;
  w <- lift (mat_get dst 2 0) ;;
  if py_ne0 w then
    xw <- lift (py_div x w) ;;
    yw <- lift (py_div y w) ;;
    ret (xw, yw)
  else ret (fnan, fnan).

Definition projectPixelTo3dRay (uv : T * T) : M self (T * T * T) :=
  let '(u, v) := uv in
  cx_ <- cx ;; fx_ <- fx ;;
  x <- lift (py_div (fsub u cx_) fx_) ;;
  cy_ <- cy ;; fy_ <- fy ;;
  y <- lift (py_div (fsub v cy_) fy_) ;;
  norm <- lift (py_sqrt (fadd (fadd (fmul x x) (fmul y y)) (of_int 1))) ;;
  x' <- lift (py_div x norm) ;;
  y' <- lift (py_div y norm) ;;
  z <- lift (py_div (of_int 1) norm) ;;
  ret (x', y', z).

Definition getDeltaU (deltaX Z : T) : M self T :=
  fx_ <- load_P 0 0 ;;
  if feqb Z (of_int 0) then ret finf
  else lift (py_div (fmul fx_ deltaX) Z).

Definition getDeltaV (deltaY Z : T) : M self T :=
  fy_ <- load_P 1 1 ;;
  if feqb Z (of_int 0) then ret finf
  else lift (py_div (fmul fy_ deltaY) Z).

Definition getDeltaX (deltaU Z : T) : M self T :=
  fx_ <- load_P 0 0 ;;
  lift (py_div (fmul Z deltaU) fx_).

Definition getDeltaY (deltaV Z : T) : M self T :=
  fy_ <- load_P 1 1 ;;
  lift (py_div (fmul Z deltaV) fy_).

Definition intrinsicMatrix : M self (option (CvMat T)) := gets (@K T).
Definition distortionCoeffs : M self (option (CvMat T)) := gets (@D T).
Definition rotationMatrix : M self (option (CvMat T)) := gets (@R T).
Definition projectionMatrix : M self (option (CvMat T)) := gets (@P T).
Definition fullIntrinsicMatrix : M self (option (CvMat T)) :=
  gets (@full_K T).
Definition fullProjectionMatrix : M self (option (CvMat T)) :=
  gets (@full_P T).

(** ** Attribute lookup on an instance

    [obj.name] looks [name] up among the attributes of the instance, then
    among the methods of the class; [obj.name()] calls what it finds. *)

Definition of_mat (m : option (CvMat T)) : value T :=
  match m with Some a => VMat a | None => VNone end.
Definition of_Z_opt (n : option Z) : value T :=
  match n with Some a => VInt a | None => VNone end.

(** The attributes of the instance, by name (the ones [__init__] creates). *)
Definition instance_attributes : list (string * (self -> value T)) :=
  [ ("K", fun s => of_mat (K s));
    ("D", fun s => of_mat (D s));
    ("R", fun s => of_mat (R s));
    ("P", fun s => of_mat (P s));
    ("full_K", fun s => of_mat (full_K s));
    ("full_P", fun s => of_mat (full_P s));
    ("width", fun s => of_Z_opt (width s));
    ("height", fun s => of_Z_opt (height s));
    ("binning_x", fun s => of_Z_opt (binning_x s));
    ("binning_y", fun s => of_Z_opt (binning_y s));
    ("raw_roi", fun s => match raw_roi s with
                          | Some r => VRoi r | None => VNone end);
    ("tf_frame", fun s => match tf_frame s with
                           | Some f => VStr f | None => VNone end);
    ("stamp", fun s => match stamp s with
                        | Some t0 => VTime t0 | None => VNone end) ]%string.

Definition float_method (m : M self T) : M self (value T) :=
  x <- m ;; ret (VFloat x).
Definition mat_method (m : M self (option (CvMat T))) : M self (value T) :=
  x <- m ;; ret (of_mat x).

(** The methods of the class that take no argument besides [self]. *)
Definition methods0 : list (string * M self (value T)) :=
  [ ("intrinsicMatrix", mat_method intrinsicMatrix);
    ("distortionCoeffs", mat_method distortionCoeffs);
    ("rotationMatrix", mat_method rotationMatrix);
    ("projectionMatrix", mat_method projectionMatrix);
    ("fullIntrinsicMatrix", mat_method fullIntrinsicMatrix);
    ("fullProjectionMatrix", mat_method fullProjectionMatrix);
    ("cx", float_method cx);
    ("cy", float_method cy);
    ("fx", float_method fx);
    ("fy", float_method fy);
    ("Tx", float_method Tx);
    ("Ty", float_method Ty) ]%string.

(** The methods of the class that need arguments. *)
Definition methods_with_arguments : list string :=
  [ "fromCameraInfo"; "rectifyImage"; "rectifyPoint"; "project3dToPixel";
    "projectPixelTo3dRay"; "getDeltaU"; "getDeltaV"; "getDeltaX";
    "getDeltaY" ]%string.

Fixpoint assoc {A} (name : string) (l : list (string * A)) : option A :=
  match l with
  | [] => None
  | (n, a) :: l' => if String.eqb name n then Some a else assoc name l'
  end.

(** [self.name()]: a data attribute is not callable, a method that needs
    arguments gets none, an unknown name is an [AttributeError]. *)
Definition call0 (name : string) : M self (value T) :=
  match assoc name instance_attributes with
  | Some _ => raise TypeError
  | None =>
      match assoc name methods0 with
      | Some m => m
      | None =>
          if existsb (String.eqb name) methods_with_arguments
          then raise TypeError
          else raise AttributeError
      end
  end.
End Methods.
End PinholeCameraModel.

(* ===================================================================== *)
(** * StereoCameraModel *)
(* ===================================================================== *)

Module StereoCameraModel.

(** [left] and [right] are created by [__init__]; [Q] is an attribute only
    once [fromCameraInfo] has assigned it. *)
Record t (T : Type) : Type := {
  left : PinholeCameraModel.t T;
  right : PinholeCameraModel.t T;
  Q : option (CvMat T)
}.

Section Methods.
Context {T : Type} {F : PyFloat T}.
Abbreviation self := (t T).

(** [__init__] *)
Definition init : self :=
  {| left := PinholeCameraModel.init;
     right := PinholeCameraModel.init;
     Q := None |}.

Definition set_left v (s : self) : self :=
  {| left := v; right := right s; Q := Q s |}.
Definition set_right v (s : self) : self :=
  {| left := left s; right := v; Q := Q s |}.
Definition set_Q v (s : self) : self :=
  {| left := left s; right := right s; Q := v |}.

(** A method of [self.left] (of [self.right]) run from a stereo method. *)
Definition on_left {A} (m : M (PinholeCameraModel.t T) A) : M self A :=
  fun s => let (r, l) := m (left s) in (r, set_left l s).
Definition on_right {A} (m : M (PinholeCameraModel.t T) A) : M self A :=
  fun s => let (r, l) := m (right s) in (r, set_right l s).

(** [self.Q]: an [AttributeError] before the first calibration. *)
Definition attr_Q : M self (CvMat T) :=
  fun s => match Q s with
           | Some m => (Ok m, s)
           | None => (Raise AttributeError, s)
           end.
Definition store_Q (i j : nat) (v : T) : M self unit :=
  m <- attr_Q ;; m' <- lift (mat_set m i j v) ;; modify (set_Q (Some m')).

Definition fromCameraInfo (left_msg right_msg : CameraInfo.t T)
  : M self unit :=
  on_left (PinholeCameraModel.fromCameraInfo left_msg) ;;
  on_right (PinholeCameraModel.fromCameraInfo right_msg) ;;
  fx <- on_right (PinholeCameraModel.load_P 0 0) ;;
  fy <- on_right (PinholeCameraModel.load_P 1 1) ;;
  cx <- on_right (PinholeCameraModel.load_P 0 2) ;;
  cy <- on_right (PinholeCameraModel.load_P 1 2) ;;
  p03 <- on_right (PinholeCameraModel.load_P 0 3) ;;
  tx <- lift (py_div (fneg p03) fx) ;;
  modify (set_Q (Some (zeros 4 4))) ;;
  store_Q 0 0 (of_int 1) ;;
  store_Q 0 3 (fneg cx) ;;
  store_Q 1 1 (of_int 1) ;;
  store_Q 1 3 (fneg cy) ;;
  store_Q 2 3 fx ;;
  (q <- lift (py_div (of_int 1) tx) ;; store_Q 3 2 q).

Definition tfFrame : M self (PinholeCameraModel.value T) :=
  on_left (PinholeCameraModel.call0 "tfFrame").

Definition project3dToPixel (point : T * T * T)
  : M self ((T * T) * (T * T)) :=
  l <- on_left (PinholeCameraModel.project3dToPixel point) ;;
  r <- on_right (PinholeCameraModel.project3dToPixel point) ;;
  ret (l, r).

Definition projectPixelTo3d (left_uv : T * T) (disparity : T)
  : M self (T * T * T) :=
  let '(u, v) := left_uv in
  let src := mkmat 4 1 [u; v; disparity; of_int 1] in
  Q_ <- attr_Q ;;
  dst <- lift (MatMul Q_ src) ;;
  x <- lift (mat_get dst 0 0) ;;
  y <- lift (mat_get dst 1 0) ;;
  z <- lift (mat_get dst 2 0) ;;
  w <- lift (mat_get dst 3 0) ;;
  if py_ne0 w then
    xw <- lift (py_div x w) ;;
    yw <- lift (py_div y w) ;;
    zw <- lift (py_div z w) ;;
    ret (xw, yw, zw)
  else ret (of_int 0, of_int 0, of_int 0).

Definition getZ (disparity : T) : M self T :=
  if feqb disparity (of_int 0) then ret finf
  else
    p03 <- on_right (PinholeCameraModel.load_P 0 3) ;;
    lift (py_div (fneg p03) disparity).

Definition getDisparity (Z : T) : M self T :=
  if feqb Z (of_int 0) then ret finf
  else
    p03 <- on_right (PinholeCameraModel.load_P 0 3) ;;
    lift (py_div (fneg p03) Z).
End Methods.
End StereoCameraModel.

(* ===================================================================== *)
(** * The calibration as the specification words it *)
(* ===================================================================== *)

Section Specification.
Context {T : Type} {F : PyFloat T}.

(** The ROI in effect: the all-zero ROI stands for the full image. *)
Definition effective_roi (msg : CameraInfo.t T) : RegionOfInterest.t :=
  let r := CameraInfo.roi msg in
  if PinholeCameraModel.roi_is_zero r then
    {| RegionOfInterest.x_offset := 0; RegionOfInterest.y_offset := 0;
       RegionOfInterest.height := CameraInfo.height msg;
       RegionOfInterest.width := CameraInfo.width msg |}
  else r.

(** Entry [(i, j)] of a matrix adjusted for binning and ROI:
    [(0,0)] and [(1,1)] divided by the binning factor, [(0,2)] and [(1,2)]
    shifted by the ROI offset and divided, every other entry as in [raw]. *)
Definition adjusted_entry (raw : CvMat T) (bx by_ xo yo : Z) (i j : nat)
  : result T :=
  rbind (mat_get raw i j) (fun v =>
    match i, j with
    | 0, 0 => Ok (fdiv v (of_int bx))
    | 1, 1 => Ok (fdiv v (of_int by_))
    | 0, 2 => Ok (fdiv (fsub v (of_int xo)) (of_int bx))
    | 1, 2 => Ok (fdiv (fsub v (of_int yo)) (of_int by_))
    | _, _ => Ok v
    end).

(** The same on the row-major data of a matrix with [c] columns. *)
Definition adjusted (L : list T) (c : nat) (bx by_ xo yo : Z) : list T :=
  map (fun nv : nat * T =>
         let (n, v) := nv in
         if n =? 0 then fdiv v (of_int bx)
         else if n =? c + 1 then fdiv v (of_int by_)
         else if n =? 2 then fdiv (fsub v (of_int xo)) (of_int bx)
         else if n =? c + 2 then fdiv (fsub v (of_int yo)) (of_int by_)
         else v)
      (combine (seq 0 (List.length L)) L).

(** The model that section 4.1 of the specification describes for a
    message. *)
Definition calibration (msg : CameraInfo.t T) : PinholeCameraModel.t T :=
  let bx := Z.max 1 (CameraInfo.binning_x msg) in
  let by_ := Z.max 1 (CameraInfo.binning_y msg) in
  let xo := RegionOfInterest.x_offset (CameraInfo.roi msg) in
  let yo := RegionOfInterest.y_offset (CameraInfo.roi msg) in
  {| PinholeCameraModel.K :=
       Some (mkmat 3 3 (adjusted (CameraInfo.K msg) 3 bx by_ xo yo));
     PinholeCameraModel.D :=
       match CameraInfo.D msg with
       | [] => None
       | _ :: _ => Some (mkmat (List.length (CameraInfo.D msg)) 1
                               (CameraInfo.D msg))
       end;
     PinholeCameraModel.R := Some (mkmat 3 3 (CameraInfo.R msg));
     PinholeCameraModel.P :=
       Some (mkmat 3 4 (adjusted (CameraInfo.P msg) 4 bx by_ xo yo));
     PinholeCameraModel.full_K := Some (mkmat 3 3 (CameraInfo.K msg));
     PinholeCameraModel.full_P := Some (mkmat 3 4 (CameraInfo.P msg));
     PinholeCameraModel.width := Some (CameraInfo.width msg);
     PinholeCameraModel.height := Some (CameraInfo.height msg);
     PinholeCameraModel.binning_x := Some bx;
     PinholeCameraModel.binning_y := Some by_;
     PinholeCameraModel.raw_roi := Some (effective_roi msg);
     PinholeCameraModel.tf_frame :=
       Some (Header.frame_id (CameraInfo.header msg));
     PinholeCameraModel.stamp :=
       Some (Header.stamp (CameraInfo.header msg)) |}.

(** The message with another ROI. *)
Definition with_roi (msg : CameraInfo.t T) (r : RegionOfInterest.t)
  : CameraInfo.t T :=
  {| CameraInfo.header := CameraInfo.header msg;
     CameraInfo.height := CameraInfo.height msg;
     CameraInfo.width := CameraInfo.width msg;
     CameraInfo.D := CameraInfo.D msg;
     CameraInfo.K := CameraInfo.K msg;
     CameraInfo.R := CameraInfo.R msg;
     CameraInfo.P := CameraInfo.P msg;
     CameraInfo.binning_x := CameraInfo.binning_x msg;
     CameraInfo.binning_y := CameraInfo.binning_y msg;
     CameraInfo.roi := r |}.

(** A calibrated monocular model: what [fromCameraInfo] leaves behind when
    it returns, on a message of the message type. *)
Definition calibrated (s : PinholeCameraModel.t T) : Prop :=
  exists msg s0,
    CameraInfo.valid msg = true /\
    PinholeCameraModel.fromCameraInfo msg s0 = (Ok tt, s).

(** A calibrated stereo model, likewise. *)
Definition stereo_calibrated (s : StereoCameraModel.t T) : Prop :=
  exists left_msg right_msg s0,
    CameraInfo.valid left_msg = true /\
    CameraInfo.valid right_msg = true /\
    StereoCameraModel.fromCameraInfo left_msg right_msg s0 = (Ok tt, s).

(** The reprojection matrix of the specification, with [q32] at [(3, 2)]. *)
Definition Q_matrix (fx cx cy q32 : T) : CvMat T :=
  mkmat 4 4 [of_int 1; of_int 0; of_int 0; fneg cx;
             of_int 0; of_int 1; of_int 0; fneg cy;
             of_int 0; of_int 0; of_int 0; fx;
             of_int 0; of_int 0; q32; of_int 0].

(** A method that only reads. *)
Definition readonly {S A} (m : M S A) : Prop := forall s, snd (m s) = s.
End Specification.

(* ===================================================================== *)
(** * Sample calibrations (binary64) *)
(* ===================================================================== *)

Module Sample.
Definition fl (n : Z) : B64.float := B64.of_Z n.

Definition header (frame : string) : Header.t :=
  {| Header.stamp := (0, 0)%Z; Header.frame_id := frame |}.

Definition roi (x y h w : Z) : RegionOfInterest.t :=
  {| RegionOfInterest.x_offset := x; RegionOfInterest.y_offset := y;
     RegionOfInterest.height := h; RegionOfInterest.width := w |}.

(** 640x480, K = [500 0 320; 0 500 240; 0 0 1], no distortion, identity
    rotation, [P = [K | (Tx, 0, 0)]], binning and ROI left at zero. *)
Definition info (frame : string) (Tx : Z) : CameraInfo.t B64.float :=
  {| CameraInfo.header := header frame;
     CameraInfo.height := 480;
     CameraInfo.width := 640;
     CameraInfo.D := [];
     CameraInfo.K := map fl [500; 0; 320; 0; 500; 240; 0; 0; 1]%Z;
     CameraInfo.R := map fl [1; 0; 0; 0; 1; 0; 0; 0; 1]%Z;
     CameraInfo.P := map fl [500; 0; 320; Tx; 0; 500; 240; 0; 0; 0; 1; 0]%Z;
     CameraInfo.binning_x := 0;
     CameraInfo.binning_y := 0;
     CameraInfo.roi := roi 0 0 0 0 |}.

Definition left_info : CameraInfo.t B64.float := info "left" 0.
(** The right camera of a pair: [P[0,3] = -50000], a baseline of 100. *)
Definition right_info : CameraInfo.t B64.float := info "right" (-50000).

(** A message whose projection matrix is all zero: [fx = fy = 0]. *)
Definition flat_info : CameraInfo.t B64.float :=
  {| CameraInfo.header := header "flat";
     CameraInfo.height := 480;
     CameraInfo.width := 640;
     CameraInfo.D := [];
     CameraInfo.K := map fl [500; 0; 320; 0; 500; 240; 0; 0; 1]%Z;
     CameraInfo.R := map fl [1; 0; 0; 0; 1; 0; 0; 0; 1]%Z;
     CameraInfo.P := map fl [0; 0; 0; 0; 0; 0; 0; 0; 0; 0; 0; 0]%Z;
     CameraInfo.binning_x := 0;
     CameraInfo.binning_y := 0;
     CameraInfo.roi := roi 0 0 0 0 |}.

Definition camera (msg : CameraInfo.t B64.float)
  : PinholeCameraModel.t B64.float :=
  snd (PinholeCameraModel.fromCameraInfo msg PinholeCameraModel.init).

Definition stereo (l r : CameraInfo.t B64.float)
  : StereoCameraModel.t B64.float :=
  snd (StereoCameraModel.fromCameraInfo l r StereoCameraModel.init).
End Sample.


(* ===================================================================== *)
(** * binary64 numbers and the reals they stand for *)
(* ===================================================================== *)

(** A binary64 number: a finite one has a canonical mantissa and an
    exponent in range. *)
Definition binary64_valid (x : B64.float) : bool :=
  valid_binary B64.prec B64.emax x.

(** ** The real number a binary64 number stands for *)

Definition sgn (s : bool) : R := if s then (-1)%R else 1%R.

(** [2^e] *)
Definition p2 (e : Z) : R := powerRZ 2 e.

(** The value of a finite number; 0 for the infinities and NaN. *)
Definition B2R (x : B64.float) : R :=
  match x with
  | S754_finite s m e => (sgn s * (IZR (Zpos m) * p2 e))%R
  | _ => 0%R
  end.

(** The binary exponent of a finite number other than zero:
    [2^(mag x - 1) <= |x| < 2^(mag x)]. *)
Definition mag (x : B64.float) : Z :=
  match x with
  | S754_finite _ m e => Zpos (digits2_pos m) + e
  | _ => 0
  end.

(** A normal number: 53 significant bits. *)
Definition normal (x : B64.float) : bool :=
  match x with
  | S754_finite _ m e =>
      (Zpos (digits2_pos m) =? 53)%Z && (-1074 <=? e)%Z && (e <=? 971)%Z
  | _ => false
  end.

(** A normal number with [2^(-k) <= |x| < 2^k]. *)
Definition in_range (k : Z) (x : B64.float) : bool :=
  normal x && (- k <? mag x)%Z && (mag x <=? k)%Z.

(** A real with [2^(-k) <= |x| <= 2^k]. *)
Definition within (k : Z) (x : R) : Prop :=
  (p2 (- k) <= Rabs x <= p2 k)%R.

(** A finite binary64 number with [|x| < 2^k] (for [0 <= k]). *)
Definition bounded_by (k : Z) (x : B64.float) : bool :=
  binary64_valid x && B64.is_finite x && (mag x <=? k)%Z.

(* ===================================================================== *)
(** * Methods that only read *)
(* ===================================================================== *)

Create HintDb readonly.

Section Readonly.
Context {S : Type}.

Lemma readonly_ret {A} (a : A) : readonly (ret a : M S A).
Proof. intros s. reflexivity. Qed.

Lemma readonly_raise {A} (e : exn) : readonly (raise e : M S A).
Proof. intros s. reflexivity. Qed.

Lemma readonly_lift {A} (r : result A) : readonly (lift r : M S A).
Proof. intros s. reflexivity. Qed.

Lemma readonly_gets {A} (f : S -> A) : readonly (gets f).
Proof. intros s. reflexivity. Qed.

Lemma readonly_attr {A} (f : S -> option A) : readonly (attr f).
Proof. intros s. unfold attr. destruct (f s); reflexivity. Qed.

Lemma readonly_bind {A B} (m : M S A) (f : A -> M S B) :
  readonly m -> (forall a, readonly (f a)) -> readonly (bind m f).
Proof.
  intros Hm Hf s. unfold bind. specialize (Hm s).
  destruct (m s) as [[a|e] s']; simpl in Hm; subst s'.
  - apply Hf.
  - reflexivity.
Qed.

Lemma readonly_if {A} (b : bool) (m1 m2 : M S A) :
  readonly m1 -> readonly m2 -> readonly (if b then m1 else m2).
Proof. destruct b; auto. Qed.
End Readonly.

#[export] Hint Resolve readonly_ret readonly_raise readonly_lift
  readonly_gets readonly_attr readonly_if : readonly.
#[export] Hint Extern 2 (readonly (bind _ _)) =>
  apply readonly_bind; [|intros ?] : readonly.

Section ReadonlyMethods.
Context {T : Type} {F : PyFloat T}.

Lemma readonly_load_P i j : readonly (PinholeCameraModel.load_P (T:=T) i j).
Proof. unfold PinholeCameraModel.load_P. auto with readonly. Qed.

Lemma readonly_on_left {A} (m : M (PinholeCameraModel.t T) A) :
  readonly m -> readonly (StereoCameraModel.on_left m).
Proof.
  intros Hm s. unfold StereoCameraModel.on_left. specialize (Hm (StereoCameraModel.left s)).
  destruct (m _) as [r l]. simpl in *. subst l. destruct s; reflexivity.
Qed.

Lemma readonly_on_right {A} (m : M (PinholeCameraModel.t T) A) :
  readonly m -> readonly (StereoCameraModel.on_right m).
Proof.
  intros Hm s. unfold StereoCameraModel.on_right. specialize (Hm (StereoCameraModel.right s)).
  destruct (m _) as [r l]. simpl in *. subst l. destruct s; reflexivity.
Qed.

Lemma readonly_attr_Q : readonly (@StereoCameraModel.attr_Q T).
Proof. intros s. unfold StereoCameraModel.attr_Q. destruct (StereoCameraModel.Q s); reflexivity. Qed.

Lemma readonly_call0 name : readonly (PinholeCameraModel.call0 (T:=T) name).
Proof.
  unfold PinholeCameraModel.call0.
  destruct (PinholeCameraModel.assoc name PinholeCameraModel.instance_attributes);
    [auto with readonly|].
  destruct (PinholeCameraModel.assoc name PinholeCameraModel.methods0) as [m|] eqn:E;
    [|destruct (existsb _ _); auto with readonly].
  unfold PinholeCameraModel.methods0 in E. simpl in E.
  repeat match type of E with
         | (if ?b then _ else _) = _ => destruct b
         end;
    try discriminate; injection E as <-;
    unfold PinholeCameraModel.mat_method, PinholeCameraModel.float_method,
      PinholeCameraModel.intrinsicMatrix, PinholeCameraModel.distortionCoeffs,
      PinholeCameraModel.rotationMatrix, PinholeCameraModel.projectionMatrix,
      PinholeCameraModel.fullIntrinsicMatrix, PinholeCameraModel.fullProjectionMatrix,
      PinholeCameraModel.cx, PinholeCameraModel.cy, PinholeCameraModel.fx,
      PinholeCameraModel.fy, PinholeCameraModel.Tx, PinholeCameraModel.Ty;
    auto using readonly_load_P with readonly.
Qed.
End ReadonlyMethods.

#[export] Hint Resolve readonly_load_P readonly_on_left readonly_on_right
  readonly_attr_Q readonly_call0 : readonly.

(* ===================================================================== *)
(** * binary64: an int that converts to a nonzero float *)
(* ===================================================================== *)

Lemma digits2_pos_iter_xO (k p : positive) :
  (Zpos (digits2_pos (Pos.iter xO p k)) = Zpos (digits2_pos p) + Zpos k)%Z.
Proof.
  induction k using Pos.peano_ind.
  - simpl. lia.
  - rewrite Pos.iter_succ. simpl digits2_pos. lia.
Qed.

(** A mantissa that already sits on its exponent is left alone by rounding. *)
Lemma binary_round_aux_canonical (s : bool) (m : positive) (e : Z) :
  fexp B64.prec B64.emax (Zpos (digits2_pos m) + e) = e ->
  (e <= B64.emax - B64.prec)%Z ->
  binary_round_aux B64.prec B64.emax s (Zpos m) e loc_Exact
  = S754_finite s m e.
Proof.
  intros Hc He.
  unfold binary_round_aux, shr_fexp. simpl Zdigits2. rewrite Hc, Z.sub_diag.
  cbn [shr shr_record_of_loc loc_of_shr_record round_nearest_even
       shr_m shr_r shr_s Zdigits2].
  rewrite Hc, Z.sub_diag.
  cbn [shr shr_record_of_loc loc_of_shr_record round_nearest_even
       shr_m shr_r shr_s Zdigits2].
  destruct (Z.leb_spec e (B64.emax - B64.prec)); [reflexivity | lia].
Qed.

Lemma of_Z_pos_finite (p : positive) :
  (Zpos (digits2_pos p) <= 53)%Z ->
  exists m e, B64.of_Z (Zpos p) = S754_finite false m e.
Proof.
  intros Hd. unfold B64.of_Z, binary_normalize, binary_round, shl_align.
  set (d := Zpos (digits2_pos p)) in *.
  assert (Hf : fexp B64.prec B64.emax (d + 0) = (d - 53)%Z).
  { unfold fexp, emin, B64.prec, B64.emax. lia. }
  rewrite Hf.
  destruct (d - 53 - 0)%Z as [|q|q] eqn:Hq.
  - eexists _, _. apply binary_round_aux_canonical.
    + fold d. rewrite Hf. lia.
    + unfold B64.emax, B64.prec. lia.
  - lia.
  - eexists _, _. apply binary_round_aux_canonical.
    + rewrite digits2_pos_iter_xO. fold d.
      unfold fexp, emin, B64.prec, B64.emax. lia.
    + unfold B64.emax, B64.prec. lia.
Qed.

Lemma digits2_pos_bound (p : positive) (n : Z) :
  (0 <= n)%Z -> (Zpos p < 2 ^ n)%Z -> (Zpos (digits2_pos p) <= n)%Z.
Proof.
  revert n. induction p as [p IH|p IH|]; intros n Hn Hp; simpl digits2_pos;
    assert (0 < n)%Z
      by (destruct (Z.eq_dec n 0); [subst; simpl in *; lia | lia]);
    try (replace n with (Z.succ (n - 1)) in Hp by lia;
         rewrite Z.pow_succ_r in Hp by lia;
         specialize (IH (n - 1)%Z));
    lia.
Qed.

Lemma of_int_nonzero_binary64 (n : Z) :
  (1 <= n < 2 ^ 32)%Z -> @feqb _ binary64 (of_int n) (of_int 0) = false.
Proof.
  intros [H1 H2]. destruct n as [|p|p]; try lia.
  destruct (@of_Z_pos_finite p) as (m & e & Hm).
  - apply Z.le_trans with 32%Z; [|lia]. apply digits2_pos_bound; lia.
  - change (SFeqb (B64.of_Z (Zpos p)) (B64.of_Z 0) = false).
    rewrite Hm. reflexivity.
Qed.

(* ===================================================================== *)
(** * binary64: a number that is at least 1 does not round to zero *)
(* ===================================================================== *)

Lemma digits2_pos_log2 (p : positive) :
  Zpos (digits2_pos p) = (Z.log2 (Zpos p) + 1)%Z.
Proof.
  assert (H : forall q, digits2_pos q = Pos.size q)
    by (induction q; simpl; congruence).
  rewrite H. destruct p; simpl; lia.
Qed.

Lemma shr_1_shiftr (mrs : shr_record) :
  (0 <= shr_m mrs)%Z -> shr_m (shr_1 mrs) = Z.shiftr (shr_m mrs) 1.
Proof.
  destruct mrs as [m r s]. simpl. intros H.
  rewrite <- Z.div2_spec. destruct m as [|[p|p|]|p]; try reflexivity; lia.
Qed.

Lemma iter_shr_1_shiftr (p : positive) (mrs : shr_record) :
  (0 <= shr_m mrs)%Z ->
  shr_m (iter_pos shr_1 p mrs) = Z.shiftr (shr_m mrs) (Zpos p).
Proof.
  revert mrs. induction p as [p IH|p IH|]; intros mrs H; simpl iter_pos.
  - assert (H1 : (0 <= shr_m (shr_1 mrs))%Z)
      by (rewrite shr_1_shiftr by exact H; now apply Z.shiftr_nonneg).
    assert (H2 : (0 <= shr_m (iter_pos shr_1 p (shr_1 mrs)))%Z)
      by (rewrite IH by exact H1; now apply Z.shiftr_nonneg).
    rewrite IH by exact H2. rewrite IH by exact H1.
    rewrite shr_1_shiftr by exact H.
    rewrite !Z.shiftr_shiftr by lia. f_equal. lia.
  - assert (H2 : (0 <= shr_m (iter_pos shr_1 p mrs))%Z)
      by (rewrite IH by exact H; now apply Z.shiftr_nonneg).
    rewrite IH by exact H2. rewrite IH by exact H.
    rewrite Z.shiftr_shiftr by lia. f_equal. lia.
  - now apply shr_1_shiftr.
Qed.

Lemma shr_record_of_loc_m (m : Z) (l : location) :
  shr_m (shr_record_of_loc m l) = m.
Proof. destruct l as [|[]]; reflexivity. Qed.

Lemma round_nearest_even_bounds (m : Z) (l : location) :
  (m <= round_nearest_even m l <= m + 1)%Z.
Proof.
  destruct l as [|[]]; simpl; try lia. destruct (Z.even m); lia.
Qed.

Lemma fexp_normal (x : Z) :
  (1 <= x)%Z -> fexp B64.prec B64.emax x = (x - 53)%Z.
Proof. intros H. unfold fexp, emin, B64.prec, B64.emax. lia. Qed.

(** One shift towards the exponent of the format keeps the number of
    digits plus the exponent. *)
Lemma shr_fexp_digits (m : positive) (e : Z) (l : location) :
  (1 <= Zpos (digits2_pos m) + e)%Z ->
  exists m',
    shr_m (fst (shr_fexp B64.prec B64.emax (Zpos m) e l)) = Zpos m' /\
    (Zpos (digits2_pos m')
     + snd (shr_fexp B64.prec B64.emax (Zpos m) e l)
     = Zpos (digits2_pos m) + e)%Z.
Proof.
  intros H. unfold shr_fexp. simpl Zdigits2. rewrite (fexp_normal H).
  set (d := Zpos (digits2_pos m)) in *.
  replace (d + e - 53 - e)%Z with (d - 53)%Z by lia.
  unfold shr. destruct (d - 53)%Z as [|n|n] eqn:En.
  - exists m. cbn [fst snd]. rewrite shr_record_of_loc_m.
    split; [reflexivity | lia].
  - cbn [fst snd]. rewrite iter_shr_1_shiftr
      by (rewrite shr_record_of_loc_m; lia).
    rewrite shr_record_of_loc_m.
    assert (Hl : Z.log2 (Z.shiftr (Zpos m) (Zpos n)) = 52%Z).
    { rewrite Z.log2_shiftr by lia. unfold d in En.
      rewrite digits2_pos_log2 in En. lia. }
    destruct (Z.shiftr (Zpos m) (Zpos n)) as [|m'|m'] eqn:Em;
      try (simpl in Hl; lia).
    exists m'. split; [reflexivity|].
    rewrite (digits2_pos_log2 m'), Hl. lia.
  - exists m. cbn [fst snd]. rewrite shr_record_of_loc_m.
    split; [reflexivity | lia].
Qed.

Lemma binary_round_aux_at_least_one (m : positive) (e : Z) (l : location) :
  (1 <= Zpos (digits2_pos m) + e)%Z ->
  B64.at_least_one (binary_round_aux B64.prec B64.emax false (Zpos m) e l).
Proof.
  intros H. unfold binary_round_aux.
  destruct (shr_fexp_digits m e l H) as (m1 & Hm1 & Hd1).
  destruct (shr_fexp B64.prec B64.emax (Zpos m) e l) as [mrs' e'].
  cbn [fst snd] in Hm1, Hd1.
  pose proof (round_nearest_even_bounds (shr_m mrs') (loc_of_shr_record mrs'))
    as Hb.
  rewrite Hm1 in *.
  destruct (round_nearest_even (Zpos m1) (loc_of_shr_record mrs'))
    as [|m2|m2] eqn:E2; try lia.
  assert (H2 : (1 <= Zpos (digits2_pos m2) + e')%Z).
  { rewrite digits2_pos_log2. rewrite digits2_pos_log2 in Hd1.
    assert (Z.log2 (Zpos m1) <= Z.log2 (Zpos m2))%Z
      by (apply Z.log2_le_mono; lia).
    lia. }
  destruct (shr_fexp_digits m2 e' loc_Exact H2) as (m3 & Hm3 & Hd3).
  destruct (shr_fexp B64.prec B64.emax (Zpos m2) e' loc_Exact) as [mrs'' e''].
  cbn [fst snd] in Hm3, Hd3. rewrite Hm3.
  destruct (Z.leb e'' (B64.emax - B64.prec)); cbn [B64.at_least_one];
    [split; [reflexivity | lia] | reflexivity].
Qed.

Lemma binary_round_aux_sign (s : bool) (m e : Z) (l : location) :
  match binary_round_aux B64.prec B64.emax s m e l with
  | S754_nan => True
  | S754_infinity s' | S754_zero s' | S754_finite s' _ _ => s' = s
  end.
Proof.
  unfold binary_round_aux.
  destruct (shr_fexp B64.prec B64.emax m e l) as [mrs' e'].
  destruct (shr_fexp B64.prec B64.emax _ e' loc_Exact) as [mrs'' e''].
  destruct (shr_m mrs''); [reflexivity | | exact I].
  destruct (Z.leb e'' (B64.emax - B64.prec)); reflexivity.
Qed.

Lemma shl_align_digits (m : positive) (e e' : Z) :
  (Zpos (digits2_pos (fst (shl_align m e e'))) + snd (shl_align m e e')
   = Zpos (digits2_pos m) + e)%Z.
Proof.
  unfold shl_align. destruct (e' - e)%Z as [|d|d] eqn:E; cbn [fst snd];
    try reflexivity.
  rewrite digits2_pos_iter_xO. lia.
Qed.

Lemma shl_align_snd (m : positive) (e e' : Z) :
  (e' <= e)%Z -> snd (shl_align m e e') = e'.
Proof.
  intros H. unfold shl_align.
  destruct (e' - e)%Z as [|d|d] eqn:E; cbn [fst snd]; lia.
Qed.

Lemma binary_round_at_least_one (m : positive) (e : Z) :
  (1 <= Zpos (digits2_pos m) + e)%Z ->
  B64.at_least_one (binary_round B64.prec B64.emax false m e).
Proof.
  intros H. unfold binary_round.
  pose proof (shl_align_digits m e
                (fexp B64.prec B64.emax (Zpos (digits2_pos m) + e))) as Hd.
  destruct (shl_align m e _) as [mz ez]. cbn [fst snd] in Hd.
  apply binary_round_aux_at_least_one. lia.
Qed.

Lemma mul_self_not_negative (x : B64.float) : B64.not_negative (B64.mul x x).
Proof.
  destruct x as [s|s| |s m e]; cbn [B64.mul SFmul B64.not_negative];
    try (destruct s; reflexivity); try exact I.
  pose proof (binary_round_aux_sign (xorb s s) (Zpos (m * m)) (e + e)
                loc_Exact) as H.
  unfold B64.not_negative.
  destruct (binary_round_aux _ _ _ _ _ _); try exact I;
    rewrite H; destruct s; reflexivity.
Qed.

Lemma add_not_negative (a b : B64.float) :
  B64.not_negative a -> B64.not_negative b -> B64.not_negative (B64.add a b).
Proof.
  destruct a as [sa|sa| |sa ma ea]; destruct b as [sb|sb| |sb mb eb];
    cbn [B64.not_negative]; intros Ha Hb; subst;
    try exact I; try reflexivity.
  unfold B64.add, SFadd, binary_normalize, cond_Zopp, binary_round.
  cbn [Z.add].
  destruct (shl_align _ _ _) as [mz ez].
  pose proof (binary_round_aux_sign false (Zpos mz) ez loc_Exact) as H.
  unfold B64.not_negative.
  destruct (binary_round_aux _ _ _ _ _ _); try exact I; exact H.
Qed.

Lemma one_binary64 : B64.of_Z 1 = S754_finite false 4503599627370496 (-52).
Proof. reflexivity. Qed.

Lemma add_one_at_least_one (t : B64.float) :
  B64.not_negative t -> B64.at_least_one (B64.add t (B64.of_Z 1)).
Proof.
  rewrite one_binary64.
  destruct t as [s|s| |s m e]; cbn [B64.not_negative]; intros H; subst;
    try exact I; try reflexivity.
  - cbn. split; [reflexivity | lia].
  - unfold B64.add, SFadd, binary_normalize, cond_Zopp. cbn [Z.add].
    set (ez := Z.min e (-52)).
    set (A := fst (shl_align m e ez)).
    set (O := fst (shl_align 4503599627370496 (-52) ez)).
    apply binary_round_at_least_one.
    assert (HO : (Zpos (digits2_pos O) + ez = 1)%Z).
    { pose proof (shl_align_digits 4503599627370496 (-52) ez) as Hd.
      rewrite shl_align_snd in Hd by (unfold ez; lia).
      fold O in Hd. rewrite Hd. reflexivity. }
    rewrite digits2_pos_log2. rewrite digits2_pos_log2 in HO.
    assert (Z.log2 (Zpos O) <= Z.log2 (Zpos (A + O)))%Z
      by (apply Z.log2_le_mono; lia).
    lia.
Qed.

Lemma sqrt_at_least_one (a : B64.float) :
  B64.at_least_one a -> B64.at_least_one (B64.sqrt a).
Proof.
  destruct a as [s|s| |s m e]; cbn [B64.at_least_one]; intros H;
    try contradiction; try (subst; exact I || reflexivity).
  destruct H as [-> H].
  unfold B64.sqrt, SFsqrt, SFsqrt_core_binary. cbn [Zdigits2].
  set (d := Zpos (digits2_pos m)) in *.
  set (e' := Z.min (fexp B64.prec B64.emax (Z.div2 (d + e + 1))) (Z.div2 e)).
  assert (He' : (2 * e' <= e)%Z).
  { pose proof (Zdiv2_odd_eqn e). unfold e'.
    destruct (Z.odd e); lia. }
  remember (e - 2 * e')%Z as s eqn:Es.
  assert (Hs : (0 <= s)%Z) by lia.
  set (m' := match s with
             | 0%Z => Zpos m
             | Zpos _ => Z.shiftl (Zpos m) s
             | Zneg _ => 0%Z
             end).
  assert (Hm' : m' = (Zpos m * 2 ^ s)%Z).
  { unfold m'. clear Es. destruct s as [|p|p]; try lia.
    apply Z.shiftl_mul_pow2. lia. }
  assert (Hlow : (2 ^ (d - 1 + s) <= m')%Z).
  { rewrite Hm', Z.pow_add_r by (unfold d; lia).
    apply Z.mul_le_mono_nonneg_r; [apply Z.pow_nonneg; lia|].
    unfold d. rewrite digits2_pos_log2.
    replace (Z.log2 (Zpos m) + 1 - 1)%Z with (Z.log2 (Zpos m)) by lia.
    apply Z.log2_spec. lia. }
  assert (Hpos : (0 < m')%Z).
  { apply Z.lt_le_trans with (2 ^ (d - 1 + s))%Z; [|exact Hlow].
    apply Z.pow_pos_nonneg; unfold d; lia. }
  pose proof (Z.sqrtrem_sqrt m') as Hq.
  destruct (Z.sqrtrem m') as [q r]. cbn [fst] in Hq. subst q.
  assert (Hq : (0 < Z.sqrt m')%Z) by (apply Z.sqrt_pos; exact Hpos).
  destruct (Z.sqrt m') as [|q|q] eqn:Eq; try lia.
  apply binary_round_aux_at_least_one.
  rewrite digits2_pos_log2.
  destruct (Z.le_gt_cases 0 e') as [Hn|Hn].
  - pose proof (Z.log2_nonneg (Zpos q)). lia.
  - assert (Hsq : (2 ^ (- e') <= Z.sqrt m')%Z).
    { apply Z.sqrt_le_square; [lia | apply Z.pow_nonneg; lia |].
      rewrite <- Z.pow_add_r by lia.
      apply Z.le_trans with (2 ^ (d - 1 + s))%Z; [|exact Hlow].
      apply Z.pow_le_mono_r; lia. }
    rewrite Eq in Hsq.
    assert (Z.log2 (2 ^ (- e')) <= Z.log2 (Zpos q))%Z
      by (apply Z.log2_le_mono; exact Hsq).
    rewrite Z.log2_pow2 in * by lia. lia.
Qed.

(* ===================================================================== *)
(** * binary64: rounding, step by step *)
(* ===================================================================== *)

Lemma Zdigits2_log2 (m : Z) :
  (0 < m)%Z -> Zdigits2 m = (Z.log2 m + 1)%Z.
Proof. destruct m as [|p|p]; try lia. intros _. apply digits2_pos_log2. Qed.

Lemma Zdigits2_nonneg (m : Z) : (0 <= m)%Z -> (0 <= Zdigits2 m)%Z.
Proof. destruct m as [|p|p]; simpl; lia. Qed.

Lemma Zdigits2_bounds (m : Z) :
  (0 < m)%Z -> (2 ^ (Zdigits2 m - 1) <= m < 2 ^ Zdigits2 m)%Z.
Proof.
  intros H. rewrite (Zdigits2_log2 H).
  replace (Z.log2 m + 1 - 1)%Z with (Z.log2 m) by lia.
  replace (Z.log2 m + 1)%Z with (Z.succ (Z.log2 m)) by lia.
  apply Z.log2_spec. exact H.
Qed.

Lemma Zdigits2_le (m j : Z) :
  (0 <= m)%Z -> (0 <= j)%Z -> (m < 2 ^ j)%Z -> (Zdigits2 m <= j)%Z.
Proof.
  intros Hm Hj H. destruct m as [|p|p]; try lia; [exact Hj|].
  now apply digits2_pos_bound.
Qed.

Lemma Zdigits2_ge (m j : Z) :
  (0 <= j)%Z -> (2 ^ j <= m)%Z -> (j + 1 <= Zdigits2 m)%Z.
Proof.
  intros Hj H.
  assert (Hm : (0 < m)%Z)
    by (apply Z.lt_le_trans with (2 ^ j)%Z; [apply Z.pow_pos_nonneg; lia | exact H]).
  rewrite (Zdigits2_log2 Hm).
  assert (Z.log2 (2 ^ j) <= Z.log2 m)%Z by (apply Z.log2_le_mono; exact H).
  rewrite Z.log2_pow2 in * by lia. lia.
Qed.

Lemma fexp_eq (x : Z) :
  fexp B64.prec B64.emax x = Z.max (x - 53) (-1074).
Proof. reflexivity. Qed.

Lemma shr_nonpos (mrs : shr_record) (e n : Z) :
  (n <= 0)%Z -> shr mrs e n = (mrs, e).
Proof. intros H. destruct n; try reflexivity. lia. Qed.

Lemma shr_shiftr (mrs : shr_record) (e n : Z) :
  (0 <= shr_m mrs)%Z -> (0 <= n)%Z ->
  shr_m (fst (shr mrs e n)) = Z.shiftr (shr_m mrs) n /\
  snd (shr mrs e n) = (e + n)%Z.
Proof.
  intros Hm Hn. destruct n as [|p|p]; try lia; cbn [shr fst snd].
  - rewrite Z.shiftr_0_r. split; lia.
  - split; [now apply iter_shr_1_shiftr | reflexivity].
Qed.

(** What [binary_round_aux] returns when the exponent is not above the one
    of the format: the mantissa shifted to the exponent [E] of the format,
    or its successor, renormalised when it reaches [2^53]. *)
Lemma binary_round_aux_shift (s : bool) (mx ex : Z) (lx : location) :
  (0 <= mx)%Z ->
  (ex <= fexp B64.prec B64.emax (Zdigits2 mx + ex))%Z ->
  exists m1 : Z,
    let E := fexp B64.prec B64.emax (Zdigits2 mx + ex) in
    (Z.shiftr mx (E - ex) <= m1 <= Z.shiftr mx (E - ex) + 1)%Z /\
    (m1 <= 2 ^ 53)%Z /\
    binary_round_aux B64.prec B64.emax s mx ex lx
    = if (m1 =? 0)%Z then S754_zero s
      else if (m1 <? 2 ^ 53)%Z then
        if (E <=? 971)%Z then S754_finite s (Z.to_pos m1) E
        else S754_infinity s
      else
        if (E + 1 <=? 971)%Z then S754_finite s 4503599627370496 (E + 1)
        else S754_infinity s.
Proof.
  intros Hmx HE. set (E := fexp B64.prec B64.emax (Zdigits2 mx + ex)) in *.
  assert (HEmin : (-1074 <= E)%Z) by (unfold E; rewrite fexp_eq; lia).
  assert (HEd : (Zdigits2 mx + ex - 53 <= E)%Z)
    by (unfold E; rewrite fexp_eq; lia).
  unfold binary_round_aux, shr_fexp. fold E.
  destruct (@shr_shiftr (shr_record_of_loc mx lx) ex (E - ex))
    as [Hk He]; [rewrite shr_record_of_loc_m; lia | lia |].
  rewrite shr_record_of_loc_m in Hk.
  destruct (shr (shr_record_of_loc mx lx) ex (E - ex)) as [mrs' e'].
  cbn [fst snd] in Hk, He.
  assert (He' : e' = E) by lia. clear He. subst e'.
  set (k := Z.shiftr mx (E - ex)) in *.
  assert (Hk0 : (0 <= k)%Z) by (unfold k; apply Z.shiftr_nonneg; lia).
  assert (Hk53 : (k < 2 ^ 53)%Z).
  { unfold k. rewrite Z.shiftr_div_pow2 by lia.
    apply Z.div_lt_upper_bound; [apply Z.pow_pos_nonneg; lia|].
    rewrite <- Z.pow_add_r by lia.
    destruct (Z.eq_dec mx 0) as [->|Hn];
      [apply Z.pow_pos_nonneg; lia|].
    apply Z.lt_le_trans with (2 ^ Zdigits2 mx)%Z;
      [apply Zdigits2_bounds; lia|].
    apply Z.pow_le_mono_r; lia. }
  pose proof (round_nearest_even_bounds (shr_m mrs') (loc_of_shr_record mrs'))
    as Hb.
  rewrite Hk in Hb |- *.
  set (m1 := round_nearest_even k (loc_of_shr_record mrs')) in *.
  exists m1. cbn zeta.
  split; [exact Hb|]. split; [lia|].
  cbn [shr_record_of_loc].
  destruct (Z.eqb_spec m1 0) as [H0|H0].
  - rewrite H0. cbn [Zdigits2].
    rewrite shr_nonpos by (rewrite fexp_eq; lia). reflexivity.
  - destruct (Z.ltb_spec m1 (2 ^ 53)) as [Hlt|Hge].
    + assert (Hd : (Zdigits2 m1 <= 53)%Z) by (apply Zdigits2_le; lia).
      rewrite shr_nonpos by (rewrite fexp_eq; lia).
      cbn [shr_m]. destruct m1 as [|p|p]; try lia. reflexivity.
    + assert (Hm1 : m1 = (2 ^ 53)%Z) by lia. rewrite Hm1.
      change (Zdigits2 (2 ^ 53)) with 54%Z.
      replace (fexp B64.prec B64.emax (54 + E) - E)%Z with 1%Z
        by (rewrite fexp_eq; lia).
      reflexivity.
Qed.

(* ===================================================================== *)
(** * binary64: the error of one rounding *)
(* ===================================================================== *)

Lemma p2_pos (e : Z) : (0 < p2 e)%R.
Proof. apply powerRZ_lt. lra. Qed.

Lemma p2_add (a b : Z) : p2 (a + b) = (p2 a * p2 b)%R.
Proof. apply powerRZ_add. lra. Qed.

Lemma p2_IZR (j : Z) : (0 <= j)%Z -> IZR (2 ^ j) = p2 j.
Proof.
  intros H. unfold p2. rewrite <- (Z2Nat.id j H) at 1 2.
  rewrite <- pow_IZR, pow_powerRZ. reflexivity.
Qed.

Lemma p2_ge_1 (j : Z) : (0 <= j)%Z -> (1 <= p2 j)%R.
Proof.
  intros H. rewrite <- (p2_IZR H). apply IZR_le.
  assert (0 < 2 ^ j)%Z by (apply Z.pow_pos_nonneg; lia). lia.
Qed.

Lemma p2_1 : p2 1 = 2%R.
Proof. unfold p2. simpl. lra. Qed.

Lemma p2_le (a b : Z) : (a <= b)%Z -> (p2 a <= p2 b)%R.
Proof.
  intros H. replace b with (a + (b - a))%Z by lia. rewrite p2_add.
  pose proof (p2_pos a). pose proof (@p2_ge_1 (b - a) ltac:(lia)). nra.
Qed.

Lemma p2_lt (a b : Z) : (a < b)%Z -> (p2 a < p2 b)%R.
Proof.
  intros H. replace b with (a + 1 + (b - a - 1))%Z by lia.
  rewrite !p2_add, p2_1.
  pose proof (p2_pos a). pose proof (@p2_ge_1 (b - a - 1) ltac:(lia)). nra.
Qed.

Lemma p2_lt_inv (a b : Z) : (p2 a < p2 b)%R -> (a < b)%Z.
Proof.
  intros H. destruct (Z.lt_ge_cases a b) as [L|L]; [exact L|].
  pose proof (p2_le L). lra.
Qed.

Lemma p2_0 : p2 0 = 1%R.
Proof. reflexivity. Qed.

(** The digits of a mantissa, in the reals. *)
Lemma IZR_digits_bounds (m : Z) :
  (0 < m)%Z ->
  (p2 (Zdigits2 m - 1) <= IZR m)%R /\ (IZR m + 1 <= p2 (Zdigits2 m))%R.
Proof.
  intros H. destruct (Zdigits2_bounds H) as [L U].
  pose proof (Zdigits2_ge) as _.
  assert (Hd : (1 <= Zdigits2 m)%Z) by (rewrite (Zdigits2_log2 H);
    pose proof (Z.log2_nonneg m); lia).
  rewrite <- !p2_IZR by lia. split.
  - now apply IZR_le.
  - rewrite <- plus_IZR. apply IZR_le. lia.
Qed.

(** The value of what [binary_round_aux] returns. *)
Lemma B2R_round_result (s : bool) (m1 E : Z) :
  (0 <= m1 <= 2 ^ 53)%Z ->
  let r := if (m1 =? 0)%Z then S754_zero s
           else if (m1 <? 2 ^ 53)%Z then
             if (E <=? 971)%Z then S754_finite s (Z.to_pos m1) E
             else S754_infinity s
           else
             if (E + 1 <=? 971)%Z then S754_finite s 4503599627370496 (E + 1)
             else S754_infinity s in
  ((E <= 970)%Z -> B64.is_finite r = true) /\
  (B64.is_finite r = true -> B2R r = (sgn s * (IZR m1 * p2 E))%R).
Proof.
  intros Hm r. subst r.
  destruct (Z.eqb_spec m1 0) as [H0|H0].
  - subst m1. split; [reflexivity|]. intros _. simpl. ring.
  - destruct (Z.ltb_spec m1 (2 ^ 53)) as [Hlt|Hge].
    + destruct (Z.leb_spec E 971) as [HE|HE].
      * split; [reflexivity|]. intros _. cbn [B2R].
        rewrite Z2Pos.id by lia. reflexivity.
      * split; [lia | discriminate].
    + assert (Hm1 : m1 = (2 ^ 53)%Z) by lia.
      destruct (Z.leb_spec (E + 1) 971) as [HE|HE].
      * split; [reflexivity|]. intros _. cbn [B2R]. rewrite Hm1, p2_add.
        rewrite p2_1.
        replace (IZR (2 ^ 53)) with (2 * IZR 4503599627370496)%R
          by (rewrite <- mult_IZR; reflexivity).
        ring.
      * split; [lia | discriminate].
Qed.

(** One rounding is faithful: the number returned is within one unit in the
    last place of the number rounded.  [x] is any real in the interval
    [[mx, mx + 1] * 2^ex] that the mantissa and the location describe. *)
Lemma binary_round_aux_error (s : bool) (mx ex : Z) (lx : location) (x : R) :
  (0 <= mx)%Z ->
  (ex <= fexp B64.prec B64.emax (Zdigits2 mx + ex))%Z ->
  (IZR mx * p2 ex <= x <= (IZR mx + 1) * p2 ex)%R ->
  let r := binary_round_aux B64.prec B64.emax s mx ex lx in
  ((x < p2 1023)%R -> B64.is_finite r = true) /\
  (B64.is_finite r = true ->
   (Rabs (B2R r - sgn s * x) <= p2 (-52) * x + p2 (-1074))%R /\
   ((p2 (-1021) <= x)%R -> (Rabs (B2R r - sgn s * x) <= p2 (-52) * x)%R)).
Proof.
  intros Hmx HE Hx r.
  destruct (binary_round_aux_shift s lx Hmx HE) as (m1 & Hk & Hm53 & Hr).
  cbn zeta in Hk, Hr.
  set (E := fexp B64.prec B64.emax (Zdigits2 mx + ex)) in *.
  set (n := (E - ex)%Z) in *.
  set (k := Z.shiftr mx n) in *.
  assert (Hn : (0 <= n)%Z) by (unfold n; lia).
  assert (Hk0 : (0 <= k)%Z) by (unfold k; apply Z.shiftr_nonneg; lia).
  assert (Hkm : (k * 2 ^ n <= mx < (k + 1) * 2 ^ n)%Z).
  { unfold k. rewrite Z.shiftr_div_pow2 by lia.
    assert (0 < 2 ^ n)%Z by (apply Z.pow_pos_nonneg; lia).
    pose proof (Z.mul_div_le mx (2 ^ n) ltac:(lia)).
    pose proof (Z.mul_succ_div_gt mx (2 ^ n) ltac:(lia)). lia. }
  assert (HpE : p2 E = (p2 n * p2 ex)%R)
    by (rewrite <- p2_add; f_equal; unfold n; lia).
  pose proof (p2_pos ex) as Pex. pose proof (p2_pos E) as PE.
  pose proof (p2_pos n) as Pn.
  assert (Hlo : (IZR k * p2 E <= x)%R).
  { apply Rle_trans with (IZR mx * p2 ex)%R; [|lra].
    rewrite HpE, <- (p2_IZR Hn), <- Rmult_assoc, <- mult_IZR.
    apply Rmult_le_compat_r; [lra|]. apply IZR_le. lia. }
  assert (Hhi : (x <= (IZR k + 1) * p2 E)%R).
  { apply Rle_trans with ((IZR mx + 1) * p2 ex)%R; [lra|].
    rewrite HpE, <- (p2_IZR Hn), <- Rmult_assoc.
    apply Rmult_le_compat_r; [lra|].
    rewrite <- !plus_IZR, <- mult_IZR. apply IZR_le. lia. }
  assert (Hm1 : (IZR k <= IZR m1 <= IZR k + 1)%R).
  { rewrite <- plus_IZR. split; apply IZR_le; lia. }
  destruct (@B2R_round_result s m1 E ltac:(lia)) as [Hfin Hval].
  fold r in Hr. rewrite <- Hr in Hfin, Hval.
  assert (Herr : B64.is_finite r = true ->
                 (Rabs (B2R r - sgn s * x) <= p2 E)%R).
  { intros F. rewrite (Hval F).
    replace (sgn s * (IZR m1 * p2 E) - sgn s * x)%R
      with (sgn s * (IZR m1 * p2 E - x))%R by ring.
    rewrite Rabs_mult.
    assert (Rabs (sgn s) = 1%R)
      by (destruct s; simpl; [rewrite Rabs_left by lra; lra | apply Rabs_R1]).
    assert (Rabs (IZR m1 * p2 E - x) <= p2 E)%R
      by (apply Rabs_le; nra).
    nra. }
  (* the exponent of the format against the size of [x] *)
  assert (HEx : (0 < mx)%Z -> (-1074 <= Zdigits2 mx + ex - 53)%Z ->
                (p2 E <= p2 (-52) * x)%R).
  { intros Hp Hc.
    assert (HEeq : E = (Zdigits2 mx + ex - 53)%Z)
      by (unfold E in *; rewrite fexp_eq in *; lia).
    destruct (IZR_digits_bounds Hp) as [HL _].
    apply Rle_trans with (p2 (-52) * (IZR mx * p2 ex))%R.
    - apply Rle_trans with (p2 (-52) * (p2 (Zdigits2 mx - 1) * p2 ex))%R.
      + rewrite <- !p2_add. apply p2_le. lia.
      + pose proof (p2_pos (-52)).
        apply Rmult_le_compat_l; [lra|]. apply Rmult_le_compat_r; lra.
    - pose proof (p2_pos (-52)). apply Rmult_le_compat_l; lra. }
  assert (Hxpos : (0 <= x)%R).
  { apply Rle_trans with (IZR mx * p2 ex)%R; [|lra].
    apply Rmult_le_pos; [apply IZR_le; lia | lra]. }
  assert (Hmx0 : mx = 0%Z -> E = (-1074)%Z).
  { intros ->. unfold E in *. cbn [Zdigits2] in *. rewrite fexp_eq in *. lia. }
  split.
  - intros Hxu. apply Hfin.
    destruct (Z.eq_dec mx 0) as [H0|H0]; [rewrite (Hmx0 H0); lia|].
    destruct (@IZR_digits_bounds mx ltac:(lia)) as [HL _].
    assert (Hlt : (p2 (Zdigits2 mx - 1 + ex) < p2 1023)%R).
    { rewrite p2_add. nra. }
    apply p2_lt_inv in Hlt. unfold E. rewrite fexp_eq. lia.
  - intros F. specialize (Herr F). split.
    + destruct (Z.eq_dec E (-1074)) as [HE1|HE1].
      * rewrite HE1 in Herr. pose proof (p2_pos (-52)). nra.
      * assert (Hp : (0 < mx)%Z)
          by (destruct (Z.eq_dec mx 0) as [H0|H0];
              [specialize (Hmx0 H0); lia | lia]).
        assert (Hc : (-1074 <= Zdigits2 mx + ex - 53)%Z)
          by (unfold E in *; rewrite fexp_eq in *; lia).
        pose proof (HEx Hp Hc). pose proof (p2_pos (-1074)). lra.
    + intros Hxl.
      assert (Hp : (0 < mx)%Z).
      { destruct (Z.eq_dec mx 0) as [H0|H0]; [|lia]. exfalso.
        specialize (Hmx0 H0). subst mx.
        assert (p2 ex <= p2 (-1074))%R by (apply p2_le; lia).
        pose proof (@p2_lt (-1074) (-1021) ltac:(lia)).
        simpl in Hx. lra. }
      assert (Hc : (-1074 <= Zdigits2 mx + ex - 53)%Z).
      { destruct (IZR_digits_bounds Hp) as [_ HU].
        assert (Hlt : (p2 (-1022) < p2 (Zdigits2 mx + ex))%R).
        { rewrite p2_add. pose proof (@p2_lt (-1022) (-1021) ltac:(lia)).
          assert ((IZR mx + 1) * p2 ex <= p2 (Zdigits2 mx) * p2 ex)%R
            by (apply Rmult_le_compat_r; lra).
          lra. }
        apply p2_lt_inv in Hlt. lia. }
      pose proof (HEx Hp Hc). lra.
Qed.

(** What one rounding returns is a binary64 number. *)
Lemma binary_round_aux_valid (s : bool) (mx ex : Z) (lx : location) :
  (0 <= mx)%Z ->
  (ex <= fexp B64.prec B64.emax (Zdigits2 mx + ex))%Z ->
  binary64_valid (binary_round_aux B64.prec B64.emax s mx ex lx) = true.
Proof.
  intros Hmx HE.
  destruct (binary_round_aux_shift s lx Hmx HE) as (m1 & Hk & Hm53 & Hr).
  cbn zeta in Hk, Hr. rewrite Hr. clear Hr.
  set (E := fexp B64.prec B64.emax (Zdigits2 mx + ex)) in *.
  assert (HEmin : (-1074 <= E)%Z) by (unfold E; rewrite fexp_eq; lia).
  destruct (Z.eqb_spec m1 0) as [H0|H0]; [reflexivity|].
  assert (Hk0 : (0 <= Z.shiftr mx (E - ex))%Z)
    by (apply Z.shiftr_nonneg; lia).
  destruct (Z.ltb_spec m1 (2 ^ 53)) as [Hlt|Hge].
  - destruct (Z.leb_spec E 971) as [HE1|HE1]; [|reflexivity].
    unfold binary64_valid, valid_binary, bounded, canonical_mantissa.
    apply andb_true_intro. split; [|apply Z.leb_le; exact HE1].
    apply Z.eqb_eq.
    assert (Hd : Zpos (digits2_pos (Z.to_pos m1)) = Zdigits2 m1)
      by (destruct m1; try lia; reflexivity).
    rewrite Hd.
    assert (Hd53 : (Zdigits2 m1 <= 53)%Z) by (apply Zdigits2_le; lia).
    destruct (Z.eq_dec E (-1074)) as [HEc|HEc];
      [rewrite fexp_eq; lia|].
    assert (Hp : (0 < mx)%Z).
    { destruct (Z.eq_dec mx 0) as [Hz|Hz]; [|lia]. exfalso.
      subst mx. unfold E in *. cbn [Zdigits2] in *.
      rewrite fexp_eq in *. lia. }
    assert (HEeq : E = (Zdigits2 mx + ex - 53)%Z)
      by (unfold E in *; rewrite fexp_eq in *; lia).
    assert (Hk52 : (2 ^ 52 <= Z.shiftr mx (E - ex))%Z).
    { rewrite Z.shiftr_div_pow2 by lia.
      apply Z.div_le_lower_bound; [apply Z.pow_pos_nonneg; lia|].
      rewrite <- Z.pow_add_r by lia.
      replace (E - ex + 52)%Z with (Zdigits2 mx - 1)%Z by lia.
      apply Zdigits2_bounds. exact Hp. }
    assert (53 <= Zdigits2 m1)%Z
      by (apply (@Zdigits2_ge m1 52); lia).
    rewrite fexp_eq. lia.
  - destruct (Z.leb_spec (E + 1) 971) as [HE1|HE1]; [|reflexivity].
    unfold binary64_valid, valid_binary, bounded, canonical_mantissa.
    apply andb_true_intro. split; [|apply Z.leb_le; exact HE1].
    apply Z.eqb_eq. change (Zpos (digits2_pos 4503599627370496)) with 53%Z.
    rewrite fexp_eq. lia.
Qed.

Lemma sgn_xorb (a b : bool) : sgn (xorb a b) = (sgn a * sgn b)%R.
Proof. destruct a, b; simpl; lra. Qed.

Lemma Rabs_sgn (s : bool) (x : R) : (0 <= x)%R -> Rabs (sgn s * x) = x.
Proof.
  intros H. destruct s; simpl.
  - replace (-1 * x)%R with (- x)%R by ring.
    rewrite Rabs_Ropp. now apply Rabs_pos_eq.
  - rewrite Rmult_1_l. now apply Rabs_pos_eq.
Qed.

Lemma valid_finite (s : bool) (m : positive) (e : Z) :
  binary64_valid (S754_finite s m e) = true ->
  (Zpos (digits2_pos m) <= 53)%Z /\ (-1074 <= e <= 971)%Z /\
  (e = (-1074)%Z \/ Zpos (digits2_pos m) = 53%Z).
Proof.
  unfold binary64_valid, valid_binary, bounded, canonical_mantissa.
  intros H. apply andb_prop in H. destruct H as [Hc He].
  apply Z.eqb_eq in Hc. apply Z.leb_le in He. rewrite fexp_eq in Hc.
  unfold B64.emax, B64.prec in He. lia.
Qed.

Lemma Zdigits2_mul (a b : positive) :
  (Zpos (digits2_pos a) + Zpos (digits2_pos b) - 1
   <= Zpos (digits2_pos (a * b)))%Z.
Proof.
  change (Zdigits2 (Zpos a) + Zdigits2 (Zpos b) - 1 <= Zdigits2 (Zpos (a * b)))%Z.
  destruct (@Zdigits2_bounds (Zpos a) ltac:(lia)) as [La _].
  destruct (@Zdigits2_bounds (Zpos b) ltac:(lia)) as [Lb _].
  assert (1 <= Zdigits2 (Zpos a))%Z by (simpl; lia).
  assert (1 <= Zdigits2 (Zpos b))%Z by (simpl; lia).
  replace (Zdigits2 (Zpos a) + Zdigits2 (Zpos b) - 1)%Z
    with (Zdigits2 (Zpos a) - 1 + (Zdigits2 (Zpos b) - 1) + 1)%Z by lia.
  apply Zdigits2_ge; [lia|].
  rewrite Z.pow_add_r by lia. rewrite Pos2Z.inj_mul.
  apply Z.mul_le_mono_nonneg; try lia; apply Z.pow_nonneg; lia.
Qed.

(** ** The product *)

Lemma mul_error (x y : B64.float) :
  binary64_valid x = true -> binary64_valid y = true ->
  B64.is_finite x = true -> B64.is_finite y = true ->
  let p := (B2R x * B2R y)%R in
  let r := B64.mul x y in
  binary64_valid r = true /\
  ((Rabs p < p2 1023)%R -> B64.is_finite r = true) /\
  (B64.is_finite r = true ->
   (Rabs (B2R r - p) <= p2 (-52) * Rabs p + p2 (-1074))%R /\
   ((p2 (-1021) <= Rabs p)%R -> (Rabs (B2R r - p) <= p2 (-52) * Rabs p)%R)).
Proof.
  intros Vx Vy Fx Fy p r.
  pose proof (p2_pos (-52)) as P52. pose proof (p2_pos (-1074)) as P1074.
  assert (Z0 : forall q : R, q = 0%R -> forall b : R, b = 0%R ->
               (Rabs (b - q) <= p2 (-52) * Rabs q + p2 (-1074))%R /\
               ((p2 (-1021) <= Rabs q)%R ->
                (Rabs (b - q) <= p2 (-52) * Rabs q)%R)).
  { intros q -> b ->. rewrite Rminus_0_r, Rabs_R0. split; [lra|].
    intros; lra. }
  destruct x as [sx|sx| |sx mx ex]; try discriminate;
    destruct y as [sy|sy| |sy my ey]; try discriminate;
    try (split; [reflexivity|]; split; [reflexivity|]; intros _;
         apply Z0; subst p r; simpl; ring).
  destruct (@valid_finite _ _ _ Vx) as (Dx & Ex & Cx).
  destruct (@valid_finite _ _ _ Vy) as (Dy & Ey & Cy).
  pose proof (Zdigits2_mul mx my) as Dm.
  assert (Hd1 : (1 <= Zpos (digits2_pos mx))%Z) by lia.
  assert (Hd2 : (1 <= Zpos (digits2_pos my))%Z) by lia.
  assert (HE : (ex + ey
                <= fexp B64.prec B64.emax (Zdigits2 (Zpos (mx * my)) + (ex + ey)))%Z)
    by (cbn [Zdigits2]; rewrite fexp_eq; lia).
  set (ax := (IZR (Zpos mx) * p2 ex)%R).
  set (ay := (IZR (Zpos my) * p2 ey)%R).
  assert (Hax : (0 < ax)%R)
    by (apply Rmult_lt_0_compat; [apply IZR_lt; lia | apply p2_pos]).
  assert (Hay : (0 < ay)%R)
    by (apply Rmult_lt_0_compat; [apply IZR_lt; lia | apply p2_pos]).
  assert (Hv : (IZR (Zpos (mx * my)) * p2 (ex + ey))%R = (ax * ay)%R).
  { unfold ax, ay. rewrite Pos2Z.inj_mul, mult_IZR, p2_add. ring. }
  assert (Hp : p = (sgn (xorb sx sy) * (ax * ay))%R).
  { unfold p. cbn [B2R]. fold ax ay. rewrite sgn_xorb. ring. }
  assert (Hap : Rabs p = (ax * ay)%R).
  { rewrite Hp. apply Rabs_sgn. nra. }
  assert (Hx : (IZR (Zpos (mx * my)) * p2 (ex + ey) <= ax * ay
                <= (IZR (Zpos (mx * my)) + 1) * p2 (ex + ey))%R).
  { rewrite <- Hv. pose proof (p2_pos (ex + ey)). nra. }
  destruct (@binary_round_aux_error (xorb sx sy) (Zpos (mx * my)) (ex + ey)
              loc_Exact (ax * ay)%R ltac:(lia) HE Hx) as [Hfin Herr].
  split; [|split].
  - apply binary_round_aux_valid; [lia | exact HE].
  - rewrite Hap. exact Hfin.
  - rewrite Hap, Hp. exact Herr.
Qed.

(** ** The quotient *)

Lemma SFdiv_core_binary_spec (m1 m2 : positive) (e1 e2 : Z) :
  exists q e' l,
    SFdiv_core_binary B64.prec B64.emax (Zpos m1) e1 (Zpos m2) e2 = (q, e', l)
    /\ (0 <= q)%Z
    /\ (e' <= fexp B64.prec B64.emax (Zdigits2 q + e'))%Z
    /\ (IZR q * p2 e'
        <= (IZR (Zpos m1) * p2 e1) / (IZR (Zpos m2) * p2 e2)
        <= (IZR q + 1) * p2 e')%R.
Proof.
  unfold SFdiv_core_binary.
  set (d1 := Zdigits2 (Zpos m1)). set (d2 := Zdigits2 (Zpos m2)).
  set (e' := Z.min (fexp B64.prec B64.emax (d1 + e1 - (d2 + e2))) (e1 - e2)).
  set (s := (e1 - e2 - e')%Z).
  assert (Hs : (0 <= s)%Z) by (unfold s, e'; lia).
  set (m' := match s with
             | 0%Z => Zpos m1
             | Zpos _ => Z.shiftl (Zpos m1) s
             | Zneg _ => 0%Z
             end).
  assert (Hm' : m' = (Zpos m1 * 2 ^ s)%Z).
  { unfold m'. destruct s as [|p|p]; try lia.
    apply Z.shiftl_mul_pow2. lia. }
  pose proof (Z.div_eucl_eq m' (Zpos m2) ltac:(lia)) as Heq.
  pose proof (Z.mod_pos_bound m' (Zpos m2) ltac:(lia)) as Hr.
  pose proof (Z.div_pos m' (Zpos m2)) as Hq.
  unfold Z.modulo, Z.div in Hr, Hq.
  destruct (Z.div_eucl m' (Zpos m2)) as [q r].
  assert (H2s : (0 < 2 ^ s)%Z) by (apply Z.pow_pos_nonneg; lia).
  assert (Hq0 : (0 <= q)%Z) by (apply Hq; [rewrite Hm'|]; lia).
  exists q, e', (new_location (Zpos m2) r).
  split; [reflexivity|]. split; [exact Hq0|]. split.
  - (* the quotient has enough digits *)
    destruct (@Zdigits2_bounds (Zpos m1) ltac:(lia)) as [L1 _].
    destruct (@Zdigits2_bounds (Zpos m2) ltac:(lia)) as [_ U2].
    fold d1 in L1. fold d2 in U2.
    assert (Hd1 : (1 <= d1)%Z) by (unfold d1; simpl; lia).
    assert (Hd2 : (1 <= d2)%Z) by (unfold d2; simpl; lia).
    destruct (Z.le_gt_cases 1 (d1 + s - d2)) as [Ht|Ht].
    + assert (Hql : (2 ^ (d1 + s - d2 - 1) <= q)%Z).
      { assert (Hlow : (2 ^ (d1 + s - d2 - 1) * Zpos m2 <= m')%Z).
        { rewrite Hm'.
          apply Z.le_trans with (2 ^ (d1 + s - d2 - 1) * 2 ^ d2)%Z.
          - apply Z.mul_le_mono_nonneg_l; [apply Z.pow_nonneg; lia | lia].
          - rewrite <- Z.pow_add_r by lia.
            replace (d1 + s - d2 - 1 + d2)%Z with (d1 - 1 + s)%Z by lia.
            rewrite Z.pow_add_r by lia.
            apply Z.mul_le_mono_nonneg_r; lia. }
        assert (P : (0 <= 2 ^ (d1 + s - d2 - 1))%Z)
          by (apply Z.pow_nonneg; lia).
        nia. }
      assert (Hdq : (d1 + s - d2 <= Zdigits2 q)%Z).
      { replace (d1 + s - d2)%Z with (d1 + s - d2 - 1 + 1)%Z by lia.
        apply Zdigits2_ge; [lia | exact Hql]. }
      unfold e' in *. unfold s in *. rewrite !fexp_eq in *. lia.
    + pose proof (Zdigits2_nonneg Hq0).
      unfold e' in *. unfold s in *. rewrite !fexp_eq in *. lia.
  - (* the quotient in the reals *)
    assert (HR : (IZR (Zpos m1) * p2 s
                  = IZR (Zpos m2) * IZR q + IZR r)%R).
    { rewrite <- (p2_IZR Hs), <- !mult_IZR, <- plus_IZR. f_equal. lia. }
    assert (Hpe : p2 e1 = (p2 s * p2 e' * p2 e2)%R).
    { rewrite <- !p2_add. f_equal. unfold s. lia. }
    pose proof (p2_pos e') as Pe'. pose proof (p2_pos e2) as Pe2.
    pose proof (p2_pos s) as Ps.
    assert (Pm2 : (0 < IZR (Zpos m2))%R) by (apply IZR_lt; lia).
    assert (Hr0 : (0 <= IZR r < IZR (Zpos m2))%R)
      by (split; [apply IZR_le | apply IZR_lt]; lia).
    replace (IZR (Zpos m1) * p2 e1 / (IZR (Zpos m2) * p2 e2))%R
      with ((IZR q + IZR r / IZR (Zpos m2)) * p2 e')%R.
    2:{ assert (Hq' : (IZR q + IZR r / IZR (Zpos m2)
                       = IZR (Zpos m1) * p2 s / IZR (Zpos m2))%R)
          by (rewrite HR; field; lra).
        rewrite Hq', Hpe. field. lra. }
    assert (Hfr : (0 <= IZR r / IZR (Zpos m2) <= 1)%R).
    { split.
      - apply Rmult_le_pos; [lra|]. left. now apply Rinv_0_lt_compat.
      - apply Rmult_le_reg_r with (IZR (Zpos m2)); [lra|].
        unfold Rdiv. rewrite Rmult_assoc, Rinv_l by lra. lra. }
    split; apply Rmult_le_compat_r; lra.
Qed.

Lemma div_error (x y : B64.float) :
  B64.is_finite x = true -> B64.is_finite y = true ->
  B2R y <> 0%R ->
  let q := (B2R x / B2R y)%R in
  let r := B64.div x y in
  binary64_valid r = true /\
  ((Rabs q < p2 1023)%R -> B64.is_finite r = true) /\
  (B64.is_finite r = true ->
   (Rabs (B2R r - q) <= p2 (-52) * Rabs q + p2 (-1074))%R /\
   ((p2 (-1021) <= Rabs q)%R -> (Rabs (B2R r - q) <= p2 (-52) * Rabs q)%R)).
Proof.
  intros Fx Fy Hy q r.
  pose proof (p2_pos (-52)) as P52. pose proof (p2_pos (-1074)) as P1074.
  destruct y as [sy|sy| |sy my ey]; try discriminate;
    [exfalso; apply Hy; reflexivity|].
  destruct x as [sx|sx| |sx mx ex]; try discriminate.
  - split; [reflexivity|]. split; [reflexivity|]. intros _.
    assert (Hq : q = 0%R) by (subst q; simpl; unfold Rdiv; ring).
    subst r. cbn [B64.div SFdiv B2R]. rewrite Hq, Rminus_0_r, Rabs_R0.
    split; [lra | intros; lra].
  - set (ax := (IZR (Zpos mx) * p2 ex)%R).
    set (ay := (IZR (Zpos my) * p2 ey)%R).
    assert (Hax : (0 < ax)%R)
      by (apply Rmult_lt_0_compat; [apply IZR_lt; lia | apply p2_pos]).
    assert (Hay : (0 < ay)%R)
      by (apply Rmult_lt_0_compat; [apply IZR_lt; lia | apply p2_pos]).
    assert (Hq : q = (sgn (xorb sx sy) * (ax / ay))%R).
    { unfold q. cbn [B2R]. fold ax ay. rewrite sgn_xorb.
      destruct sx, sy; simpl; field; lra. }
    assert (Hpos : (0 <= ax / ay)%R).
    { apply Rmult_le_pos; [lra|]. left. now apply Rinv_0_lt_compat. }
    assert (Haq : Rabs q = (ax / ay)%R) by (rewrite Hq; now apply Rabs_sgn).
    destruct (SFdiv_core_binary_spec mx my ex ey)
      as (mz & ez & lz & Hcore & Hmz & HE & Hx).
    fold ax ay in Hx.
    subst r. unfold B64.div, SFdiv. rewrite Hcore.
    destruct (@binary_round_aux_error (xorb sx sy) mz ez lz (ax / ay)%R
                Hmz HE Hx) as [Hfin Herr].
    split; [|split].
    + now apply binary_round_aux_valid.
    + rewrite Haq. exact Hfin.
    + rewrite Haq, Hq. exact Herr.
Qed.

(* ===================================================================== *)
(** * binary64: rounding errors along a computation *)
(* ===================================================================== *)

Lemma Rabs_le_inv (a b : R) : (Rabs a <= b)%R -> (- b <= a <= b)%R.
Proof. unfold Rabs. destruct (Rcase_abs a); lra. Qed.

Lemma B2R_opp (x : B64.float) : B2R (SFopp x) = (- B2R x)%R.
Proof.
  destruct x as [s|s| |s m e]; simpl; try lra.
  destruct s; simpl; ring.
Qed.

Lemma Rabs_B2R (s : bool) (m : positive) (e : Z) :
  Rabs (B2R (S754_finite s m e)) = (IZR (Zpos m) * p2 e)%R.
Proof.
  cbn [B2R]. apply Rabs_sgn.
  apply Rmult_le_pos; [apply IZR_le; lia | left; apply p2_pos].
Qed.

Lemma in_range_spec (k : Z) (x : B64.float) :
  in_range k x = true ->
  B64.is_finite x = true /\ binary64_valid x = true /\ within k (B2R x).
Proof.
  unfold in_range, normal, mag.
  destruct x as [s|s| |s m e]; try discriminate. intros H.
  repeat (apply andb_prop in H; destruct H as [H ?]).
  repeat match goal with
         | H : (_ =? _)%Z = true |- _ => apply Z.eqb_eq in H
         | H : (_ <=? _)%Z = true |- _ => apply Z.leb_le in H
         | H : (_ <? _)%Z = true |- _ => apply Z.ltb_lt in H
         end.
  split; [reflexivity|]. split.
  - unfold binary64_valid, valid_binary, bounded, canonical_mantissa.
    apply andb_true_intro. split; [apply Z.eqb_eq | apply Z.leb_le].
    + rewrite fexp_eq. lia.
    + unfold B64.emax, B64.prec. lia.
  - unfold within. rewrite Rabs_B2R.
    destruct (@IZR_digits_bounds (Zpos m) ltac:(lia)) as [L U].
    cbn [Zdigits2] in L, U. pose proof (p2_pos e) as Pe.
    split.
    + apply Rle_trans with (p2 (Zpos (digits2_pos m) - 1) * p2 e)%R.
      * rewrite <- p2_add. apply p2_le. lia.
      * apply Rmult_le_compat_r; lra.
    + apply Rle_trans with (p2 (Zpos (digits2_pos m)) * p2 e)%R.
      * apply Rmult_le_compat_r; lra.
      * rewrite <- p2_add. apply p2_le. lia.
Qed.

Lemma within_nonzero (k : Z) (x : R) : within k x -> x <> 0%R.
Proof.
  intros [L _] ->. rewrite Rabs_R0 in L. pose proof (p2_pos (- k)). lra.
Qed.

Lemma within_weaken (a b : Z) (x : R) :
  (a <= b)%Z -> within a x -> within b x.
Proof.
  intros H [L U]. split.
  - apply Rle_trans with (p2 (- a)); [apply p2_le; lia | exact L].
  - apply Rle_trans with (p2 a); [exact U | apply p2_le; lia].
Qed.

Lemma within_mul (a b : Z) (x y : R) :
  within a x -> within b y -> within (a + b) (x * y).
Proof.
  intros [Lx Ux] [Ly Uy]. unfold within. rewrite Rabs_mult.
  replace (- (a + b))%Z with (- a + - b)%Z by lia. rewrite !p2_add.
  pose proof (p2_pos (- a)). pose proof (p2_pos (- b)).
  split; apply Rmult_le_compat; lra.
Qed.

Lemma within_inv (a : Z) (x : R) : within a x -> within a (/ x).
Proof.
  intros H. pose proof (@within_nonzero a x H) as Hx. destruct H as [L U].
  unfold within. rewrite Rabs_inv.
  pose proof (p2_pos (- a)) as P1. pose proof (p2_pos a) as P2.
  assert (Hi : p2 (- a) = (/ p2 a)%R) by (apply powerRZ_neg').
  assert (Hi' : p2 a = (/ p2 (- a))%R).
  { rewrite Hi, Rinv_inv. reflexivity. }
  assert (Hpos : (0 < Rabs x)%R) by lra.
  split.
  - rewrite Hi. apply Rinv_le_contravar; lra.
  - rewrite Hi'. apply Rinv_le_contravar; lra.
Qed.

Lemma within_div (a b : Z) (x y : R) :
  within a x -> within b y -> within (a + b) (x / y).
Proof. intros Hx Hy. apply within_mul; [exact Hx | now apply within_inv]. Qed.

Lemma eps_small : (p2 (-52) <= / 16)%R.
Proof.
  apply Rle_trans with (p2 (-4)); [apply p2_le; lia|].
  unfold p2. simpl. lra.
Qed.

Lemma within_pert (a : Z) (x d : R) :
  within a x -> (Rabs d <= p2 (-52))%R -> within (a + 1) (x * (1 + d)).
Proof.
  intros [L U] Hd. unfold within. rewrite Rabs_mult.
  pose proof eps_small. pose proof (p2_pos (-52)).
  apply Rabs_le_inv in Hd.
  assert (Hd1 : (/ 2 <= Rabs (1 + d) <= 2)%R)
    by (rewrite Rabs_pos_eq by lra; lra).
  replace (- (a + 1))%Z with (- a + - 1)%Z by lia. rewrite !p2_add, p2_1.
  replace (p2 (-1)) with (/ 2)%R by (unfold p2; simpl; lra).
  pose proof (p2_pos (- a)). pose proof (p2_pos a).
  split; apply Rmult_le_compat; lra.
Qed.

(** A relative error as a factor. *)
Lemma rel_factor (r e : R) :
  e <> 0%R -> (Rabs (r - e) <= p2 (-52) * Rabs e)%R ->
  exists d, (Rabs d <= p2 (-52))%R /\ r = (e * (1 + d))%R.
Proof.
  intros He H. exists ((r - e) / e)%R. split.
  - unfold Rdiv. rewrite Rabs_mult, Rabs_inv.
    assert (0 < Rabs e)%R by now apply Rabs_pos_lt.
    apply Rmult_le_reg_r with (Rabs e); [lra|].
    rewrite Rmult_assoc, Rinv_l by lra. lra.
  - field. exact He.
Qed.

(** A product whose exact value lies in the normal range is finite and has
    a relative error of at most [2^-52]. *)
Lemma mul_rel (k : Z) (x y : B64.float) :
  binary64_valid x = true -> binary64_valid y = true ->
  B64.is_finite x = true -> B64.is_finite y = true ->
  (k <= 1021)%Z -> within k (B2R x * B2R y) ->
  B64.is_finite (B64.mul x y) = true /\
  binary64_valid (B64.mul x y) = true /\
  exists d, (Rabs d <= p2 (-52))%R /\
            B2R (B64.mul x y) = (B2R x * B2R y * (1 + d))%R.
Proof.
  intros Vx Vy Fx Fy Hk Hw.
  destruct (mul_error x y Vx Vy Fx Fy) as (V & Hfin & Herr).
  destruct Hw as [L U].
  assert (F : B64.is_finite (B64.mul x y) = true).
  { apply Hfin. apply Rle_lt_trans with (p2 k); [exact U|].
    apply p2_lt. lia. }
  split; [exact F|]. split; [exact V|].
  apply rel_factor.
  - apply (@within_nonzero k). split; assumption.
  - apply (proj2 (Herr F)).
    apply Rle_trans with (p2 (- k)); [apply p2_le; lia | exact L].
Qed.

Lemma div_rel (k : Z) (x y : B64.float) :
  B64.is_finite x = true -> B64.is_finite y = true ->
  B2R y <> 0%R ->
  (k <= 1021)%Z -> within k (B2R x / B2R y) ->
  B64.is_finite (B64.div x y) = true /\
  binary64_valid (B64.div x y) = true /\
  exists d, (Rabs d <= p2 (-52))%R /\
            B2R (B64.div x y) = (B2R x / B2R y * (1 + d))%R.
Proof.
  intros Fx Fy Hy Hk Hw.
  destruct (div_error x y Fx Fy Hy) as (V & Hfin & Herr).
  destruct Hw as [L U].
  assert (F : B64.is_finite (B64.div x y) = true).
  { apply Hfin. apply Rle_lt_trans with (p2 k); [exact U|].
    apply p2_lt. lia. }
  split; [exact F|]. split; [exact V|].
  apply rel_factor.
  - apply (@within_nonzero k). split; assumption.
  - apply (proj2 (Herr F)).
    apply Rle_trans with (p2 (- k)); [apply p2_le; lia | exact L].
Qed.

(** A finite number whose value is not 0 is not [== 0]. *)
Lemma B2R_nonzero_feqb (x : B64.float) :
  B2R x <> 0%R -> @feqb _ binary64 x (of_int 0) = false.
Proof.
  destruct x as [s|s| |s m e]; intros H; try (exfalso; apply H; reflexivity).
  destruct s; reflexivity.
Qed.

(** Accumulated relative errors. *)
Lemma factor_step (u d A : R) :
  (Rabs (u - 1) <= A)%R -> (Rabs d <= p2 (-52))%R ->
  (Rabs (u * (1 + d) - 1) <= A + p2 (-52) + A * p2 (-52))%R.
Proof.
  intros Hu Hd. pose proof (p2_pos (-52)).
  apply Rabs_le_inv in Hu. apply Rabs_le_inv in Hd.
  assert (0 <= A)%R by lra.
  apply Rabs_le. nra.
Qed.

Lemma within_pert_inv (a : Z) (x d : R) :
  within a x -> (Rabs d <= p2 (-52))%R -> within (a + 1) (x / (1 + d)).
Proof.
  intros [L U] Hd. unfold within, Rdiv. rewrite Rabs_mult, Rabs_inv.
  pose proof eps_small. pose proof (p2_pos (-52)).
  apply Rabs_le_inv in Hd.
  assert (Hp : (0 < 1 + d)%R) by lra.
  rewrite (Rabs_pos_eq (1 + d)) by lra.
  assert (Hi : (/ 2 <= / (1 + d) <= 2)%R).
  { split.
    - apply Rinv_le_contravar; lra.
    - replace 2%R with (/ / 2)%R by lra. apply Rinv_le_contravar; lra. }
  replace (- (a + 1))%Z with (- a + - 1)%Z by lia. rewrite !p2_add, p2_1.
  replace (p2 (-1)) with (/ 2)%R by (unfold p2; simpl; lra).
  pose proof (p2_pos (- a)). pose proof (p2_pos a).
  split; apply Rmult_le_compat; lra.
Qed.

Lemma p2_m50 : p2 (-50) = (4 * p2 (-52))%R.
Proof.
  replace (-50)%Z with (2 + -52)%Z by lia. rewrite p2_add.
  replace (p2 2) with 4%R by (unfold p2; simpl; lra). reflexivity.
Qed.

Lemma p2_m49 : p2 (-49) = (8 * p2 (-52))%R.
Proof.
  replace (-49)%Z with (3 + -52)%Z by lia. rewrite p2_add.
  replace (p2 3) with 8%R by (unfold p2; simpl; lra). reflexivity.
Qed.

Lemma ratio_error (d1 d2 : R) :
  (Rabs d1 <= p2 (-52))%R -> (Rabs d2 <= p2 (-52))%R ->
  (Rabs ((1 + d2) / (1 + d1) - 1) <= p2 (-50))%R.
Proof.
  intros H1 H2. pose proof eps_small. pose proof (p2_pos (-52)).
  apply Rabs_le_inv in H1. apply Rabs_le_inv in H2.
  rewrite p2_m50.
  assert (Hp : (0 < 1 + d1)%R) by lra.
  replace ((1 + d2) / (1 + d1) - 1)%R with ((d2 - d1) * / (1 + d1))%R
    by (field; lra).
  assert (Hi : (0 < / (1 + d1) <= 2)%R).
  { split; [now apply Rinv_0_lt_compat|].
    replace 2%R with (/ / 2)%R by lra. apply Rinv_le_contravar; lra. }
  apply Rabs_le. split; nra.
Qed.

Lemma four_factors (d1 d2 d3 d4 : R) :
  (Rabs d1 <= p2 (-52))%R -> (Rabs d2 <= p2 (-52))%R ->
  (Rabs d3 <= p2 (-52))%R -> (Rabs d4 <= p2 (-52))%R ->
  (Rabs ((1 + d1) * (1 + d2) * (1 + d3) * (1 + d4) - 1) <= p2 (-49))%R.
Proof.
  intros H1 H2 H3 H4. pose proof eps_small as He.
  pose proof (p2_pos (-52)) as Hp. rewrite p2_m49.
  set (e := p2 (-52)) in *.
  assert (A1 : (Rabs ((1 + d1) - 1) <= e)%R)
    by (replace (1 + d1 - 1)%R with d1 by ring; exact H1).
  pose proof (@factor_step (1 + d1) d2 e A1 H2) as A2. fold e in A2.
  pose proof (@factor_step _ d3 _ A2 H3) as A3. fold e in A3.
  pose proof (@factor_step _ d4 _ A3 H4) as A4. fold e in A4.
  eapply Rle_trans; [exact A4|]. nra.
Qed.

(** ** Two divisions by way of each other: [T / (T / Z)] *)

Lemma div_div_error (T Z : B64.float) :
  in_range 500 T = true -> in_range 500 Z = true ->
  let t := B64.div T Z in
  let r := B64.div T t in
  @feqb _ binary64 t (of_int 0) = false /\
  B64.is_finite r = true /\
  (Rabs (B2R r - B2R Z) <= p2 (-50) * Rabs (B2R Z))%R.
Proof.
  intros HT HZ t r.
  destruct (in_range_spec _ _ HT) as (FT & VT & WT).
  destruct (in_range_spec _ _ HZ) as (FZ & VZ & WZ).
  pose proof (within_nonzero WT) as NT. pose proof (within_nonzero WZ) as NZ.
  destruct (@div_rel 1000 T Z FT FZ NZ ltac:(lia) (within_div WT WZ))
    as (Ft & Vt & d1 & Hd1 & Et).
  fold t in Ft, Vt, Et.
  assert (Wt : within 1001 (B2R t))
    by (rewrite Et; apply (@within_pert 1000); [apply (within_div WT WZ) | exact Hd1]).
  pose proof (within_nonzero Wt) as Nt.
  pose proof eps_small. pose proof (p2_pos (-52)).
  pose proof (@Rabs_le_inv _ _ Hd1) as Hd1'.
  assert (Eq : (B2R T / B2R t = B2R Z / (1 + d1))%R)
    by (rewrite Et; field; repeat split; lra).
  assert (Wq : within 501 (B2R T / B2R t))
    by (rewrite Eq; now apply (@within_pert_inv 500)).
  destruct (@div_rel 501 T t FT Ft Nt ltac:(lia) Wq)
    as (Fr & Vr & d2 & Hd2 & Er).
  fold r in Fr, Vr, Er.
  split; [now apply B2R_nonzero_feqb|]. split; [exact Fr|].
  rewrite Er, Eq.
  replace (B2R Z / (1 + d1) * (1 + d2) - B2R Z)%R
    with (B2R Z * ((1 + d2) / (1 + d1) - 1))%R by (field; lra).
  rewrite Rabs_mult, (Rmult_comm (p2 (-50))).
  apply Rmult_le_compat_l; [apply Rabs_pos|].
  now apply ratio_error.
Qed.

(** ** A product divided, multiplied back and divided:
       [f * (Z * d / f) / Z] *)

Lemma mul_div_mul_div_error (f d Z : B64.float) :
  in_range 300 f = true -> in_range 300 d = true -> in_range 300 Z = true ->
  let dX := B64.div (B64.mul Z d) f in
  let r := B64.div (B64.mul f dX) Z in
  B64.is_finite r = true /\
  (Rabs (B2R r - B2R d) <= p2 (-49) * Rabs (B2R d))%R.
Proof.
  intros Hf Hd HZ dX r.
  destruct (in_range_spec _ _ Hf) as (Ff & Vf & Wf).
  destruct (in_range_spec _ _ Hd) as (Fd & Vd & Wd).
  destruct (in_range_spec _ _ HZ) as (FZ & VZ & WZ).
  pose proof (within_nonzero Wf) as Nf. pose proof (within_nonzero WZ) as NZ.
  pose proof eps_small. pose proof (p2_pos (-52)).
  (* p = Z * d *)
  destruct (@mul_rel 600 Z d VZ Vd FZ Fd ltac:(lia) (within_mul WZ Wd))
    as (Fp & Vp & d1 & Hd1 & Ep).
  set (p := B64.mul Z d) in *.
  (* dX = p / f *)
  assert (E1 : (B2R p / B2R f = B2R Z * B2R d / B2R f * (1 + d1))%R)
    by (rewrite Ep; field; exact Nf).
  assert (W1 : within 901 (B2R p / B2R f)).
  { rewrite E1. apply (@within_pert 900); [|exact Hd1].
    apply (@within_div 600 300); [apply (within_mul WZ Wd) | exact Wf]. }
  destruct (@div_rel 901 p f Fp Ff Nf ltac:(lia) W1)
    as (FX & VX & d2 & Hd2 & EX).
  fold dX in FX, VX, EX.
  (* q = f * dX *)
  assert (E2 : (B2R f * B2R dX
                = B2R Z * B2R d * (1 + d1) * (1 + d2))%R)
    by (rewrite EX, E1; field; exact Nf).
  assert (W2 : within 602 (B2R f * B2R dX)).
  { rewrite E2. apply (@within_pert 601); [|exact Hd2].
    apply (@within_pert 600); [|exact Hd1]. apply (within_mul WZ Wd). }
  destruct (@mul_rel 602 f dX Vf VX Ff FX ltac:(lia) W2)
    as (Fq & Vq & d3 & Hd3 & Eq).
  set (q := B64.mul f dX) in *.
  (* r = q / Z *)
  assert (E3 : (B2R q / B2R Z
                = B2R d * (1 + d1) * (1 + d2) * (1 + d3))%R)
    by (rewrite Eq, E2; field; exact NZ).
  assert (W3 : within 303 (B2R q / B2R Z)).
  { rewrite E3. apply (@within_pert 302); [|exact Hd3].
    apply (@within_pert 301); [|exact Hd2].
    apply (@within_pert 300); [exact Wd | exact Hd1]. }
  destruct (@div_rel 303 q Z Fq FZ NZ ltac:(lia) W3)
    as (Fr & Vr & d4 & Hd4 & Er).
  fold r in Fr, Vr, Er.
  split; [exact Fr|].
  rewrite Er, E3.
  replace (B2R d * (1 + d1) * (1 + d2) * (1 + d3) * (1 + d4) - B2R d)%R
    with (B2R d * ((1 + d1) * (1 + d2) * (1 + d3) * (1 + d4) - 1))%R by ring.
  rewrite Rabs_mult, (Rmult_comm (p2 (-49))).
  apply Rmult_le_compat_l; [apply Rabs_pos|].
  now apply four_factors.
Qed.

(** ** The sum *)

Lemma shl_align_value (m : positive) (e e' : Z) :
  (IZR (Zpos (fst (shl_align m e e'))) * p2 (snd (shl_align m e e'))
   = IZR (Zpos m) * p2 e)%R.
Proof.
  unfold shl_align. destruct (e' - e)%Z as [|d|d] eqn:E; cbn [fst snd];
    try reflexivity.
  change (Pos.iter xO m d) with (shift_pos d m).
  rewrite shift_pos_correct. change (Z.pow_pos 2 d) with (2 ^ Zpos d)%Z.
  rewrite mult_IZR, p2_IZR by lia.
  replace e with (Zpos d + e')%Z by lia. rewrite p2_add. ring.
Qed.

Lemma shl_align_fexp_le (m : positive) (e : Z) :
  (snd (shl_align m e (fexp B64.prec B64.emax (Zpos (digits2_pos m) + e)))
   <= fexp B64.prec B64.emax (Zpos (digits2_pos m) + e))%Z.
Proof.
  unfold shl_align.
  destruct (fexp B64.prec B64.emax (Zpos (digits2_pos m) + e) - e)%Z
    as [|d|d] eqn:E; cbn [fst snd]; lia.
Qed.

(** Rounding [m * 2^e]. *)
Lemma binary_round_error (s : bool) (m : positive) (e : Z) :
  let v := (IZR (Zpos m) * p2 e)%R in
  let r := binary_round B64.prec B64.emax s m e in
  binary64_valid r = true /\
  ((v < p2 1023)%R -> B64.is_finite r = true) /\
  (B64.is_finite r = true ->
   (Rabs (B2R r - sgn s * v) <= p2 (-52) * v + p2 (-1074))%R /\
   ((p2 (-1021) <= v)%R -> (Rabs (B2R r - sgn s * v) <= p2 (-52) * v)%R)).
Proof.
  intros v r. unfold r, binary_round.
  pose proof (shl_align_digits m e
                (fexp B64.prec B64.emax (Zpos (digits2_pos m) + e))) as Hd.
  pose proof (shl_align_value m e
                (fexp B64.prec B64.emax (Zpos (digits2_pos m) + e))) as Hv.
  pose proof (shl_align_fexp_le m e) as Hl.
  destruct (shl_align m e _) as [mz ez]. cbn [fst snd] in *.
  assert (HE : (ez <= fexp B64.prec B64.emax (Zdigits2 (Zpos mz) + ez))%Z).
  { cbn [Zdigits2]. rewrite Hd. exact Hl. }
  assert (Hx : (IZR (Zpos mz) * p2 ez <= v <= (IZR (Zpos mz) + 1) * p2 ez)%R).
  { unfold v. rewrite <- Hv. pose proof (p2_pos ez). nra. }
  destruct (@binary_round_aux_error s (Zpos mz) ez loc_Exact v
              ltac:(lia) HE Hx) as [Hfin Herr].
  split; [apply binary_round_aux_valid; [lia | exact HE]|].
  split; assumption.
Qed.

Lemma IZR_cond_Zopp (s : bool) (z : Z) :
  IZR (cond_Zopp s z) = (sgn s * IZR z)%R.
Proof. destruct s; simpl; [rewrite opp_IZR|]; lra. Qed.

(** A result that is exact. *)
Lemma exact_result (r : B64.float) (p : R) :
  B2R r = p ->
  (Rabs (B2R r - p) <= p2 (-52) * Rabs p + p2 (-1074))%R /\
  ((p2 (-1021) <= Rabs p)%R -> (Rabs (B2R r - p) <= p2 (-52) * Rabs p)%R).
Proof.
  intros ->. replace (p - p)%R with 0%R by ring. rewrite Rabs_R0.
  pose proof (p2_pos (-52)). pose proof (p2_pos (-1074)).
  pose proof (Rabs_pos p).
  split; [nra | intros _; nra].
Qed.

Lemma add_error (x y : B64.float) :
  binary64_valid x = true -> binary64_valid y = true ->
  B64.is_finite x = true -> B64.is_finite y = true ->
  let p := (B2R x + B2R y)%R in
  let r := B64.add x y in
  binary64_valid r = true /\
  ((Rabs p < p2 1023)%R -> B64.is_finite r = true) /\
  (B64.is_finite r = true ->
   (Rabs (B2R r - p) <= p2 (-52) * Rabs p + p2 (-1074))%R /\
   ((p2 (-1021) <= Rabs p)%R -> (Rabs (B2R r - p) <= p2 (-52) * Rabs p)%R)).
Proof.
  intros Vx Vy Fx Fy p r.
  destruct x as [sx|sx| |sx mx ex]; try discriminate;
    destruct y as [sy|sy| |sy my ey]; try discriminate.
  - split; [destruct sx, sy; reflexivity|].
    split; [intros _; destruct sx, sy; reflexivity|].
    intros _. apply exact_result. subst p r.
    destruct sx, sy; simpl; ring.
  - split; [exact Vy|]. split; [intros _; reflexivity|].
    intros _. apply exact_result. subst p r. simpl. ring.
  - split; [exact Vx|]. split; [intros _; reflexivity|].
    intros _. apply exact_result. subst p r. simpl. ring.
  - unfold r, B64.add, SFadd. cbn zeta.
    set (ez := Z.min ex ey).
    pose proof (shl_align_value mx ex ez) as Hx.
    pose proof (shl_align_value my ey ez) as Hy.
    rewrite shl_align_snd in Hx by (unfold ez; lia).
    rewrite shl_align_snd in Hy by (unfold ez; lia).
    set (ax := fst (shl_align mx ex ez)) in *.
    set (ay := fst (shl_align my ey ez)) in *.
    remember (cond_Zopp sx (Zpos ax) + cond_Zopp sy (Zpos ay))%Z as M eqn:EM.
    assert (Hp : (IZR M * p2 ez)%R = p).
    { subst M. rewrite plus_IZR, !IZR_cond_Zopp. unfold p. cbn [B2R].
      rewrite <- Hx, <- Hy. ring. }
    pose proof (p2_pos ez) as Pz.
    unfold binary_normalize. destruct M as [|pm|pm].
    + split; [reflexivity|]. split; [intros _; reflexivity|].
      intros _. apply exact_result. rewrite <- Hp. simpl. ring.
    + destruct (binary_round_error false pm ez) as (Hv & Hfin & Herr).
      assert (Hpos : (0 < IZR (Zpos pm) * p2 ez)%R)
        by (apply Rmult_lt_0_compat; [apply IZR_lt; lia | exact Pz]).
      assert (Hap : Rabs p = (IZR (Zpos pm) * p2 ez)%R)
        by (rewrite <- Hp; apply Rabs_pos_eq; lra).
      split; [exact Hv|]. rewrite Hap. split; [exact Hfin|].
      intros Hf. specialize (Herr Hf). cbn [sgn] in Herr.
      replace (1 * (IZR (Zpos pm) * p2 ez))%R with p in Herr
        by (rewrite <- Hp; ring).
      exact Herr.
    + destruct (binary_round_error true pm ez) as (Hv & Hfin & Herr).
      assert (Hpos : (0 < IZR (Zpos pm) * p2 ez)%R)
        by (apply Rmult_lt_0_compat; [apply IZR_lt; lia | exact Pz]).
      assert (Hneg : p = (- (IZR (Zpos pm) * p2 ez))%R).
      { rewrite <- Hp. change (Zneg pm) with (- Zpos pm)%Z.
        rewrite opp_IZR. ring. }
      assert (Hap : Rabs p = (IZR (Zpos pm) * p2 ez)%R)
        by (rewrite Hneg, Rabs_Ropp; apply Rabs_pos_eq; lra).
      split; [exact Hv|]. rewrite Hap. split; [exact Hfin|].
      intros Hf. specialize (Herr Hf). cbn [sgn] in Herr.
      replace (-1 * (IZR (Zpos pm) * p2 ez))%R with p in Herr
        by (rewrite Hneg; ring).
      exact Herr.
Qed.

(** ** The square root *)

Lemma SFsqrt_core_binary_spec (m : positive) (e : Z) :
  exists (q e' : Z) (l : location),
    SFsqrt_core_binary B64.prec B64.emax (Zpos m) e = (q, e', l) /\
    (0 <= q)%Z /\
    (e' <= fexp B64.prec B64.emax (Zdigits2 q + e'))%Z /\
    (IZR q * p2 e' <= sqrt (IZR (Zpos m) * p2 e) <= (IZR q + 1) * p2 e')%R.
Proof.
  unfold SFsqrt_core_binary. cbn [Zdigits2].
  set (d := Zpos (digits2_pos m)) in *.
  set (e' := Z.min (fexp B64.prec B64.emax (Z.div2 (d + e + 1))) (Z.div2 e)).
  assert (He' : (2 * e' <= e)%Z).
  { pose proof (Zdiv2_odd_eqn e). unfold e'. destruct (Z.odd e); lia. }
  assert (Hf' : (e' <= fexp B64.prec B64.emax (Z.div2 (d + e + 1)))%Z)
    by (unfold e'; lia).
  clearbody e'.
  remember (e - 2 * e')%Z as s eqn:Es.
  assert (Hs : (0 <= s)%Z) by lia.
  set (m' := match s with
             | 0%Z => Zpos m
             | Zpos _ => Z.shiftl (Zpos m) s
             | Zneg _ => 0%Z
             end).
  assert (Hm' : m' = (Zpos m * 2 ^ s)%Z).
  { unfold m'. clear Es. destruct s as [|p|p]; try lia.
    apply Z.shiftl_mul_pow2. lia. }
  clearbody m'.
  assert (Hd1 : (1 <= d)%Z) by (unfold d; lia).
  assert (Hlow : (2 ^ (d - 1 + s) <= m')%Z).
  { rewrite Hm', Z.pow_add_r by lia.
    apply Z.mul_le_mono_nonneg_r; [apply Z.pow_nonneg; lia|].
    apply (@Zdigits2_bounds (Zpos m)). lia. }
  assert (Hpos : (0 < m')%Z).
  { apply Z.lt_le_trans with (2 ^ (d - 1 + s))%Z; [|exact Hlow].
    apply Z.pow_pos_nonneg; lia. }
  pose proof (Z.sqrtrem_sqrt m') as Hq.
  destruct (Z.sqrtrem m') as [q r]. cbn [fst] in Hq. subst q.
  pose proof (Z.sqrt_spec m' ltac:(lia)) as Hsq. cbn zeta in Hsq.
  set (q := Z.sqrt m') in *.
  assert (Hq0 : (0 < q)%Z) by (apply Z.sqrt_pos; exact Hpos).
  eexists q, e', _. split; [reflexivity|]. split; [lia|]. split.
  - (* the digits of the root *)
    destruct (Zdigits2_bounds Hq0) as [_ Hu].
    assert (Hdq : (0 <= Zdigits2 q)%Z) by (apply Zdigits2_nonneg; lia).
    assert (H2 : (d - 1 + s < 2 * Zdigits2 q)%Z).
    { apply (Z.pow_lt_mono_r_iff 2); [lia | lia |].
      apply Z.le_lt_trans with m'; [exact Hlow|].
      apply Z.lt_le_trans with (Z.succ q * Z.succ q)%Z; [lia|].
      replace (2 * Zdigits2 q)%Z with (Zdigits2 q + Zdigits2 q)%Z by lia.
      rewrite Z.pow_add_r by lia.
      apply Z.mul_le_mono_nonneg; lia. }
    pose proof (Zdiv2_odd_eqn (d + e + 1)) as Ho.
    assert (Hc : (Z.div2 (d + e + 1) <= Zdigits2 q + e')%Z)
      by (destruct (Z.odd (d + e + 1)); lia).
    rewrite fexp_eq in Hf'. rewrite fexp_eq. lia.
  - (* the value of the root *)
    pose proof (p2_pos e') as Pe.
    assert (Hv : (IZR (Zpos m) * p2 e = IZR m' * (p2 e' * p2 e'))%R).
    { rewrite Hm', mult_IZR, p2_IZR by lia. rewrite <- !p2_add.
      rewrite Rmult_assoc, <- p2_add. f_equal. f_equal. lia. }
    rewrite Hv, sqrt_mult by (first [apply IZR_le; lia | nra]).
    rewrite (sqrt_square (p2 e')) by lra.
    assert (Hl : (IZR q <= sqrt (IZR m'))%R).
    { rewrite <- (sqrt_square (IZR q)) by (apply IZR_le; lia).
      apply sqrt_le_1.
      - rewrite <- mult_IZR. apply IZR_le. nia.
      - apply IZR_le. lia.
      - rewrite <- mult_IZR. apply IZR_le. lia. }
    assert (Hu : (sqrt (IZR m') <= IZR q + 1)%R).
    { rewrite <- (sqrt_square (IZR q + 1))
        by (pose proof (IZR_le 0 q ltac:(lia)); lra).
      apply sqrt_le_1.
      - apply IZR_le. lia.
      - pose proof (IZR_le 0 q ltac:(lia)). nra.
      - rewrite <- plus_IZR, <- mult_IZR. apply IZR_le. lia. }
    split; apply Rmult_le_compat_r; lra.
Qed.

Lemma sqrt_error (x : B64.float) :
  B64.is_finite x = true -> B64.not_negative x ->
  binary64_valid x = true ->
  let q := sqrt (B2R x) in
  let r := B64.sqrt x in
  binary64_valid r = true /\
  ((q < p2 1023)%R -> B64.is_finite r = true) /\
  (B64.is_finite r = true ->
   (Rabs (B2R r - q) <= p2 (-52) * q + p2 (-1074))%R /\
   ((p2 (-1021) <= q)%R -> (Rabs (B2R r - q) <= p2 (-52) * q)%R)).
Proof.
  intros Fx Nx Vx q r.
  destruct x as [sx|sx| |sx mx ex]; try discriminate.
  - split; [reflexivity|]. split; [intros _; reflexivity|]. intros _.
    subst q r. simpl. rewrite sqrt_0, Rminus_0_r, Rabs_R0.
    pose proof (p2_pos (-52)). pose proof (p2_pos (-1074)).
    split; [lra | intros; lra].
  - cbn [B64.not_negative] in Nx. subst sx.
    unfold r, B64.sqrt, SFsqrt.
    destruct (SFsqrt_core_binary_spec mx ex)
      as (mq & e' & l & -> & Hq & HE & Hx).
    assert (Eq : q = sqrt (IZR (Zpos mx) * p2 ex)).
    { unfold q. cbn [B2R sgn]. now rewrite Rmult_1_l. }
    rewrite <- Eq in Hx.
    destruct (@binary_round_aux_error false mq e' l q Hq HE Hx)
      as [Hfin Herr].
    split; [apply binary_round_aux_valid; assumption|].
    split; [exact Hfin|].
    intros Hf. specialize (Herr Hf). cbn [sgn] in Herr.
    rewrite Rmult_1_l in Herr. exact Herr.
Qed.

(** ** Signs and sizes *)

Lemma B2R_lt_max (x : B64.float) :
  binary64_valid x = true -> (Rabs (B2R x) < p2 1024)%R.
Proof.
  intros V. destruct x as [s|s| |s m e];
    try (cbn [B2R]; rewrite Rabs_R0; apply p2_pos).
  destruct (@valid_finite _ _ _ V) as (D & E & _).
  rewrite Rabs_B2R.
  destruct (@IZR_digits_bounds (Zpos m) ltac:(lia)) as [_ U].
  cbn [Zdigits2] in U. pose proof (p2_pos e) as Pe.
  apply Rlt_le_trans with (p2 (Zpos (digits2_pos m)) * p2 e)%R.
  - apply Rmult_lt_compat_r; lra.
  - rewrite <- p2_add. apply p2_le. lia.
Qed.

Lemma not_negative_B2R (x : B64.float) :
  B64.not_negative x -> (0 <= B2R x)%R.
Proof.
  destruct x as [s|s| |s m e]; simpl; intros H; try lra.
  subst s. simpl. rewrite Rmult_1_l.
  apply Rmult_le_pos; [apply IZR_le; lia | left; apply p2_pos].
Qed.

Lemma at_least_one_B2R (x : B64.float) :
  B64.at_least_one x -> B64.is_finite x = true -> (1 <= B2R x)%R.
Proof.
  destruct x as [s|s| |s m e]; cbn [B64.at_least_one B64.is_finite];
    intros H F; try discriminate; try contradiction.
  destruct H as [-> H]. cbn [B2R sgn]. rewrite Rmult_1_l.
  destruct (@IZR_digits_bounds (Zpos m) ltac:(lia)) as [L _].
  cbn [Zdigits2] in L. pose proof (p2_pos e) as Pe.
  apply Rle_trans with (p2 (Zpos (digits2_pos m) - 1) * p2 e)%R.
  - rewrite <- p2_add. apply p2_ge_1. lia.
  - apply Rmult_le_compat_r; lra.
Qed.

(** ** The arithmetic of a normalized vector *)

Lemma eps_val : p2 (-52) = (/ 4503599627370496)%R.
Proof.
  assert (H : (p2 (-52) * p2 52 = 1)%R) by (rewrite <- p2_add; apply p2_0).
  rewrite <- (@p2_IZR 52) in H by lia.
  change (2 ^ 52)%Z with 4503599627370496%Z in H.
  apply Rmult_eq_reg_r with (IZR 4503599627370496); [|lra].
  rewrite H. field.
Qed.

Lemma eta_small : (p2 (-1074) <= p2 (-52) * / 1024)%R.
Proof.
  apply Rle_trans with (p2 (-62)); [apply p2_le; lia|].
  replace (-62)%Z with (-52 + -10)%Z by lia. rewrite p2_add.
  replace (p2 (-10)) with (/ 1024)%R; [lra|].
  assert (H : (p2 (-10) * p2 10 = 1)%R) by (rewrite <- p2_add; apply p2_0).
  rewrite <- (@p2_IZR 10) in H by lia.
  change (2 ^ 10)%Z with 1024%Z in H.
  apply Rmult_eq_reg_r with (IZR 1024); [|lra].
  rewrite H. field.
Qed.

Lemma p2_m48 : p2 (-48) = (16 * p2 (-52))%R.
Proof.
  replace (-48)%Z with (4 + -52)%Z by lia. rewrite p2_add.
  replace (p2 4) with 16%R by (unfold p2; simpl; lra). reflexivity.
Qed.

(** The squared norm [x*x + y*y + 1], summed in binary64. *)
Lemma squared_norm_error (u v s1 s2 s3 S : R) :
  (0 <= u)%R -> (0 <= v)%R -> (0 <= s1)%R -> (0 <= s2)%R -> (0 <= s3)%R ->
  (Rabs (s1 - u) <= p2 (-52) * Rabs u + p2 (-1074))%R ->
  (Rabs (s2 - v) <= p2 (-52) * Rabs v + p2 (-1074))%R ->
  (Rabs (s3 - (s1 + s2)) <= p2 (-52) * Rabs (s1 + s2) + p2 (-1074))%R ->
  (Rabs (S - (s3 + 1)) <= p2 (-52) * Rabs (s3 + 1) + p2 (-1074))%R ->
  ((1 - 4 * p2 (-52)) * (u + v + 1) <= S <= (1 + 4 * p2 (-52)) * (u + v + 1))%R.
Proof.
  intros Hu Hv H1 H2 H3 E1 E2 E3 E4.
  rewrite (Rabs_pos_eq u) in E1 by exact Hu.
  rewrite (Rabs_pos_eq v) in E2 by exact Hv.
  rewrite (Rabs_pos_eq (s1 + s2)) in E3 by lra.
  rewrite (Rabs_pos_eq (s3 + 1)) in E4 by lra.
  apply Rabs_le_inv in E1. apply Rabs_le_inv in E2.
  apply Rabs_le_inv in E3. apply Rabs_le_inv in E4.
  pose proof eta_small as Hh. pose proof (p2_pos (-1074)) as Ph.
  rewrite eps_val in *. set (h := p2 (-1074)) in *. clearbody h.
  split; lra.
Qed.

(** Its square root. *)
Lemma root_error (S N : R) :
  (0 <= S)%R -> (0 <= N)%R ->
  (Rabs (N - sqrt S) <= p2 (-52) * sqrt S)%R ->
  ((1 - p2 (-52)) * (1 - p2 (-52)) * S <= N * N
   <= (1 + p2 (-52)) * (1 + p2 (-52)) * S)%R.
Proof.
  intros HS HN E. apply Rabs_le_inv in E.
  pose proof (sqrt_pos S) as Hr. pose proof (sqrt_sqrt S HS) as Hrr.
  pose proof eps_small as He. pose proof (p2_pos (-52)) as Pe.
  set (e := p2 (-52)) in *. set (r := sqrt S) in *. clearbody e r.
  assert (L : ((1 - e) * r <= N)%R) by lra.
  assert (U : (N <= (1 + e) * r)%R) by lra.
  assert (L0 : (0 <= (1 - e) * r)%R) by (apply Rmult_le_pos; lra).
  split.
  - replace ((1 - e) * (1 - e) * S)%R with (((1 - e) * r) * ((1 - e) * r))%R
      by (rewrite <- Hrr; ring).
    apply Rmult_le_compat; assumption.
  - replace ((1 + e) * (1 + e) * S)%R with (((1 + e) * r) * ((1 + e) * r))%R
      by (rewrite <- Hrr; ring).
    apply Rmult_le_compat; assumption.
Qed.

(** One component, squared. *)
Lemma component_error (a A : R) :
  (A * A <= 2)%R ->
  (Rabs (a - A) <= p2 (-52) * Rabs A + p2 (-1074))%R ->
  (Rabs (a * a - A * A) <= 3 * p2 (-52) * (A * A) + 4 * p2 (-1074))%R.
Proof.
  intros HA E.
  pose proof eta_small as Hh. pose proof (p2_pos (-1074)) as Ph.
  pose proof eps_small as He. pose proof (p2_pos (-52)) as Pe.
  set (e := p2 (-52)) in *. set (h := p2 (-1074)) in *. clearbody e h.
  pose proof (Rabs_pos A) as Pa.
  assert (Haa : (Rabs A * Rabs A = A * A)%R)
    by (rewrite <- Rabs_mult; apply Rabs_pos_eq; nra).
  assert (H2A : (Rabs (2 * A) = 2 * Rabs A)%R)
    by (rewrite Rabs_mult, (Rabs_pos_eq 2) by lra; reflexivity).
  set (al := Rabs A) in *. clearbody al.
  assert (Hal : (al <= 3 / 2)%R) by nra.
  replace (a * a - A * A)%R with ((a - A) * (2 * A + (a - A)))%R by ring.
  rewrite Rabs_mult.
  set (d := (a - A)%R) in *. clearbody d.
  assert (H2 : (Rabs (2 * A + d) <= 2 * al + (e * al + h))%R).
  { eapply Rle_trans; [apply Rabs_triang|]. rewrite H2A. lra. }
  assert (Ht : (0 <= e * al + h)%R) by nra.
  apply Rle_trans with ((e * al + h) * (2 * al + (e * al + h)))%R.
  { apply Rmult_le_compat; try apply Rabs_pos; assumption. }
  assert (Q0 : (0 <= e * (al * al))%R) by nra.
  assert (P1 : (e * (e * (al * al)) <= / 16 * (e * (al * al)))%R)
    by (apply Rmult_le_compat_r; assumption).
  assert (P2 : (al * h <= 3 / 2 * h)%R)
    by (apply Rmult_le_compat_r; lra).
  assert (Q2 : (0 <= al * h)%R) by nra.
  assert (P3 : (e * (al * h) <= / 16 * (al * h))%R)
    by (apply Rmult_le_compat_r; assumption).
  assert (P4 : (h * h <= / 16 * h)%R)
    by (apply Rmult_le_compat_r; lra).
  rewrite <- Haa. nra.
Qed.

(** A vector divided by its length. *)
Lemma normalized_sum (X Y N : R) :
  (0 < N)%R ->
  ((1 - 7 * p2 (-52)) * (X * X + Y * Y + 1) <= N * N
   <= (1 + 7 * p2 (-52)) * (X * X + Y * Y + 1))%R ->
  let Q := (X / N * (X / N) + Y / N * (Y / N) + 1 / N * (1 / N))%R in
  ((1 - 7 * p2 (-52)) * Q <= 1 <= (1 + 7 * p2 (-52)) * Q)%R.
Proof.
  intros HN [L U] Q.
  assert (Hw : (0 < / N)%R) by (apply Rinv_0_lt_compat; exact HN).
  assert (Hww : (0 <= / N * / N)%R) by nra.
  assert (EQ : Q = ((X * X + Y * Y + 1) * (/ N * / N))%R)
    by (unfold Q; field; lra).
  assert (E1 : (N * N * (/ N * / N) = 1)%R) by (field; lra).
  set (R0 := (X * X + Y * Y + 1)%R) in *. clearbody R0.
  rewrite EQ. set (ww := (/ N * / N)%R) in *. clearbody ww. split.
  - apply Rle_trans with (N * N * ww)%R; [|lra].
    rewrite <- Rmult_assoc. apply Rmult_le_compat_r; assumption.
  - apply Rle_trans with (N * N * ww)%R; [lra|].
    rewrite <- Rmult_assoc. apply Rmult_le_compat_r; assumption.
Qed.

Lemma unit_norm_error (A B C a b c : R) :
  ((1 - 7 * p2 (-52)) * (A * A + B * B + C * C) <= 1
   <= (1 + 7 * p2 (-52)) * (A * A + B * B + C * C))%R ->
  (Rabs (a - A) <= p2 (-52) * Rabs A + p2 (-1074))%R ->
  (Rabs (b - B) <= p2 (-52) * Rabs B + p2 (-1074))%R ->
  (Rabs (c - C) <= p2 (-52) * Rabs C + p2 (-1074))%R ->
  (Rabs (a * a + b * b + c * c - 1) <= p2 (-48))%R.
Proof.
  intros [L U] Ea Eb Ec.
  assert (HA : (0 <= A * A)%R) by nra.
  assert (HB : (0 <= B * B)%R) by nra.
  assert (HC : (0 <= C * C)%R) by nra.
  pose proof eta_small as Hh. pose proof (p2_pos (-1074)) as Ph.
  assert (HQ : (A * A + B * B + C * C <= 2)%R)
    by (rewrite eps_val in L; lra).
  pose proof (@component_error a A ltac:(lra) Ea) as Fa.
  pose proof (@component_error b B ltac:(lra) Eb) as Fb.
  pose proof (@component_error c C ltac:(lra) Ec) as Fc.
  apply Rabs_le_inv in Fa. apply Rabs_le_inv in Fb. apply Rabs_le_inv in Fc.
  rewrite p2_m48. rewrite eps_val in *.
  set (h := p2 (-1074)) in *. clearbody h.
  set (a2 := (a * a)%R) in *. set (b2 := (b * b)%R) in *.
  set (c2 := (c * c)%R) in *. set (A2 := (A * A)%R) in *.
  set (B2 := (B * B)%R) in *. set (C2 := (C * C)%R) in *.
  clearbody a2 b2 c2 A2 B2 C2.
  apply Rabs_le. split; lra.
Qed.

Lemma B2R_one : B2R (B64.of_Z 1) = 1%R.
Proof.
  rewrite one_binary64. cbn [B2R sgn]. rewrite eps_val. field.
Qed.

Lemma add_finite_inv (a b : B64.float) :
  B64.is_finite (B64.add a b) = true ->
  B64.is_finite a = true /\ B64.is_finite b = true.
Proof.
  intros H.
  destruct a as [[]|[]| |[] ma ea], b as [[]|[]| |[] mb eb];
    first [split; reflexivity | discriminate H].
Qed.

Lemma mul_finite_inv (a b : B64.float) :
  B64.is_finite (B64.mul a b) = true ->
  B64.is_finite a = true /\ B64.is_finite b = true.
Proof.
  intros H.
  destruct a as [[]|[]| |[] ma ea], b as [[]|[]| |[] mb eb];
    first [split; reflexivity | discriminate H].
Qed.

Lemma at_least_one_not_negative (x : B64.float) :
  B64.at_least_one x -> B64.not_negative x.
Proof.
  destruct x as [s|s| |s m e]; cbn [B64.at_least_one B64.not_negative];
    intros H; try exact I; try contradiction; try exact H.
  exact (proj1 H).
Qed.

(** What [SFdiv] returns is a binary64 number. *)
Lemma div_valid (x y : B64.float) : binary64_valid (B64.div x y) = true.
Proof.
  destruct x as [sx|sx| |sx mx ex], y as [sy|sy| |sy my ey]; try reflexivity.
  unfold B64.div, SFdiv.
  destruct (SFdiv_core_binary_spec mx my ex ey)
    as (q & e' & l & -> & Hq & HE & _).
  now apply binary_round_aux_valid.
Qed.

Lemma positive_component (N c : R) :
  (1 <= N < p2 1024)%R ->
  (Rabs (c - 1 / N) <= p2 (-52) * Rabs (1 / N) + p2 (-1074))%R ->
  (0 < c)%R.
Proof.
  intros [L U] E.
  assert (Hw : (0 < 1 / N)%R) by (apply Rdiv_lt_0_compat; lra).
  rewrite (Rabs_pos_eq (1 / N)) in E by lra.
  apply Rabs_le_inv in E.
  assert (HN : (1 / N * N = 1)%R) by (field; lra).
  pose proof eps_small as He. pose proof (p2_pos (-52)) as Pe.
  pose proof (p2_pos 1024) as PK. pose proof (p2_pos (-1074)) as Ph.
  assert (HK : (p2 (-1074) * p2 1024 <= / 4)%R).
  { rewrite <- p2_add. apply Rle_trans with (p2 (-2)); [apply p2_le; lia|].
    unfold p2. simpl. lra. }
  set (w := (1 / N)%R) in *. clearbody w.
  set (K := p2 1024) in *. set (h := p2 (-1074)) in *.
  set (e := p2 (-52)) in *. clearbody K h e.
  assert (HwK : (1 < w * K)%R).
  { rewrite <- HN. apply Rmult_lt_compat_l; assumption. }
  assert (Hpos : (0 < (w - e * w - h) * K)%R) by nra.
  assert (0 < w - e * w - h)%R; [|lra].
  destruct (Rlt_le_dec 0 (w - e * w - h)) as [H|H]; [exact H|].
  exfalso. assert ((w - e * w - h) * K <= 0)%R; [|lra].
  replace 0%R with (0 * K)%R by ring.
  apply Rmult_le_compat_r; lra.
Qed.

Lemma Rabs_lt_of_sq (A : R) : (A * A <= 2)%R -> (Rabs A < p2 1023)%R.
Proof.
  intros H.
  assert (Haa : (Rabs A * Rabs A = A * A)%R)
    by (rewrite <- Rabs_mult; apply Rabs_pos_eq; nra).
  pose proof (Rabs_pos A).
  apply Rlt_le_trans with 2%R; [nra|].
  rewrite <- p2_1. apply p2_le. lia.
Qed.

(** The ray of [projectPixelTo3dRay]: [(x, y, 1)] divided by its length.
    When the squared norm is finite, the three quotients are finite, the
    sum of their squares is within [2^-48] of 1 and the third one is
    positive. *)
Lemma ray_norm (x y : B64.float) :
  binary64_valid x = true -> binary64_valid y = true ->
  let S := B64.add (B64.add (B64.mul x x) (B64.mul y y)) (B64.of_Z 1) in
  let n := B64.sqrt S in
  let a := B64.div x n in
  let b := B64.div y n in
  let c := B64.div (B64.of_Z 1) n in
  B64.is_finite S = true ->
  B64.is_finite a = true /\ B64.is_finite b = true /\
  B64.is_finite c = true /\
  (Rabs (B2R a * B2R a + B2R b * B2R b + B2R c * B2R c - 1) <= p2 (-48))%R /\
  (0 < B2R c)%R.
Proof.
  intros Vx Vy S n a b c FS.
  set (s1 := B64.mul x x) in *. set (s2 := B64.mul y y) in *.
  set (s3 := B64.add s1 s2) in *.
  destruct (@add_finite_inv _ _ FS) as [F3 _].
  destruct (@add_finite_inv _ _ F3) as [F1 F2].
  destruct (@mul_finite_inv _ _ F1) as [Fx _].
  destruct (@mul_finite_inv _ _ F2) as [Fy _].
  (* the squared norm *)
  pose proof (@mul_error x x Vx Vx Fx Fx) as M1. cbn zeta in M1.
  destruct M1 as (V1 & _ & E1). fold s1 in V1, E1.
  destruct (E1 F1) as [E1' _]. clear E1.
  pose proof (@mul_error y y Vy Vy Fy Fy) as M2. cbn zeta in M2.
  destruct M2 as (V2 & _ & E2). fold s2 in V2, E2.
  destruct (E2 F2) as [E2' _]. clear E2.
  pose proof (@add_error s1 s2 V1 V2 F1 F2) as M3. cbn zeta in M3.
  destruct M3 as (V3 & _ & E3). fold s3 in V3, E3.
  destruct (E3 F3) as [E3' _]. clear E3.
  pose proof (@add_error s3 (B64.of_Z 1) V3 eq_refl F3 eq_refl) as M4.
  cbn zeta in M4. destruct M4 as (VS & _ & E4). fold S in VS, E4.
  destruct (E4 FS) as [E4' _]. clear E4. rewrite B2R_one in E4'.
  assert (N1 : B64.not_negative s1) by apply mul_self_not_negative.
  assert (N2 : B64.not_negative s2) by apply mul_self_not_negative.
  assert (N3 : B64.not_negative s3) by (apply add_not_negative; assumption).
  assert (AS : B64.at_least_one S) by (apply add_one_at_least_one; exact N3).
  pose proof (not_negative_B2R _ N1) as P1.
  pose proof (not_negative_B2R _ N2) as P2.
  pose proof (not_negative_B2R _ N3) as P3.
  pose proof (at_least_one_B2R _ AS FS) as PS.
  set (X := B2R x) in *. set (Y := B2R y) in *.
  assert (HX : (0 <= X * X)%R) by nra.
  assert (HY : (0 <= Y * Y)%R) by nra.
  pose proof (@squared_norm_error _ _ _ _ _ _ HX HY P1 P2 P3 E1' E2' E3' E4')
    as HS.
  (* the length *)
  pose proof (B2R_lt_max _ VS) as US. rewrite Rabs_pos_eq in US by lra.
  assert (Hr1 : (1 <= sqrt (B2R S))%R).
  { rewrite <- sqrt_1. apply sqrt_le_1; lra. }
  assert (Hr2 : (sqrt (B2R S) < p2 1023)%R).
  { apply Rlt_trans with (p2 512); [|apply p2_lt; lia].
    rewrite <- (sqrt_square (p2 512)) by (left; apply p2_pos).
    apply sqrt_lt_1; [lra | rewrite <- p2_add; left; apply p2_pos|].
    rewrite <- p2_add. exact US. }
  pose proof (@sqrt_error S FS (at_least_one_not_negative _ AS) VS) as M5.
  cbn zeta in M5. destruct M5 as (Vn & Fn & En). fold n in Vn, Fn, En.
  specialize (Fn Hr2). destruct (En Fn) as [_ En']. clear En.
  assert (En'' : (Rabs (B2R n - sqrt (B2R S)) <= p2 (-52) * sqrt (B2R S))%R).
  { apply En'. apply Rle_trans with 1%R; [|exact Hr1].
    rewrite <- p2_0. apply p2_le. lia. }
  assert (An : B64.at_least_one n) by (apply sqrt_at_least_one; exact AS).
  pose proof (at_least_one_B2R _ An Fn) as PN.
  pose proof (B2R_lt_max _ Vn) as UN. rewrite Rabs_pos_eq in UN by lra.
  pose proof (@root_error (B2R S) (B2R n) ltac:(lra) ltac:(lra) En'') as HN.
  set (N := B2R n) in *.
  assert (HR : ((1 - 7 * p2 (-52)) * (X * X + Y * Y + 1) <= N * N
                <= (1 + 7 * p2 (-52)) * (X * X + Y * Y + 1))%R).
  { clear - HS HN HX HY. rewrite eps_val in *.
    set (R0 := (X * X + Y * Y + 1)%R) in *.
    assert (1 <= R0)%R by (unfold R0; lra). clearbody R0.
    set (N2 := (N * N)%R) in *. clearbody N2.
    set (S0 := B2R S) in *. clearbody S0. split; lra. }
  (* the components *)
  pose proof (@normalized_sum X Y N ltac:(lra) HR) as HQ. cbn zeta in HQ.
  assert (Q2 : (X / N * (X / N) + Y / N * (Y / N) + 1 / N * (1 / N) <= 2)%R)
    by (destruct HQ as [L _]; rewrite eps_val in L; lra).
  assert (QA : (0 <= X / N * (X / N))%R) by nra.
  assert (QB : (0 <= Y / N * (Y / N))%R) by nra.
  assert (QC : (0 <= 1 / N * (1 / N))%R) by nra.
  assert (N0 : N <> 0%R) by lra.
  pose proof (@div_error x n Fx Fn N0) as Da. cbn zeta in Da.
  destruct Da as (_ & Fa & Ea). fold a X N in Fa, Ea.
  specialize (Fa (@Rabs_lt_of_sq (X / N) ltac:(lra))).
  destruct (Ea Fa) as [Ea' _]. clear Ea.
  pose proof (@div_error y n Fy Fn N0) as Db. cbn zeta in Db.
  destruct Db as (_ & Fb & Eb). fold b Y N in Fb, Eb.
  specialize (Fb (@Rabs_lt_of_sq (Y / N) ltac:(lra))).
  destruct (Eb Fb) as [Eb' _]. clear Eb.
  pose proof (@div_error (B64.of_Z 1) n eq_refl Fn N0) as Dc. cbn zeta in Dc.
  destruct Dc as (_ & Fc & Ec). fold c N in Fc, Ec. rewrite B2R_one in Fc, Ec.
  specialize (Fc (@Rabs_lt_of_sq (1 / N) ltac:(lra))).
  destruct (Ec Fc) as [Ec' _]. clear Ec.
  split; [exact Fa|]. split; [exact Fb|]. split; [exact Fc|]. split.
  - exact (@unit_norm_error _ _ _ _ _ _ HQ Ea' Eb' Ec').
  - exact (@positive_component N (B2R c) (conj PN UN) Ec').
Qed.

(** ** Sizes along a computation *)

Lemma bounded_by_spec (k : Z) (x : B64.float) :
  bounded_by k x = true ->
  binary64_valid x = true /\ B64.is_finite x = true /\
  (Rabs (B2R x) <= p2 k)%R.
Proof.
  unfold bounded_by. intros H.
  apply andb_prop in H. destruct H as [H Hm].
  apply andb_prop in H. destruct H as [V F].
  apply Z.leb_le in Hm.
  split; [exact V|]. split; [exact F|].
  destruct x as [s|s| |s m e]; try discriminate F;
    try (cbn [B2R]; rewrite Rabs_R0; left; apply p2_pos).
  rewrite Rabs_B2R. cbn [mag] in Hm.
  destruct (@IZR_digits_bounds (Zpos m) ltac:(lia)) as [_ U].
  cbn [Zdigits2] in U. pose proof (p2_pos e) as Pe.
  apply Rle_trans with (p2 (Zpos (digits2_pos m)) * p2 e)%R.
  - apply Rmult_le_compat_r; lra.
  - rewrite <- p2_add. apply p2_le. lia.
Qed.

(** A rounded result is at most twice the size of the exact one. *)
Lemma rounded_size (k : Z) (r p : R) :
  (-1000 <= k)%Z -> (Rabs p <= p2 k)%R ->
  (Rabs (r - p) <= p2 (-52) * Rabs p + p2 (-1074))%R ->
  (Rabs r <= p2 (k + 1))%R.
Proof.
  intros Hk Hp E.
  assert (Ht : (Rabs r <= Rabs p + Rabs (r - p))%R).
  { replace r with (p + (r - p))%R at 1 by ring. apply Rabs_triang. }
  assert (Hh : (p2 (-1074) <= p2 k * / 2)%R).
  { apply Rle_trans with (p2 (k + -1)); [apply p2_le; lia|].
    rewrite p2_add. replace (p2 (-1)) with (/ 2)%R; [lra|].
    unfold p2. simpl. lra. }
  rewrite p2_add, p2_1.
  pose proof eps_small. pose proof (p2_pos (-52)). pose proof (p2_pos k).
  pose proof (Rabs_pos p).
  assert (p2 (-52) * Rabs p <= / 16 * p2 k)%R.
  { apply Rmult_le_compat; lra. }
  lra.
Qed.

Lemma sub_as_add (x y : B64.float) : B64.sub x y = B64.add x (SFopp y).
Proof.
  destruct x as [[]|[]| |sx mx ex], y as [[]|[]| |sy my ey]; try reflexivity.
  unfold B64.sub, B64.add, SFsub, SFadd, SFopp. cbn zeta. f_equal.
  destruct sy; cbn [cond_Zopp negb]; lia.
Qed.

Lemma valid_opp (x : B64.float) : binary64_valid (SFopp x) = binary64_valid x.
Proof. destruct x; reflexivity. Qed.

Lemma finite_opp (x : B64.float) : B64.is_finite (SFopp x) = B64.is_finite x.
Proof. destruct x; reflexivity. Qed.

Lemma sub_size (k : Z) (x y : B64.float) :
  binary64_valid x = true -> binary64_valid y = true ->
  B64.is_finite x = true -> B64.is_finite y = true ->
  (-1000 <= k <= 1022)%Z ->
  (Rabs (B2R x - B2R y) <= p2 k)%R ->
  binary64_valid (B64.sub x y) = true /\
  B64.is_finite (B64.sub x y) = true /\
  (Rabs (B2R (B64.sub x y)) <= p2 (k + 1))%R.
Proof.
  intros Vx Vy Fx Fy Hk Hp. rewrite sub_as_add.
  rewrite <- valid_opp in Vy. rewrite <- finite_opp in Fy.
  pose proof (@add_error x (SFopp y) Vx Vy Fx Fy) as H. cbn zeta in H.
  rewrite B2R_opp in H.
  replace (B2R x + - B2R y)%R with (B2R x - B2R y)%R in H by ring.
  destruct H as (V & F & E). split; [exact V|].
  assert (Fr : B64.is_finite (B64.add x (SFopp y)) = true).
  { apply F. eapply Rle_lt_trans; [exact Hp|]. apply p2_lt. lia. }
  split; [exact Fr|].
  destruct (E Fr) as [E' _].
  exact (@rounded_size k _ _ ltac:(lia) Hp E').
Qed.

Lemma add_size (k : Z) (x y : B64.float) :
  binary64_valid x = true -> binary64_valid y = true ->
  B64.is_finite x = true -> B64.is_finite y = true ->
  (-1000 <= k <= 1022)%Z ->
  (Rabs (B2R x + B2R y) <= p2 k)%R ->
  binary64_valid (B64.add x y) = true /\
  B64.is_finite (B64.add x y) = true /\
  (Rabs (B2R (B64.add x y)) <= p2 (k + 1))%R.
Proof.
  intros Vx Vy Fx Fy Hk Hp.
  pose proof (@add_error x y Vx Vy Fx Fy) as H. cbn zeta in H.
  destruct H as (V & F & E). split; [exact V|].
  assert (Fr : B64.is_finite (B64.add x y) = true).
  { apply F. eapply Rle_lt_trans; [exact Hp|]. apply p2_lt. lia. }
  split; [exact Fr|].
  destruct (E Fr) as [E' _].
  exact (@rounded_size k _ _ ltac:(lia) Hp E').
Qed.

Lemma mul_size (k : Z) (x y : B64.float) :
  binary64_valid x = true -> binary64_valid y = true ->
  B64.is_finite x = true -> B64.is_finite y = true ->
  (-1000 <= k <= 1022)%Z ->
  (Rabs (B2R x * B2R y) <= p2 k)%R ->
  binary64_valid (B64.mul x y) = true /\
  B64.is_finite (B64.mul x y) = true /\
  (Rabs (B2R (B64.mul x y)) <= p2 (k + 1))%R.
Proof.
  intros Vx Vy Fx Fy Hk Hp.
  pose proof (@mul_error x y Vx Vy Fx Fy) as H. cbn zeta in H.
  destruct H as (V & F & E). split; [exact V|].
  assert (Fr : B64.is_finite (B64.mul x y) = true).
  { apply F. eapply Rle_lt_trans; [exact Hp|]. apply p2_lt. lia. }
  split; [exact Fr|].
  destruct (E Fr) as [E' _].
  exact (@rounded_size k _ _ ltac:(lia) Hp E').
Qed.

Lemma div_size (k : Z) (x y : B64.float) :
  B64.is_finite x = true -> B64.is_finite y = true ->
  B2R y <> 0%R ->
  (-1000 <= k <= 1022)%Z ->
  (Rabs (B2R x / B2R y) <= p2 k)%R ->
  B64.is_finite (B64.div x y) = true /\
  (Rabs (B2R (B64.div x y)) <= p2 (k + 1))%R.
Proof.
  intros Fx Fy Ny Hk Hp.
  pose proof (@div_error x y Fx Fy Ny) as H. cbn zeta in H.
  destruct H as (_ & F & E).
  assert (Fr : B64.is_finite (B64.div x y) = true).
  { apply F. eapply Rle_lt_trans; [exact Hp|]. apply p2_lt. lia. }
  split; [exact Fr|].
  destruct (E Fr) as [E' _].
  exact (@rounded_size k _ _ ltac:(lia) Hp E').
Qed.

(** The coordinate [(u - c) / f] of [projectPixelTo3dRay], for a pixel and
    a principal point below [2^250] and a focal length of at least
    [2^-250]. *)
Lemma coordinate_size (u c f : B64.float) :
  bounded_by 250 u = true -> bounded_by 250 c = true ->
  in_range 250 f = true ->
  B64.is_finite (B64.div (B64.sub u c) f) = true /\
  (Rabs (B2R (B64.div (B64.sub u c) f)) <= p2 503)%R.
Proof.
  intros Hu Hc Hf.
  destruct (bounded_by_spec _ _ Hu) as (Vu & Fu & Bu).
  destruct (bounded_by_spec _ _ Hc) as (Vc & Fc & Bc).
  destruct (in_range_spec _ _ Hf) as (Ff & Vf & Wf).
  pose proof (within_nonzero Wf) as Nf.
  assert (Hd : (Rabs (B2R u - B2R c) <= p2 251)%R).
  { replace 251%Z with (250 + 1)%Z by lia. rewrite p2_add, p2_1.
    eapply Rle_trans; [apply Rabs_triang|]. rewrite Rabs_Ropp. lra. }
  destruct (@sub_size 251 u c Vu Vc Fu Fc ltac:(lia) Hd) as (Vt & Ft & Bt).
  change (251 + 1)%Z with 252%Z in Bt.
  assert (Hq : (Rabs (B2R (B64.sub u c) / B2R f) <= p2 502)%R).
  { unfold Rdiv. rewrite Rabs_mult.
    destruct (within_inv Wf) as [_ Ui].
    replace 502%Z with (252 + 250)%Z by lia. rewrite p2_add.
    apply Rmult_le_compat; try apply Rabs_pos; assumption. }
  exact (@div_size 502 _ _ Ft Ff Nf ltac:(lia) Hq).
Qed.

(** With such coordinates the squared norm does not overflow. *)
Lemma squared_norm_finite (x y : B64.float) :
  binary64_valid x = true -> binary64_valid y = true ->
  B64.is_finite x = true -> B64.is_finite y = true ->
  (Rabs (B2R x) <= p2 503)%R -> (Rabs (B2R y) <= p2 503)%R ->
  B64.is_finite
    (B64.add (B64.add (B64.mul x x) (B64.mul y y)) (B64.of_Z 1)) = true.
Proof.
  intros Vx Vy Fx Fy Bx By.
  assert (Sq : forall z : R, (Rabs z <= p2 503)%R ->
                             (Rabs (z * z) <= p2 1006)%R).
  { intros z Hz. rewrite Rabs_mult.
    replace 1006%Z with (503 + 503)%Z by lia. rewrite p2_add.
    apply Rmult_le_compat; try apply Rabs_pos; assumption. }
  destruct (@mul_size 1006 x x Vx Vx Fx Fx ltac:(lia) (Sq _ Bx))
    as (V1 & F1 & B1).
  destruct (@mul_size 1006 y y Vy Vy Fy Fy ltac:(lia) (Sq _ By))
    as (V2 & F2 & B2).
  change (1006 + 1)%Z with 1007%Z in B1, B2.
  assert (H3 : (Rabs (B2R (B64.mul x x) + B2R (B64.mul y y)) <= p2 1008)%R).
  { replace 1008%Z with (1007 + 1)%Z by lia. rewrite p2_add, p2_1.
    eapply Rle_trans; [apply Rabs_triang|]. lra. }
  destruct (@add_size 1008 _ _ V1 V2 F1 F2 ltac:(lia) H3) as (V3 & F3 & B3).
  change (1008 + 1)%Z with 1009%Z in B3.
  assert (H4 : (Rabs (B2R (B64.add (B64.mul x x) (B64.mul y y))
                      + B2R (B64.of_Z 1)) <= p2 1010)%R).
  { replace 1010%Z with (1009 + 1)%Z by lia. rewrite p2_add, p2_1.
    eapply Rle_trans; [apply Rabs_triang|].
    rewrite B2R_one, Rabs_R1.
    pose proof (@p2_ge_1 1009 ltac:(lia)). lra. }
  exact (proj1 (proj2 (@add_size 1010 _ (B64.of_Z 1) V3 eq_refl F3 eq_refl
                         ltac:(lia) H4))).
Qed.

(** When the squared norm is infinite or NaN, the third component of the
    ray is a zero or NaN. *)
Lemma ray_overflow (S : B64.float) :
  B64.at_least_one S -> B64.is_finite S = false ->
  @fltb _ binary64 (of_int 0) (B64.div (B64.of_Z 1) (B64.sqrt S)) = false.
Proof.
  destruct S as [s|s| |s m e]; cbn [B64.at_least_one B64.is_finite];
    intros H F; try discriminate F; try contradiction.
  - subst s. vm_compute. reflexivity.
  - vm_compute. reflexivity.
Qed.

(* ===================================================================== *)
(** * fromCameraInfo computes the calibration of the specification *)
(* ===================================================================== *)

Ltac list_of_length l H :=
  repeat (destruct l as [|? l]; [discriminate H|]);
  destruct l; [|discriminate H].

Section Calibration.
Context {T : Type} {F : PyFloat T}.
Hypothesis of_int_nonzero :
  forall n : Z, (1 <= n < 2 ^ 32)%Z -> feqb (of_int n) (of_int 0) = false.

Lemma valid_ranges (msg : CameraInfo.t T) :
  CameraInfo.valid msg = true ->
  List.length (CameraInfo.K msg) = 9 /\ List.length (CameraInfo.R msg) = 9 /\
  List.length (CameraInfo.P msg) = 12 /\
  (1 <= Z.max 1 (CameraInfo.binning_x msg) < 2 ^ 32)%Z /\
  (1 <= Z.max 1 (CameraInfo.binning_y msg) < 2 ^ 32)%Z.
Proof.
  unfold CameraInfo.valid, CameraInfo.uint32. intros H.
  repeat (apply andb_prop in H; destruct H as [H ?]).
  repeat match goal with
         | H : (_ =? _) = true |- _ => apply Nat.eqb_eq in H
         | H : (_ <=? _)%Z = true |- _ => apply Z.leb_le in H
         | H : (_ <? _)%Z = true |- _ => apply Z.ltb_lt in H
         end.
  repeat split; try assumption; lia.
Qed.

(** [fromCameraInfo] returns, and the model it leaves is the calibration of
    the message whatever the model held before. *)
Lemma fromCameraInfo_calibration (msg : CameraInfo.t T)
      (s0 : PinholeCameraModel.t T) :
  CameraInfo.valid msg = true ->
  PinholeCameraModel.fromCameraInfo msg s0 = (Ok tt, calibration msg).
Proof.
  intros Hv. destruct (valid_ranges msg Hv) as (HK & _ & HP & Hbx & Hby).
  clear Hv.
  destruct msg as [hdr h w D0 K0 R0 P0 bx by_ roi].
  cbn [CameraInfo.K CameraInfo.P CameraInfo.binning_x CameraInfo.binning_y]
    in *.
  list_of_length K0 HK. list_of_length P0 HP.
  pose proof (@of_int_nonzero _ Hbx) as Dx.
  pose proof (@of_int_nonzero _ Hby) as Dy.
  unfold calibration, PinholeCameraModel.fromCameraInfo.
  cbn [CameraInfo.K CameraInfo.P CameraInfo.binning_x CameraInfo.binning_y
       CameraInfo.roi CameraInfo.D CameraInfo.R CameraInfo.width
       CameraInfo.height CameraInfo.header].
  revert Dx Dy. generalize (Z.max 1 bx) as b1. generalize (Z.max 1 by_) as b2.
  intros b2 b1 Dx Dy.
  destruct roi as [xo yo rh rw].
  vm_compute in Dx, Dy.
  destruct D0 as [|d0 D0];
    (destruct xo; [destruct yo; [destruct rw; [destruct rh|..] |..] |..]);
    do 8 (vm_compute; rewrite ?Dx, ?Dy); vm_compute; reflexivity.
Qed.

(** Reading the adjusted matrices entry by entry. *)
Lemma adjusted_K_entries (msg : CameraInfo.t T) (i j : nat) :
  List.length (CameraInfo.K msg) = 9 ->
  forall bx by_ xo yo,
  mat_get (mkmat 3 3 (adjusted (CameraInfo.K msg) 3 bx by_ xo yo)) i j
  = adjusted_entry (mkmat 3 3 (CameraInfo.K msg)) bx by_ xo yo i j.
Proof.
  intros HK bx by_ xo yo. destruct msg as [hdr h w D0 K0 R0 P0 bx' by' roi].
  cbn [CameraInfo.K] in *. list_of_length K0 HK.
  destruct i as [|[|[|i]]]; destruct j as [|[|[|j]]]; reflexivity.
Qed.

Lemma adjusted_P_entries (msg : CameraInfo.t T) (i j : nat) :
  List.length (CameraInfo.P msg) = 12 ->
  forall bx by_ xo yo,
  mat_get (mkmat 3 4 (adjusted (CameraInfo.P msg) 4 bx by_ xo yo)) i j
  = adjusted_entry (mkmat 3 4 (CameraInfo.P msg)) bx by_ xo yo i j.
Proof.
  intros HP bx by_ xo yo. destruct msg as [hdr h w D0 K0 R0 P0 bx' by' roi].
  cbn [CameraInfo.P] in *. list_of_length P0 HP.
  destruct i as [|[|[|i]]]; destruct j as [|[|[|[|j]]]]; reflexivity.
Qed.

(** The projection matrix of a calibrated model is a 3x4 matrix. *)
Lemma calibrated_P (s : PinholeCameraModel.t T) :
  calibrated s ->
  exists p00 p01 p02 p03 p10 p11 p12 p13 p20 p21 p22 p23,
    PinholeCameraModel.P s
    = Some (mkmat 3 4 [p00; p01; p02; p03; p10; p11; p12; p13;
                       p20; p21; p22; p23]).
Proof.
  intros (msg & s0 & Hv & Hs).
  rewrite (fromCameraInfo_calibration _ _ Hv) in Hs. injection Hs as <-.
  destruct (valid_ranges msg Hv) as (_ & _ & HP & _).
  destruct msg as [hdr h w D0 K0 R0 P0 bx by_ roi].
  cbn [CameraInfo.P] in HP. list_of_length P0 HP.
  unfold calibration. cbn. repeat eexists.
Qed.
End Calibration.

Section Projection.
Context {T : Type} {F : PyFloat T}.

Lemma bind_ok {S A B} (m : M S A) (f : A -> M S B) s a s' :
  m s = (Ok a, s') -> bind m f s = f a s'.
Proof. intros H. unfold bind. now rewrite H. Qed.

(** The monocular projection on a model whose [P] is a 3x4 matrix. *)
Lemma project3dToPixel_3x4 (s : PinholeCameraModel.t T) (Pm : CvMat T)
      (x y z : T) :
  PinholeCameraModel.P s = Some Pm ->
  rows Pm = 3 -> cols Pm = 4 -> List.length (data Pm) = 12 ->
  let src := mkmat 4 1 [x; y; z; of_int 1] in
  let X := MatMul_entry Pm src 0 0 in
  let Y := MatMul_entry Pm src 1 0 in
  let W := MatMul_entry Pm src 2 0 in
  MatMul Pm src = Ok (mkmat 3 1 [X; Y; W]) /\
  PinholeCameraModel.project3dToPixel (x, y, z) s
  = (Ok (if py_ne0 W then (fdiv X W, fdiv Y W) else (fnan, fnan)), s).
Proof.
  intros HP Hr Hc Hl src X Y W.
  assert (HM : MatMul Pm src = Ok (mkmat 3 1 [X; Y; W])).
  { unfold MatMul. rewrite Hr, Hc, Hl. reflexivity. }
  split; [exact HM|].
  unfold PinholeCameraModel.project3dToPixel.
  rewrite (@bind_ok _ _ _ _ _ _ (Pm) s) by (unfold attr; now rewrite HP).
  fold src. unfold lift at 1.
  rewrite (@bind_ok _ _ _ _ _ _ (mkmat 3 1 [X; Y; W]) s) by now rewrite HM.
  unfold bind, lift, ret, py_ne0, py_div. cbn [mat_get mkmat rows cols data
    Nat.ltb Nat.leb andb nth_error Nat.mul Nat.add].
  destruct (feqb W (of_int 0)); reflexivity.
Qed.

(** The stereo triangulation on a model whose [Q] is a 4x4 matrix. *)
Lemma projectPixelTo3d_4x4 (s : StereoCameraModel.t T) (Qm : CvMat T)
      (u v d : T) :
  StereoCameraModel.Q s = Some Qm ->
  rows Qm = 4 -> cols Qm = 4 -> List.length (data Qm) = 16 ->
  let src := mkmat 4 1 [u; v; d; of_int 1] in
  let X := MatMul_entry Qm src 0 0 in
  let Y := MatMul_entry Qm src 1 0 in
  let Z := MatMul_entry Qm src 2 0 in
  let W := MatMul_entry Qm src 3 0 in
  MatMul Qm src = Ok (mkmat 4 1 [X; Y; Z; W]) /\
  StereoCameraModel.projectPixelTo3d (u, v) d s
  = (Ok (if py_ne0 W then (fdiv X W, fdiv Y W, fdiv Z W)
         else (of_int 0, of_int 0, of_int 0)), s).
Proof.
  intros HQ Hr Hc Hl src X Y Z W.
  assert (HM : MatMul Qm src = Ok (mkmat 4 1 [X; Y; Z; W])).
  { unfold MatMul. rewrite Hr, Hc, Hl. reflexivity. }
  split; [exact HM|].
  unfold StereoCameraModel.projectPixelTo3d.
  rewrite (@bind_ok _ _ _ _ _ _ (Qm) s)
    by (unfold StereoCameraModel.attr_Q; now rewrite HQ).
  fold src. unfold lift at 1.
  rewrite (@bind_ok _ _ _ _ _ _ (mkmat 4 1 [X; Y; Z; W]) s) by now rewrite HM.
  unfold bind, lift, ret, py_ne0, py_div. cbn [mat_get mkmat rows cols data
    Nat.ltb Nat.leb andb nth_error Nat.mul Nat.add].
  destruct (feqb W (of_int 0)); reflexivity.
Qed.
End Projection.

Section StereoCalibration.
Context {T : Type} {F : PyFloat T}.
Hypothesis of_int_nonzero :
  forall n : Z, (1 <= n < 2 ^ 32)%Z -> feqb (of_int n) (of_int 0) = false.

(** What the stereo [fromCameraInfo] does, case by case: both cameras are
    calibrated first; the quotient [-P[0,3] / fx] and then the quotient
    [1 / tx] raise on a zero divisor, the second one after [Q] has been
    created and filled up to [Q[2,3]]. *)
Lemma stereo_fromCameraInfo_cases (left_msg right_msg : CameraInfo.t T)
      (s0 : StereoCameraModel.t T)
      (p00 p01 p02 p03 p10 p11 p12 p13 p20 p21 p22 p23 : T) :
  CameraInfo.valid left_msg = true ->
  CameraInfo.valid right_msg = true ->
  PinholeCameraModel.P (calibration right_msg)
  = Some (mkmat 3 4 [p00; p01; p02; p03; p10; p11; p12; p13;
                     p20; p21; p22; p23]) ->
  let tx := fdiv (fneg p03) p00 in
  let base := {| StereoCameraModel.left := calibration left_msg;
                 StereoCameraModel.right := calibration right_msg;
                 StereoCameraModel.Q := StereoCameraModel.Q s0 |} in
  StereoCameraModel.fromCameraInfo left_msg right_msg s0
  = if feqb p00 (of_int 0) then (Raise ZeroDivisionError, base)
    else if feqb tx (of_int 0) then
      (Raise ZeroDivisionError,
       StereoCameraModel.set_Q (Some (Q_matrix p00 p02 p12 (of_int 0))) base)
    else
      (Ok tt,
       StereoCameraModel.set_Q
         (Some (Q_matrix p00 p02 p12 (fdiv (of_int 1) tx))) base).
Proof.
  intros Hl Hr HP tx base.
  unfold StereoCameraModel.fromCameraInfo.
  rewrite (@bind_ok _ _ _ _ _ _ tt
             (StereoCameraModel.set_left (calibration left_msg) s0)).
  2:{ unfold StereoCameraModel.on_left.
      now rewrite (fromCameraInfo_calibration of_int_nonzero _ _ Hl). }
  rewrite (@bind_ok _ _ _ _ _ _ tt base).
  2:{ unfold StereoCameraModel.on_right.
      cbn [StereoCameraModel.right StereoCameraModel.set_left].
      now rewrite (fromCameraInfo_calibration of_int_nonzero _ _ Hr). }
  subst base tx. revert HP.
  generalize (calibration right_msg) as c. generalize (calibration left_msg) as l.
  intros l c HP. destruct c as [cK cD cR cP cfK cfP cw ch cbx cby croi ctf cst].
  cbn [PinholeCameraModel.P] in HP. subst cP.
  unfold bind, StereoCameraModel.on_right, PinholeCameraModel.load_P, bind,
    attr, lift, modify, StereoCameraModel.store_Q, StereoCameraModel.attr_Q,
    py_div.
  cbn -[feqb fdiv fneg of_int].
  destruct (feqb p00 (of_int 0)); [reflexivity|].
  cbn -[feqb fdiv fneg of_int].
  destruct (feqb (fdiv (fneg p03) p00) (of_int 0)); reflexivity.
Qed.

(** The reprojection matrix of a calibrated stereo model is a 4x4 matrix,
    and the right projection matrix a 3x4 one. *)
Lemma stereo_calibrated_shape (s : StereoCameraModel.t T) :
  stereo_calibrated s ->
  (exists Qm, StereoCameraModel.Q s = Some Qm /\
              rows Qm = 4 /\ cols Qm = 4 /\ List.length (data Qm) = 16) /\
  calibrated (StereoCameraModel.left s) /\
  calibrated (StereoCameraModel.right s).
Proof.
  intros (lm & rm & s0 & Hl & Hr & Hs).
  assert (Hc : calibrated (calibration rm)).
  { exists rm, PinholeCameraModel.init. split; [exact Hr|].
    now apply fromCameraInfo_calibration. }
  destruct (calibrated_P of_int_nonzero Hc)
    as (p00 & p01 & p02 & p03 & p10 & p11 & p12 & p13 & p20 & p21 & p22 & p23
        & HP).
  rewrite (@stereo_fromCameraInfo_cases lm rm s0 _ _ _ _ _ _ _ _ _ _ _ _ Hl Hr HP)
    in Hs.
  destruct (feqb p00 (of_int 0)); [discriminate Hs|].
  destruct (feqb _ (of_int 0)); [discriminate Hs|].
  injection Hs as <-. cbn. repeat split.
  - eexists. repeat split.
  - exists lm, PinholeCameraModel.init. split; [exact Hl|].
    now apply fromCameraInfo_calibration.
  - exact Hc.
Qed.
End StereoCalibration.

(* ===================================================================== *)
(** * Calibration *)
(* ===================================================================== *)

Lemma effective_roi_offsets {T} (msg : CameraInfo.t T) :
  RegionOfInterest.x_offset (effective_roi msg)
  = RegionOfInterest.x_offset (CameraInfo.roi msg) /\
  RegionOfInterest.y_offset (effective_roi msg)
  = RegionOfInterest.y_offset (CameraInfo.roi msg).
Proof.
  unfold effective_roi, PinholeCameraModel.roi_is_zero.
  destruct (CameraInfo.roi msg) as [xo yo rh rw]. cbn.
  destruct (Z.eqb_spec xo 0); [|now split].
  destruct (Z.eqb_spec yo 0); [|now split].
  destruct (_ && _); cbn; split; congruence.
Qed.

Lemma calibration_full_roi {T} {F : PyFloat T} (msg : CameraInfo.t T) :
  PinholeCameraModel.roi_is_zero (CameraInfo.roi msg) = true ->
  calibration
    (with_roi msg {| RegionOfInterest.x_offset := 0;
                     RegionOfInterest.y_offset := 0;
                     RegionOfInterest.height := CameraInfo.height msg;
                     RegionOfInterest.width := CameraInfo.width msg |})
  = calibration msg.
Proof.
  intros Hz. unfold calibration, effective_roi. rewrite Hz.
  destruct msg as [hdr h w D0 K0 R0 P0 bx by_ [xo yo rh rw]].
  unfold PinholeCameraModel.roi_is_zero in Hz. cbn in Hz.
  repeat (apply andb_prop in Hz; destruct Hz as [Hz ?]).
  repeat match goal with
         | H : (_ =? _)%Z = true |- _ => apply Z.eqb_eq in H; subst
         end.
  cbn. destruct (PinholeCameraModel.roi_is_zero _); reflexivity.
Qed.

Lemma valid_with_full_roi {T} (msg : CameraInfo.t T) :
  CameraInfo.valid msg = true ->
  CameraInfo.valid
    (with_roi msg {| RegionOfInterest.x_offset := 0;
                     RegionOfInterest.y_offset := 0;
                     RegionOfInterest.height := CameraInfo.height msg;
                     RegionOfInterest.width := CameraInfo.width msg |})
  = true.
Proof.
  unfold CameraInfo.valid. intros H.
  repeat (apply andb_prop in H; destruct H as [H ?]).
  cbn -[CameraInfo.uint32].
  repeat match goal with E : _ = true |- _ => rewrite E; clear E end.
  reflexivity.
Qed.

(** C1. On every message of the message type [fromCameraInfo] returns;
    it leaves [binning_x = max(1, msg.binning_x)] and
    [binning_y = max(1, msg.binning_y)], the ROI of the message with the
    all-zero ROI replaced by [(0, 0, width, height)], and [K] and [P] equal
    to the raw matrices except that entries [(0,0)] and [(1,1)] are divided
    by the binning factors and entries [(0,2)] and [(1,2)] are shifted by
    the ROI offsets and divided.  A message whose ROI is all zero gives the
    same model as the message with the ROI [(0, 0, width, height)]. *)
Theorem C1_fromCameraInfo_binning_roi :
  forall (msg : CameraInfo.t B64.float) (s0 : PinholeCameraModel.t B64.float),
    CameraInfo.valid msg = true ->
    exists s K' P',
      PinholeCameraModel.fromCameraInfo msg s0 = (Ok tt, s) /\
      PinholeCameraModel.binning_x s
      = Some (Z.max 1 (CameraInfo.binning_x msg)) /\
      PinholeCameraModel.binning_y s
      = Some (Z.max 1 (CameraInfo.binning_y msg)) /\
      PinholeCameraModel.raw_roi s
      = Some (if PinholeCameraModel.roi_is_zero (CameraInfo.roi msg)
              then {| RegionOfInterest.x_offset := 0;
                      RegionOfInterest.y_offset := 0;
                      RegionOfInterest.height := CameraInfo.height msg;
                      RegionOfInterest.width := CameraInfo.width msg |}
              else CameraInfo.roi msg) /\
      PinholeCameraModel.full_K s = Some (mkmat 3 3 (CameraInfo.K msg)) /\
      PinholeCameraModel.full_P s = Some (mkmat 3 4 (CameraInfo.P msg)) /\
      PinholeCameraModel.K s = Some K' /\
      PinholeCameraModel.P s = Some P' /\
      (forall i j,
          mat_get K' i j
          = adjusted_entry (mkmat 3 3 (CameraInfo.K msg))
              (Z.max 1 (CameraInfo.binning_x msg))
              (Z.max 1 (CameraInfo.binning_y msg))
              (RegionOfInterest.x_offset (effective_roi msg))
              (RegionOfInterest.y_offset (effective_roi msg)) i j) /\
      (forall i j,
          mat_get P' i j
          = adjusted_entry (mkmat 3 4 (CameraInfo.P msg))
              (Z.max 1 (CameraInfo.binning_x msg))
              (Z.max 1 (CameraInfo.binning_y msg))
              (RegionOfInterest.x_offset (effective_roi msg))
              (RegionOfInterest.y_offset (effective_roi msg)) i j) /\
      (PinholeCameraModel.roi_is_zero (CameraInfo.roi msg) = true ->
       PinholeCameraModel.fromCameraInfo
         (with_roi msg {| RegionOfInterest.x_offset := 0;
                          RegionOfInterest.y_offset := 0;
                          RegionOfInterest.height := CameraInfo.height msg;
                          RegionOfInterest.width := CameraInfo.width msg |})
         s0
       = (Ok tt, s)).
Proof.
  intros msg s0 Hv.
  destruct (valid_ranges msg Hv) as (HK & _ & HP & _).
  destruct (effective_roi_offsets msg) as [-> ->].
  eexists (calibration msg), _, _.
  split; [now apply fromCameraInfo_calibration, Hv;
          apply of_int_nonzero_binary64|].
  repeat (split; [reflexivity|]).
  split; [|split].
  - intros i j. now apply adjusted_K_entries.
  - intros i j. now apply adjusted_P_entries.
  - intros Hz. rewrite <- (calibration_full_roi msg Hz).
    apply fromCameraInfo_calibration.
    + apply of_int_nonzero_binary64.
    + now apply valid_with_full_roi.
Qed.

Lemma C1_fromCameraInfo_binning_roi_witness :
  exists s K' P',
    PinholeCameraModel.fromCameraInfo Sample.left_info PinholeCameraModel.init
    = (Ok tt, s) /\
    PinholeCameraModel.K s = Some K' /\ PinholeCameraModel.P s = Some P' /\
    mat_get K' 0 0 = Ok (Sample.fl 500) /\
    mat_get P' 0 2 = Ok (Sample.fl 320).
Proof.
  destruct (@C1_fromCameraInfo_binning_roi Sample.left_info
              PinholeCameraModel.init eq_refl)
    as (s & K' & P' & Hs & _ & _ & _ & _ & _ & HK & HP & HKe & HPe & _).
  exists s, K', P'. repeat (split; [assumption|]).
  split; [rewrite HKe | rewrite HPe]; vm_compute; reflexivity.
Defined.

(** The binning example of the specification: [K[0,0] = 1000] and
    [binning_x = 2] give an adjusted [K[0,0]] of 500. *)
Example binning_halves_focal_length :
  let msg :=
    {| CameraInfo.header := Sample.header "cam";
       CameraInfo.height := 480; CameraInfo.width := 640;
       CameraInfo.D := [];
       CameraInfo.K := map Sample.fl [1000; 0; 320; 0; 1000; 240; 0; 0; 1]%Z;
       CameraInfo.R := map Sample.fl [1; 0; 0; 0; 1; 0; 0; 0; 1]%Z;
       CameraInfo.P :=
         map Sample.fl [1000; 0; 320; 0; 0; 1000; 240; 0; 0; 0; 1; 0]%Z;
       CameraInfo.binning_x := 2; CameraInfo.binning_y := 1;
       CameraInfo.roi := Sample.roi 0 0 0 0 |} in
  PinholeCameraModel.load_K 0 0 (Sample.camera msg)
  = (Ok (Sample.fl 500), Sample.camera msg).
Proof. vm_compute. reflexivity. Qed.

(** The ROI example of the specification, at 640x480. *)
Example zero_roi_is_full_image :
  Sample.camera Sample.left_info
  = Sample.camera (with_roi Sample.left_info (Sample.roi 0 0 480 640)).
Proof. vm_compute. reflexivity. Qed.

(* ===================================================================== *)
(** * Projection and triangulation *)
(* ===================================================================== *)

(** C2. On a calibrated monocular model [project3dToPixel((x, y, z))]
    multiplies [P] by [[x, y, z, 1]] into [[X, Y, W]] and returns
    [(X/W, Y/W)] when [W != 0] and [(nan, nan)] otherwise; on a calibrated
    stereo model [projectPixelTo3d((u, v), d)] multiplies [Q] by
    [[u, v, d, 1]] into [[X, Y, Z, W]] and returns [(X/W, Y/W, Z/W)] when
    [W != 0] and [(0, 0, 0)] otherwise.  Neither raises. *)
Theorem C2_projection_sentinels :
  (forall (s : PinholeCameraModel.t B64.float) (x y z : B64.float),
      calibrated s ->
      exists Pm X Y W,
        PinholeCameraModel.P s = Some Pm /\
        MatMul Pm (mkmat 4 1 [x; y; z; of_int 1])
        = Ok (mkmat 3 1 [X; Y; W]) /\
        PinholeCameraModel.project3dToPixel (x, y, z) s
        = (Ok (if py_ne0 W then (fdiv X W, fdiv Y W) else (fnan, fnan)), s))
  /\
  (forall (s : StereoCameraModel.t B64.float) (u v d : B64.float),
      stereo_calibrated s ->
      exists Qm X Y Z W,
        StereoCameraModel.Q s = Some Qm /\
        MatMul Qm (mkmat 4 1 [u; v; d; of_int 1])
        = Ok (mkmat 4 1 [X; Y; Z; W]) /\
        StereoCameraModel.projectPixelTo3d (u, v) d s
        = (Ok (if py_ne0 W then (fdiv X W, fdiv Y W, fdiv Z W)
               else (of_int 0, of_int 0, of_int 0)), s)).
Proof.
  split.
  - intros s x y z Hc.
    destruct (calibrated_P of_int_nonzero_binary64 Hc)
      as (p00 & p01 & p02 & p03 & p10 & p11 & p12 & p13 & p20 & p21 & p22
          & p23 & HP).
    destruct (@project3dToPixel_3x4 _ _ s _ x y z HP eq_refl eq_refl eq_refl)
      as [HM Hp].
    eexists _, _, _, _. split; [exact HP|]. split; [exact HM | exact Hp].
  - intros s u v d Hc.
    destruct (stereo_calibrated_shape of_int_nonzero_binary64 Hc)
      as ((Qm & HQ & Hr & Hcl & Hl) & _).
    destruct (@projectPixelTo3d_4x4 _ _ s Qm u v d HQ Hr Hcl Hl) as [HM Hp].
    eexists _, _, _, _, _. split; [exact HQ|]. split; [exact HM | exact Hp].
Qed.

Lemma sample_left_calibrated :
  calibrated (Sample.camera Sample.left_info).
Proof.
  exists Sample.left_info, PinholeCameraModel.init.
  split; [reflexivity | vm_compute; reflexivity].
Defined.


Lemma sample_stereo_calibrated :
  stereo_calibrated (Sample.stereo Sample.left_info Sample.right_info).
Proof.
  exists Sample.left_info, Sample.right_info, StereoCameraModel.init.
  split; [reflexivity | split; [reflexivity | vm_compute; reflexivity]].
Defined.

Lemma C2_projection_sentinels_witness :
  (exists Pm X Y W,
      PinholeCameraModel.P (Sample.camera Sample.left_info) = Some Pm /\
      MatMul Pm (mkmat 4 1 [Sample.fl 0; Sample.fl 0; Sample.fl 1; of_int 1])
      = Ok (mkmat 3 1 [X; Y; W]) /\
      PinholeCameraModel.project3dToPixel
        (Sample.fl 0, Sample.fl 0, Sample.fl 1)
        (Sample.camera Sample.left_info)
      = (Ok (if py_ne0 W then (fdiv X W, fdiv Y W) else (fnan, fnan)),
         Sample.camera Sample.left_info))
  /\
  (exists Qm X Y Z W,
      StereoCameraModel.Q (Sample.stereo Sample.left_info Sample.right_info)
      = Some Qm /\
      MatMul Qm (mkmat 4 1 [Sample.fl 320; Sample.fl 240; Sample.fl 10;
                            of_int 1])
      = Ok (mkmat 4 1 [X; Y; Z; W]) /\
      StereoCameraModel.projectPixelTo3d
        (Sample.fl 320, Sample.fl 240) (Sample.fl 10)
        (Sample.stereo Sample.left_info Sample.right_info)
      = (Ok (if py_ne0 W then (fdiv X W, fdiv Y W, fdiv Z W)
             else (of_int 0, of_int 0, of_int 0)),
         Sample.stereo Sample.left_info Sample.right_info)).
Proof.
  split.
  - apply (proj1 C2_projection_sentinels), sample_left_calibrated.
  - apply (proj2 C2_projection_sentinels), sample_stereo_calibrated.
Defined.

(** The scenario of the specification: the point [(0, 0, 1)] projects to the
    principal point [(320, 240)], whose ray is [(0, 0, 1)]. *)
Example project_optical_axis :
  PinholeCameraModel.project3dToPixel
    (Sample.fl 0, Sample.fl 0, Sample.fl 1) (Sample.camera Sample.left_info)
  = (Ok (Sample.fl 320, Sample.fl 240), Sample.camera Sample.left_info)
  /\
  PinholeCameraModel.projectPixelTo3dRay
    (Sample.fl 320, Sample.fl 240) (Sample.camera Sample.left_info)
  = (Ok (Sample.fl 0, Sample.fl 0, Sample.fl 1),
     Sample.camera Sample.left_info).
Proof. split; vm_compute; reflexivity. Qed.

(** The two degenerate denominators: a point in the focal plane ([W = 0])
    projects to NaN, a pixel at zero disparity ([W = 0]) triangulates to the
    zero vector. *)
Example degenerate_denominators :
  PinholeCameraModel.project3dToPixel
    (Sample.fl 1, Sample.fl 2, Sample.fl 0) (Sample.camera Sample.left_info)
  = (Ok (S754_nan, S754_nan), Sample.camera Sample.left_info)
  /\
  StereoCameraModel.projectPixelTo3d
    (Sample.fl 320, Sample.fl 240) (Sample.fl 0)
    (Sample.stereo Sample.left_info Sample.right_info)
  = (Ok (Sample.fl 0, Sample.fl 0, Sample.fl 0),
     Sample.stereo Sample.left_info Sample.right_info).
Proof. split; vm_compute; reflexivity. Qed.

(* ===================================================================== *)
(** * The reprojection matrix *)
(* ===================================================================== *)

(** C3, as the code has it.  The stereo [fromCameraInfo] calibrates the
    left and the right camera from their own message, then reads [fx],
    [cx], [cy] and [P[0,3]] from the right camera's adjusted [P].  If
    [fx == 0] it raises [ZeroDivisionError] and [Q] is untouched; if
    [tx = -P[0,3] / fx] is zero it raises [ZeroDivisionError] after [Q] has
    been filled except for [Q[3,2]], which stays 0; otherwise it returns and
    [Q] is zero except [Q[0,0] = 1], [Q[0,3] = -cx], [Q[1,1] = 1],
    [Q[1,3] = -cy], [Q[2,3] = fx], [Q[3,2] = 1 / tx]. *)
Theorem C3_stereo_fromCameraInfo_Q :
  forall (left_msg right_msg : CameraInfo.t B64.float)
         (s0 : StereoCameraModel.t B64.float),
    CameraInfo.valid left_msg = true ->
    CameraInfo.valid right_msg = true ->
    exists l r fx cx cy p03,
      PinholeCameraModel.fromCameraInfo left_msg (StereoCameraModel.left s0)
      = (Ok tt, l) /\
      PinholeCameraModel.fromCameraInfo right_msg (StereoCameraModel.right s0)
      = (Ok tt, r) /\
      PinholeCameraModel.fx r = (Ok fx, r) /\
      PinholeCameraModel.cx r = (Ok cx, r) /\
      PinholeCameraModel.cy r = (Ok cy, r) /\
      PinholeCameraModel.Tx r = (Ok p03, r) /\
      let tx := fdiv (fneg p03) fx in
      let base := {| StereoCameraModel.left := l;
                     StereoCameraModel.right := r;
                     StereoCameraModel.Q := StereoCameraModel.Q s0 |} in
      StereoCameraModel.fromCameraInfo left_msg right_msg s0
      = if feqb fx (of_int 0) then (Raise ZeroDivisionError, base)
        else if feqb tx (of_int 0) then
          (Raise ZeroDivisionError,
           StereoCameraModel.set_Q (Some (Q_matrix fx cx cy (of_int 0))) base)
        else
          (Ok tt,
           StereoCameraModel.set_Q
             (Some (Q_matrix fx cx cy (fdiv (of_int 1) tx))) base).
Proof.
  intros lm rm s0 Hl Hr.
  assert (Hc : calibrated (calibration rm)).
  { exists rm, PinholeCameraModel.init. split; [exact Hr|].
    now apply fromCameraInfo_calibration, Hr; apply of_int_nonzero_binary64. }
  destruct (calibrated_P of_int_nonzero_binary64 Hc)
    as (p00 & p01 & p02 & p03 & p10 & p11 & p12 & p13 & p20 & p21 & p22 & p23
        & HP).
  exists (calibration lm), (calibration rm), p00, p02, p12, p03.
  split; [now apply fromCameraInfo_calibration, Hl;
          apply of_int_nonzero_binary64|].
  split; [now apply fromCameraInfo_calibration, Hr;
          apply of_int_nonzero_binary64|].
  unfold PinholeCameraModel.fx, PinholeCameraModel.cx, PinholeCameraModel.cy,
    PinholeCameraModel.Tx, PinholeCameraModel.load_P, bind, attr, lift.
  rewrite HP. repeat (split; [reflexivity|]).
  exact (@stereo_fromCameraInfo_cases _ _ of_int_nonzero_binary64 lm rm s0
           _ _ _ _ _ _ _ _ _ _ _ _ Hl Hr HP).
Qed.

Lemma C3_stereo_fromCameraInfo_Q_witness :
  StereoCameraModel.fromCameraInfo Sample.left_info Sample.right_info
    StereoCameraModel.init
  = (Ok tt,
     {| StereoCameraModel.left := Sample.camera Sample.left_info;
        StereoCameraModel.right := Sample.camera Sample.right_info;
        StereoCameraModel.Q :=
          Some (Q_matrix (Sample.fl 500) (Sample.fl 320) (Sample.fl 240)
                         (fdiv (Sample.fl 1) (Sample.fl 100))) |}).
Proof.
  destruct (@C3_stereo_fromCameraInfo_Q Sample.left_info Sample.right_info
              StereoCameraModel.init eq_refl eq_refl)
    as (l & r & fx & cx & cy & p03 & Hl & Hr & Hfx & Hcx & Hcy & Hp & H).
  vm_compute in Hl. injection Hl as <-.
  vm_compute in Hr. injection Hr as <-.
  vm_compute in Hfx. injection Hfx as <-.
  vm_compute in Hcx. injection Hcx as <-.
  vm_compute in Hcy. injection Hcy as <-.
  vm_compute in Hp. injection Hp as <-.
  refine (eq_trans H _). vm_compute. reflexivity.
Defined.

(** With a right camera whose [P[0,3]] is 0 (here the left message used
    for both cameras) [tx] is zero: the call raises [ZeroDivisionError], and
    the [Q] it leaves has 0, not an infinity, at [(3, 2)]. *)
Lemma C3_counterexample :
  let s := StereoCameraModel.fromCameraInfo Sample.left_info Sample.left_info
             StereoCameraModel.init in
  CameraInfo.valid Sample.left_info = true /\
  feqb (fdiv (fneg (Sample.fl 0)) (Sample.fl 500)) (of_int 0) = true /\
  fst s = Raise ZeroDivisionError /\
  StereoCameraModel.Q (snd s)
  = Some (Q_matrix (Sample.fl 500) (Sample.fl 320) (Sample.fl 240)
                   (Sample.fl 0)).
Proof. vm_compute. repeat split. Qed.

(* ===================================================================== *)
(** * The frame of a stereo pair *)
(* ===================================================================== *)

(** C4, as the code behaves.  [StereoCameraModel.tfFrame] calls
    [self.left.tfFrame()], but [PinholeCameraModel] has the attribute
    [tf_frame] and no method [tfFrame]: on every model the call raises
    [AttributeError] and no frame name is returned. *)
Theorem C4_tfFrame_raises_AttributeError :
  forall (T : Type) (s : StereoCameraModel.t T),
    StereoCameraModel.tfFrame s = (Raise AttributeError, s).
Proof.
  intros T [l r q]. unfold StereoCameraModel.tfFrame, StereoCameraModel.on_left.
  reflexivity.
Qed.

(** The left camera of the sample pair does hold its frame name. *)
Example sample_left_frame :
  PinholeCameraModel.tf_frame
    (StereoCameraModel.left
       (Sample.stereo Sample.left_info Sample.right_info))
  = Some "left"%string
  /\
  fst (StereoCameraModel.tfFrame
         (Sample.stereo Sample.left_info Sample.right_info))
  = Raise AttributeError.
Proof. split; vm_compute; reflexivity. Qed.

(* ===================================================================== *)
(** * Projection calls do not touch the calibration *)
(* ===================================================================== *)

Lemma readonly_project3dToPixel {T} {F : PyFloat T} (pt : T * T * T) :
  readonly (PinholeCameraModel.project3dToPixel pt).
Proof.
  destruct pt as [[x y] z]. unfold PinholeCameraModel.project3dToPixel.
  auto 20 with readonly.
Qed.

#[export] Hint Resolve readonly_project3dToPixel : readonly.

(** C9. Every projection, back-projection, delta conversion, disparity
    conversion and accessor hands back the model it was called on, field
    for field (K, D, R, P, full_K, full_P, Q, sizes, binning, ROI, frame
    and stamp), also when it raises. *)
Theorem C9_operations_are_readonly :
  forall (T : Type) (F : PyFloat T),
  (forall pt, readonly (PinholeCameraModel.project3dToPixel (F:=F) pt))
  /\ (forall uv,
        readonly (PinholeCameraModel.projectPixelTo3dRay (F:=F) uv))
  /\ (forall dX Z, readonly (PinholeCameraModel.getDeltaU (F:=F) dX Z))
  /\ (forall dY Z, readonly (PinholeCameraModel.getDeltaV (F:=F) dY Z))
  /\ (forall dU Z, readonly (PinholeCameraModel.getDeltaX (F:=F) dU Z))
  /\ (forall dV Z, readonly (PinholeCameraModel.getDeltaY (F:=F) dV Z))
  /\ readonly (PinholeCameraModel.intrinsicMatrix (T:=T))
  /\ readonly (PinholeCameraModel.distortionCoeffs (T:=T))
  /\ readonly (PinholeCameraModel.rotationMatrix (T:=T))
  /\ readonly (PinholeCameraModel.projectionMatrix (T:=T))
  /\ readonly (PinholeCameraModel.fullIntrinsicMatrix (T:=T))
  /\ readonly (PinholeCameraModel.fullProjectionMatrix (T:=T))
  /\ readonly (PinholeCameraModel.cx (T:=T))
  /\ readonly (PinholeCameraModel.cy (T:=T))
  /\ readonly (PinholeCameraModel.fx (T:=T))
  /\ readonly (PinholeCameraModel.fy (T:=T))
  /\ readonly (PinholeCameraModel.Tx (T:=T))
  /\ readonly (PinholeCameraModel.Ty (T:=T))
  /\ (forall pt, readonly (StereoCameraModel.project3dToPixel (F:=F) pt))
  /\ (forall uv d,
        readonly (StereoCameraModel.projectPixelTo3d (F:=F) uv d))
  /\ (forall d, readonly (StereoCameraModel.getZ (F:=F) d))
  /\ (forall Z, readonly (StereoCameraModel.getDisparity (F:=F) Z))
  /\ readonly (StereoCameraModel.tfFrame (T:=T)).
Proof.
  intros T F. repeat split; intros;
    repeat match goal with
           | p : (_ * _)%type |- _ => destruct p
           end;
    unfold PinholeCameraModel.project3dToPixel,
      PinholeCameraModel.projectPixelTo3dRay, PinholeCameraModel.getDeltaU,
      PinholeCameraModel.getDeltaV, PinholeCameraModel.getDeltaX,
      PinholeCameraModel.getDeltaY, PinholeCameraModel.intrinsicMatrix,
      PinholeCameraModel.distortionCoeffs, PinholeCameraModel.rotationMatrix,
      PinholeCameraModel.projectionMatrix,
      PinholeCameraModel.fullIntrinsicMatrix,
      PinholeCameraModel.fullProjectionMatrix, PinholeCameraModel.cx,
      PinholeCameraModel.cy, PinholeCameraModel.fx, PinholeCameraModel.fy,
      PinholeCameraModel.Tx, PinholeCameraModel.Ty,
      StereoCameraModel.project3dToPixel, StereoCameraModel.projectPixelTo3d,
      StereoCameraModel.getZ, StereoCameraModel.getDisparity,
      StereoCameraModel.tfFrame;
    auto 20 with readonly.
Qed.

(* ===================================================================== *)
(** * Delta and disparity conversions *)
(* ===================================================================== *)

Section Conversions.
Context {T : Type} {F : PyFloat T}.

Lemma getDeltaU_eq (s : PinholeCameraModel.t T) (f dX Z : T) :
  PinholeCameraModel.fx s = (Ok f, s) ->
  PinholeCameraModel.getDeltaU dX Z s
  = (Ok (if feqb Z (of_int 0) then finf else fdiv (fmul f dX) Z), s).
Proof.
  intros Hf. unfold PinholeCameraModel.getDeltaU.
  rewrite (@bind_ok _ _ _ _ _ _ _ _ Hf). unfold ret, lift, py_div.
  destruct (feqb Z (of_int 0)); reflexivity.
Qed.

Lemma getDeltaV_eq (s : PinholeCameraModel.t T) (f dY Z : T) :
  PinholeCameraModel.fy s = (Ok f, s) ->
  PinholeCameraModel.getDeltaV dY Z s
  = (Ok (if feqb Z (of_int 0) then finf else fdiv (fmul f dY) Z), s).
Proof.
  intros Hf. unfold PinholeCameraModel.getDeltaV.
  rewrite (@bind_ok _ _ _ _ _ _ _ _ Hf). unfold ret, lift, py_div.
  destruct (feqb Z (of_int 0)); reflexivity.
Qed.

Lemma getDeltaX_eq (s : PinholeCameraModel.t T) (f dU Z : T) :
  PinholeCameraModel.fx s = (Ok f, s) ->
  PinholeCameraModel.getDeltaX dU Z s = (py_div (fmul Z dU) f, s).
Proof.
  intros Hf. unfold PinholeCameraModel.getDeltaX.
  now rewrite (@bind_ok _ _ _ _ _ _ _ _ Hf).
Qed.

Lemma getDeltaY_eq (s : PinholeCameraModel.t T) (f dV Z : T) :
  PinholeCameraModel.fy s = (Ok f, s) ->
  PinholeCameraModel.getDeltaY dV Z s = (py_div (fmul Z dV) f, s).
Proof.
  intros Hf. unfold PinholeCameraModel.getDeltaY.
  now rewrite (@bind_ok _ _ _ _ _ _ _ _ Hf).
Qed.

Lemma getZ_eq (s : StereoCameraModel.t T) (p03 d : T) :
  StereoCameraModel.on_right PinholeCameraModel.Tx s = (Ok p03, s) ->
  StereoCameraModel.getZ d s
  = (Ok (if feqb d (of_int 0) then finf else fdiv (fneg p03) d), s).
Proof.
  intros Hp. unfold StereoCameraModel.getZ.
  destruct (feqb d (of_int 0)) eqn:E; [reflexivity|].
  unfold PinholeCameraModel.Tx in Hp. rewrite (@bind_ok _ _ _ _ _ _ _ _ Hp).
  unfold lift, py_div. now rewrite E.
Qed.

Lemma getDisparity_eq (s : StereoCameraModel.t T) (p03 Z : T) :
  StereoCameraModel.on_right PinholeCameraModel.Tx s = (Ok p03, s) ->
  StereoCameraModel.getDisparity Z s
  = (Ok (if feqb Z (of_int 0) then finf else fdiv (fneg p03) Z), s).
Proof.
  intros Hp. unfold StereoCameraModel.getDisparity.
  destruct (feqb Z (of_int 0)) eqn:E; [reflexivity|].
  unfold PinholeCameraModel.Tx in Hp. rewrite (@bind_ok _ _ _ _ _ _ _ _ Hp).
  unfold lift, py_div. now rewrite E.
Qed.

(** The accessors of a model whose [P] is a 3x4 matrix. *)
Lemma accessors_3x4 (s : PinholeCameraModel.t T)
      (p00 p01 p02 p03 p10 p11 p12 p13 p20 p21 p22 p23 : T) :
  PinholeCameraModel.P s
  = Some (mkmat 3 4 [p00; p01; p02; p03; p10; p11; p12; p13;
                     p20; p21; p22; p23]) ->
  PinholeCameraModel.fx s = (Ok p00, s) /\
  PinholeCameraModel.fy s = (Ok p11, s) /\
  PinholeCameraModel.cx s = (Ok p02, s) /\
  PinholeCameraModel.cy s = (Ok p12, s) /\
  PinholeCameraModel.Tx s = (Ok p03, s) /\
  PinholeCameraModel.Ty s = (Ok p13, s).
Proof.
  intros HP.
  unfold PinholeCameraModel.fx, PinholeCameraModel.fy, PinholeCameraModel.cx,
    PinholeCameraModel.cy, PinholeCameraModel.Tx, PinholeCameraModel.Ty,
    PinholeCameraModel.load_P, bind, attr, lift.
  rewrite HP. repeat split.
Qed.
End Conversions.

(** ** binary64: a zero times a finite number, over a nonzero divisor *)

Lemma zero_product_quotient (Z dU f : B64.float) :
  feqb Z (of_int 0) = true ->
  B64.is_finite dU = true ->
  feqb f (of_int 0) = false ->
  B64.is_nan f = false ->
  feqb (fdiv (fmul Z dU) f) (of_int 0) = true.
Proof.
  destruct Z as [sz|[]| |[] mz ez]; try discriminate. intros _.
  destruct dU as [su|su| |su mu eu]; try discriminate; intros _;
    destruct f as [sf|[]| |[] mf ef]; try discriminate; reflexivity.
Qed.

(** C8, as the code has it.  On a calibrated model [getDeltaU(deltaX, Z)]
    is [+inf] when [Z == 0] and [fx * deltaX / Z] otherwise, and never
    raises; [getDeltaX(deltaU, Z)] has no guard on [Z]: it is
    [Z * deltaU / fx], which raises [ZeroDivisionError] when [fx == 0]; at
    [Z == 0] it returns a zero when [deltaU] is finite and [fx] is neither
    zero nor NaN.  [getDeltaV] and [getDeltaY] are the same with [fy]. *)
Theorem C8_delta_sentinels :
  forall (s : PinholeCameraModel.t B64.float) (d Z : B64.float),
    calibrated s ->
    exists fx fy,
      PinholeCameraModel.fx s = (Ok fx, s) /\
      PinholeCameraModel.fy s = (Ok fy, s) /\
      PinholeCameraModel.getDeltaU d Z s
      = (Ok (if feqb Z (of_int 0) then finf else fdiv (fmul fx d) Z), s) /\
      PinholeCameraModel.getDeltaV d Z s
      = (Ok (if feqb Z (of_int 0) then finf else fdiv (fmul fy d) Z), s) /\
      PinholeCameraModel.getDeltaX d Z s
      = ((if feqb fx (of_int 0) then Raise ZeroDivisionError
          else Ok (fdiv (fmul Z d) fx)), s) /\
      PinholeCameraModel.getDeltaY d Z s
      = ((if feqb fy (of_int 0) then Raise ZeroDivisionError
          else Ok (fdiv (fmul Z d) fy)), s) /\
      (feqb Z (of_int 0) = true -> B64.is_finite d = true ->
       (feqb fx (of_int 0) = false -> B64.is_nan fx = false ->
        exists r, PinholeCameraModel.getDeltaX d Z s = (Ok r, s) /\
                  feqb r (of_int 0) = true) /\
       (feqb fy (of_int 0) = false -> B64.is_nan fy = false ->
        exists r, PinholeCameraModel.getDeltaY d Z s = (Ok r, s) /\
                  feqb r (of_int 0) = true)).
Proof.
  intros s d Z Hc.
  destruct (calibrated_P of_int_nonzero_binary64 Hc)
    as (p00 & p01 & p02 & p03 & p10 & p11 & p12 & p13 & p20 & p21 & p22 & p23
        & HP).
  destruct (accessors_3x4 s HP) as (Hfx & Hfy & _).
  exists p00, p11.
  rewrite (getDeltaU_eq _ _ Hfx), (getDeltaV_eq _ _ Hfy),
    (getDeltaX_eq _ _ Hfx), (getDeltaY_eq _ _ Hfy).
  unfold py_div. split; [exact Hfx|]. split; [exact Hfy|].
  repeat (split; [reflexivity|]).
  intros HZ Hd. split; intros Hf Hn; rewrite Hf; eexists; (split; [reflexivity|]);
    now apply zero_product_quotient.
Qed.

Lemma C8_delta_sentinels_witness :
  PinholeCameraModel.getDeltaU (Sample.fl 3) (Sample.fl 0)
    (Sample.camera Sample.left_info)
  = (Ok (S754_infinity false), Sample.camera Sample.left_info)
  /\
  exists r,
    PinholeCameraModel.getDeltaX (Sample.fl 3) (Sample.fl 0)
      (Sample.camera Sample.left_info)
    = (Ok r, Sample.camera Sample.left_info) /\
    feqb r (of_int 0) = true.
Proof.
  destruct (@C8_delta_sentinels (Sample.camera Sample.left_info)
              (Sample.fl 3) (Sample.fl 0) sample_left_calibrated)
    as (fx & fy & Hfx & Hfy & HU & HV & HX & HY & H0).
  vm_compute in Hfx. injection Hfx as <-.
  split; [rewrite HU; vm_compute; reflexivity|].
  exact (proj1 (H0 eq_refl eq_refl) eq_refl eq_refl).
Defined.

(** A model with [fx = 0] raises in [getDeltaX] at [Z = 0]; on the sample
    camera the [+inf] that [getDeltaU] returns at [Z = 0], given back to
    [getDeltaX] at [Z = 0], comes out as NaN. *)
Lemma C8_counterexample :
  calibrated (Sample.camera Sample.flat_info) /\
  PinholeCameraModel.getDeltaX (Sample.fl 1) (Sample.fl 0)
    (Sample.camera Sample.flat_info)
  = (Raise ZeroDivisionError, Sample.camera Sample.flat_info)
  /\
  calibrated (Sample.camera Sample.left_info) /\
  (du <- PinholeCameraModel.getDeltaU (Sample.fl 1) (Sample.fl 0) ;;
   PinholeCameraModel.getDeltaX du (Sample.fl 0))
    (Sample.camera Sample.left_info)
  = (Ok S754_nan, Sample.camera Sample.left_info).
Proof.
  split; [|split; [|split]].
  - exists Sample.flat_info, PinholeCameraModel.init.
    split; [reflexivity | vm_compute; reflexivity].
  - vm_compute. reflexivity.
  - exact sample_left_calibrated.
  - vm_compute. reflexivity.
Qed.

(* ===================================================================== *)
(** * Round trips of the conversions, with their rounding errors *)
(* ===================================================================== *)

Lemma in_range_opp (k : Z) (x : B64.float) :
  in_range k (SFopp x) = in_range k x.
Proof. destruct x; reflexivity. Qed.

Lemma in_range_feqb (k : Z) (x : B64.float) :
  in_range k x = true -> @feqb _ binary64 x (of_int 0) = false.
Proof.
  intros H. destruct (in_range_spec _ _ H) as (_ & _ & W).
  apply B2R_nonzero_feqb. exact (within_nonzero W).
Qed.

(** A zero displacement comes back as a zero. *)
Lemma zero_round_trip (f d Z : B64.float) :
  in_range 300 f = true -> in_range 300 Z = true ->
  B64.is_finite d = true -> @feqb _ binary64 d (of_int 0) = true ->
  @feqb _ binary64
    (B64.div (B64.mul f (B64.div (B64.mul Z d) f)) Z) (of_int 0) = true.
Proof.
  destruct f as [sf|sf| |sf mf ef]; try discriminate. intros _.
  destruct Z as [sz|sz| |sz mz ez]; try discriminate. intros _.
  destruct d as [sd|sd| |[] md ed]; try discriminate. intros _ _.
  destruct sf, sz, sd; reflexivity.
Qed.

(** C7, as the code has it (binary64).  On a calibrated model
    [getDeltaX(deltaU, Z)] is [Z * deltaU / fx], which raises
    [ZeroDivisionError] when [fx == 0], and [getDeltaU(deltaX, Z)] is
    [fx * deltaX / Z], or [+inf] when [Z == 0].  When [fx], [deltaU] and [Z]
    are normal numbers of magnitude between [2^-300] and [2^300],
    [getDeltaU(getDeltaX(deltaU, Z), Z)] returns a finite number within
    [2^-49 * |deltaU|] of [deltaU]; a zero [deltaU] comes back as a zero.
    The same holds for [getDeltaV] and [getDeltaY] with [fy]. *)
Theorem C7_delta_round_trip :
  forall (s : PinholeCameraModel.t B64.float) (d Z : B64.float),
    calibrated s ->
    exists fx fy,
      PinholeCameraModel.fx s = (Ok fx, s) /\
      PinholeCameraModel.fy s = (Ok fy, s) /\
      PinholeCameraModel.getDeltaX d Z s
      = ((if feqb fx (of_int 0) then Raise ZeroDivisionError
          else Ok (fdiv (fmul Z d) fx)), s) /\
      PinholeCameraModel.getDeltaU d Z s
      = (Ok (if feqb Z (of_int 0) then finf else fdiv (fmul fx d) Z), s) /\
      PinholeCameraModel.getDeltaY d Z s
      = ((if feqb fy (of_int 0) then Raise ZeroDivisionError
          else Ok (fdiv (fmul Z d) fy)), s) /\
      PinholeCameraModel.getDeltaV d Z s
      = (Ok (if feqb Z (of_int 0) then finf else fdiv (fmul fy d) Z), s) /\
      (in_range 300 Z = true ->
       (in_range 300 fx = true ->
        exists r,
          (dX <- PinholeCameraModel.getDeltaX d Z ;;
           PinholeCameraModel.getDeltaU dX Z) s = (Ok r, s) /\
          (in_range 300 d = true ->
           B64.is_finite r = true /\
           (Rabs (B2R r - B2R d) <= p2 (-49) * Rabs (B2R d))%R) /\
          (B64.is_finite d = true -> feqb d (of_int 0) = true ->
           feqb r (of_int 0) = true)) /\
       (in_range 300 fy = true ->
        exists r,
          (dY <- PinholeCameraModel.getDeltaY d Z ;;
           PinholeCameraModel.getDeltaV dY Z) s = (Ok r, s) /\
          (in_range 300 d = true ->
           B64.is_finite r = true /\
           (Rabs (B2R r - B2R d) <= p2 (-49) * Rabs (B2R d))%R) /\
          (B64.is_finite d = true -> feqb d (of_int 0) = true ->
           feqb r (of_int 0) = true))).
Proof.
  intros s d Z Hc.
  destruct (calibrated_P of_int_nonzero_binary64 Hc)
    as (p00 & p01 & p02 & p03 & p10 & p11 & p12 & p13 & p20 & p21 & p22 & p23
        & HP).
  destruct (accessors_3x4 s HP) as (Hfx & Hfy & _).
  exists p00, p11.
  split; [exact Hfx|]. split; [exact Hfy|].
  split; [exact (getDeltaX_eq _ _ Hfx)|].
  split; [exact (getDeltaU_eq _ _ Hfx)|].
  split; [exact (getDeltaY_eq _ _ Hfy)|].
  split; [exact (getDeltaV_eq _ _ Hfy)|].
  intros HZ. pose proof (in_range_feqb _ _ HZ) as EZ.
  split; intros Hf; pose proof (in_range_feqb _ _ Hf) as Ef.
  - exists (B64.div (B64.mul p00 (B64.div (B64.mul Z d) p00)) Z).
    split; [|split].
    + rewrite (@bind_ok _ _ _ _ _ s (B64.div (B64.mul Z d) p00) s)
        by (rewrite (getDeltaX_eq _ _ Hfx); unfold py_div; now rewrite Ef).
      rewrite (getDeltaU_eq _ _ Hfx), EZ. reflexivity.
    + intros Hd. exact (mul_div_mul_div_error _ _ _ Hf Hd HZ).
    + intros Fd Ed. exact (zero_round_trip _ _ _ Hf HZ Fd Ed).
  - exists (B64.div (B64.mul p11 (B64.div (B64.mul Z d) p11)) Z).
    split; [|split].
    + rewrite (@bind_ok _ _ _ _ _ s (B64.div (B64.mul Z d) p11) s)
        by (rewrite (getDeltaY_eq _ _ Hfy); unfold py_div; now rewrite Ef).
      rewrite (getDeltaV_eq _ _ Hfy), EZ. reflexivity.
    + intros Hd. exact (mul_div_mul_div_error _ _ _ Hf Hd HZ).
    + intros Fd Ed. exact (zero_round_trip _ _ _ Hf HZ Fd Ed).
Qed.

Lemma C7_delta_round_trip_witness :
  exists r,
    (dX <- PinholeCameraModel.getDeltaX (Sample.fl 7) (Sample.fl 143) ;;
     PinholeCameraModel.getDeltaU dX (Sample.fl 143))
      (Sample.camera Sample.left_info)
    = (Ok r, Sample.camera Sample.left_info) /\
    B64.is_finite r = true /\
    (Rabs (B2R r - B2R (Sample.fl 7)) <= p2 (-49) * Rabs (B2R (Sample.fl 7)))%R.
Proof.
  destruct (@C7_delta_round_trip (Sample.camera Sample.left_info)
              (Sample.fl 7) (Sample.fl 143) sample_left_calibrated)
    as (fx & fy & Hfx & _ & _ & _ & _ & _ & H).
  vm_compute in Hfx. injection Hfx as <-.
  destruct (proj1 (H eq_refl) eq_refl) as (r & Hr & Hd & _).
  exists r. split; [exact Hr|]. exact (Hd eq_refl).
Defined.

(** With [fx = 0] the round trip raises; and outside the range the
    tolerance is lost: with [fx = 500], [deltaU = 2^1000] and [Z = 2^100]
    the product overflows and [+inf] comes back, and with
    [deltaU = 2^-1074] and [Z = 1] the quotient underflows and 0 comes
    back. *)
Lemma C7_counterexample :
  calibrated (Sample.camera Sample.flat_info) /\
  fst ((dX <- PinholeCameraModel.getDeltaX (Sample.fl 7) (Sample.fl 143) ;;
        PinholeCameraModel.getDeltaU dX (Sample.fl 143))
         (Sample.camera Sample.flat_info))
  = Raise ZeroDivisionError /\
  calibrated (Sample.camera Sample.left_info) /\
  PinholeCameraModel.fx (Sample.camera Sample.left_info)
  = (Ok (Sample.fl 500), Sample.camera Sample.left_info) /\
  (dX <- PinholeCameraModel.getDeltaX (B64.lit 1 1000) (B64.lit 1 100) ;;
   PinholeCameraModel.getDeltaU dX (B64.lit 1 100))
    (Sample.camera Sample.left_info)
  = (Ok (S754_infinity false), Sample.camera Sample.left_info) /\
  (dX <- PinholeCameraModel.getDeltaX (B64.lit 1 (-1074)) (Sample.fl 1) ;;
   PinholeCameraModel.getDeltaU dX (Sample.fl 1))
    (Sample.camera Sample.left_info)
  = (Ok (S754_zero false), Sample.camera Sample.left_info).
Proof.
  split.
  { exists Sample.flat_info, PinholeCameraModel.init.
    split; [reflexivity | vm_compute; reflexivity]. }
  split; [vm_compute; reflexivity|].
  split; [exact sample_left_calibrated|].
  split; [vm_compute; reflexivity|].
  split; vm_compute; reflexivity.
Qed.

(** C5, as the code has it (binary64).  On a calibrated stereo model
    [getZ(d)] is [+inf] when [d == 0] and [Tx / d] otherwise, where
    [Tx = -right.P[0,3]], and [getDisparity(Z)] is [+inf] when [Z == 0] and
    [Tx / Z] otherwise; neither raises.  When [right.P[0,3]] and the
    argument [d] are normal numbers of magnitude between [2^-500] and
    [2^500], [getZ(getDisparity(d))] and [getDisparity(getZ(d))] return the
    same finite number, within [2^-50 * |d|] of [d]. *)
Theorem C5_depth_disparity :
  forall (s : StereoCameraModel.t B64.float) (d : B64.float),
    stereo_calibrated s ->
    exists p03,
      StereoCameraModel.on_right PinholeCameraModel.Tx s = (Ok p03, s) /\
      StereoCameraModel.getZ d s
      = (Ok (if feqb d (of_int 0) then finf else fdiv (fneg p03) d), s) /\
      StereoCameraModel.getDisparity d s
      = (Ok (if feqb d (of_int 0) then finf else fdiv (fneg p03) d), s) /\
      (in_range 500 p03 = true -> in_range 500 d = true ->
       exists r,
         (x <- StereoCameraModel.getDisparity d ;; StereoCameraModel.getZ x) s
         = (Ok r, s) /\
         (z <- StereoCameraModel.getZ d ;; StereoCameraModel.getDisparity z) s
         = (Ok r, s) /\
         B64.is_finite r = true /\
         (Rabs (B2R r - B2R d) <= p2 (-50) * Rabs (B2R d))%R).
Proof.
  intros s d Hc.
  destruct (stereo_calibrated_shape of_int_nonzero_binary64 Hc)
    as (_ & _ & Hr).
  destruct (calibrated_P of_int_nonzero_binary64 Hr)
    as (p00 & p01 & p02 & p03 & p10 & p11 & p12 & p13 & p20 & p21 & p22
        & p23 & HP).
  assert (HT : StereoCameraModel.on_right PinholeCameraModel.Tx s
               = (Ok p03, s)).
  { unfold StereoCameraModel.on_right.
    rewrite (proj1 (proj2 (proj2 (proj2 (proj2 (accessors_3x4 _ HP)))))).
    destruct s; reflexivity. }
  exists p03. split; [exact HT|].
  split; [now apply getZ_eq|]. split; [now apply getDisparity_eq|].
  intros Hp Hd.
  pose proof (in_range_feqb _ _ Hd) as Ed.
  rewrite <- in_range_opp in Hp.
  destruct (div_div_error _ _ Hp Hd) as (Et & Fr & Hr').
  exists (B64.div (SFopp p03) (B64.div (SFopp p03) d)).
  split; [|split; [|split; [exact Fr | exact Hr']]].
  - rewrite (@bind_ok _ _ _ _ _ s (B64.div (SFopp p03) d) s)
      by (rewrite (getDisparity_eq _ HT), Ed; reflexivity).
    rewrite (getZ_eq _ HT), Et. reflexivity.
  - rewrite (@bind_ok _ _ _ _ _ s (B64.div (SFopp p03) d) s)
      by (rewrite (getZ_eq _ HT), Ed; reflexivity).
    rewrite (getDisparity_eq _ HT), Et. reflexivity.
Qed.

Lemma C5_depth_disparity_witness :
  StereoCameraModel.getZ (Sample.fl 10)
    (Sample.stereo Sample.left_info Sample.right_info)
  = (Ok (Sample.fl 5000), Sample.stereo Sample.left_info Sample.right_info)
  /\
  exists r,
    (x <- StereoCameraModel.getDisparity (Sample.fl 11) ;;
     StereoCameraModel.getZ x)
      (Sample.stereo Sample.left_info Sample.right_info)
    = (Ok r, Sample.stereo Sample.left_info Sample.right_info) /\
    B64.is_finite r = true /\
    (Rabs (B2R r - B2R (Sample.fl 11))
     <= p2 (-50) * Rabs (B2R (Sample.fl 11)))%R.
Proof.
  split.
  - destruct (@C5_depth_disparity
                (Sample.stereo Sample.left_info Sample.right_info)
                (Sample.fl 10) sample_stereo_calibrated)
      as (p03 & HT & HZ & _).
    vm_compute in HT. injection HT as <-.
    rewrite HZ. vm_compute. reflexivity.
  - destruct (@C5_depth_disparity
                (Sample.stereo Sample.left_info Sample.right_info)
                (Sample.fl 11) sample_stereo_calibrated)
      as (p03 & HT & _ & _ & H).
    vm_compute in HT. injection HT as <-.
    destruct (H eq_refl eq_refl) as (r & H1 & _ & H3 & H4).
    exists r. split; [exact H1|]. split; [exact H3 | exact H4].
Defined.

(** With [right.P[0,3] = -50000], the depth 11 does not come back from its
    disparity exactly (at the depths 1, 10 and 100 of the specification's
    scenario it does); and outside the range nothing close comes back: the
    disparity of the depth [2^-1020] overflows to [+inf], whose depth is
    0. *)
Lemma C5_counterexample :
  stereo_calibrated (Sample.stereo Sample.left_info Sample.right_info) /\
  (d <- StereoCameraModel.getDisparity (Sample.fl 11) ;;
   StereoCameraModel.getZ d)
    (Sample.stereo Sample.left_info Sample.right_info)
  = (Ok (fdiv (Sample.fl 50000) (fdiv (Sample.fl 50000) (Sample.fl 11))),
     Sample.stereo Sample.left_info Sample.right_info) /\
  feqb (fdiv (Sample.fl 50000) (fdiv (Sample.fl 50000) (Sample.fl 11)))
       (Sample.fl 11) = false /\
  (d <- StereoCameraModel.getDisparity (B64.lit 1 (-1020)) ;;
   StereoCameraModel.getZ d)
    (Sample.stereo Sample.left_info Sample.right_info)
  = (Ok (S754_zero false), Sample.stereo Sample.left_info Sample.right_info).
Proof.
  split; [exact sample_stereo_calibrated|].
  split; [vm_compute; reflexivity|].
  split; vm_compute; reflexivity.
Qed.

Example depth_round_trip_1_10_100 :
  forall Z, In Z [1; 10; 100]%Z ->
    (d <- StereoCameraModel.getDisparity (Sample.fl Z) ;;
     StereoCameraModel.getZ d)
      (Sample.stereo Sample.left_info Sample.right_info)
    = (Ok (Sample.fl Z), Sample.stereo Sample.left_info Sample.right_info).
Proof.
  intros Z [<-|[<-|[<-|[]]]]; vm_compute; reflexivity.
Qed.

Example getZ_zero_disparity :
  StereoCameraModel.getZ (Sample.fl 0)
    (Sample.stereo Sample.left_info Sample.right_info)
  = (Ok (S754_infinity false),
     Sample.stereo Sample.left_info Sample.right_info).
Proof. vm_compute. reflexivity. Qed.

(* ===================================================================== *)
(** * Rays *)
(* ===================================================================== *)

Section RayErrors.
Context {T : Type} {F : PyFloat T}.

(** The first division of [projectPixelTo3dRay] is by [fx], the second by
    [fy]; either raises on a zero divisor. *)
Lemma projectPixelTo3dRay_zero_focal (s : PinholeCameraModel.t T)
      (cx_ cy_ fx_ fy_ u v : T) :
  PinholeCameraModel.cx s = (Ok cx_, s) ->
  PinholeCameraModel.cy s = (Ok cy_, s) ->
  PinholeCameraModel.fx s = (Ok fx_, s) ->
  PinholeCameraModel.fy s = (Ok fy_, s) ->
  feqb fx_ (of_int 0) = true \/ feqb fy_ (of_int 0) = true ->
  PinholeCameraModel.projectPixelTo3dRay (u, v) s
  = (Raise ZeroDivisionError, s).
Proof.
  intros Hcx Hcy Hfx Hfy H0. unfold PinholeCameraModel.projectPixelTo3dRay.
  rewrite (@bind_ok _ _ _ _ _ _ _ _ Hcx), (@bind_ok _ _ _ _ _ _ _ _ Hfx).
  unfold py_div at 1. destruct (feqb fx_ (of_int 0)) eqn:Ex; [reflexivity|].
  destruct H0 as [H0|H0]; [discriminate H0|].
  unfold lift at 1. unfold bind at 1.
  rewrite (@bind_ok _ _ _ _ _ _ _ _ Hcy), (@bind_ok _ _ _ _ _ _ _ _ Hfy).
  unfold py_div at 1. rewrite H0. reflexivity.
Qed.
End RayErrors.

Lemma at_least_one_not_zero (x : B64.float) :
  B64.at_least_one x ->
  @feqb _ binary64 x (of_int 0) = false /\
  @fltb _ binary64 x (of_int 0) = false.
Proof.
  destruct x as [s|s| |s m e]; cbn [B64.at_least_one]; intros H;
    try contradiction; try (subst; split; reflexivity).
  destruct H as [-> _]. split; reflexivity.
Qed.

(** In binary64 the squared norm [x*x + y*y + 1] is NaN, [+inf] or at least
    1, and so is its square root: with [fx] and [fy] other than zero
    [projectPixelTo3dRay] returns. *)
Lemma projectPixelTo3dRay_total (s : PinholeCameraModel.t B64.float)
      (cx_ cy_ fx_ fy_ u v : B64.float) :
  PinholeCameraModel.cx s = (Ok cx_, s) ->
  PinholeCameraModel.cy s = (Ok cy_, s) ->
  PinholeCameraModel.fx s = (Ok fx_, s) ->
  PinholeCameraModel.fy s = (Ok fy_, s) ->
  feqb fx_ (of_int 0) = false ->
  feqb fy_ (of_int 0) = false ->
  let x := fdiv (fsub u cx_) fx_ in
  let y := fdiv (fsub v cy_) fy_ in
  let n := fsqrt (fadd (fadd (fmul x x) (fmul y y)) (of_int 1)) in
  PinholeCameraModel.projectPixelTo3dRay (u, v) s
  = (Ok (fdiv x n, fdiv y n, fdiv (of_int 1) n), s).
Proof.
  intros Hcx Hcy Hfx Hfy Hx Hy x y n.
  assert (HA : B64.at_least_one (fadd (fadd (fmul x x) (fmul y y)) (of_int 1))).
  { apply add_one_at_least_one, add_not_negative;
      apply mul_self_not_negative. }
  assert (Hn : B64.at_least_one n) by (apply sqrt_at_least_one; exact HA).
  destruct (at_least_one_not_zero _ HA) as [_ HA0].
  destruct (at_least_one_not_zero _ Hn) as [Hn0 _].
  unfold PinholeCameraModel.projectPixelTo3dRay.
  rewrite (@bind_ok _ _ _ _ _ _ _ _ Hcx), (@bind_ok _ _ _ _ _ _ _ _ Hfx).
  unfold py_div at 1. rewrite Hx. unfold lift at 1, bind at 1.
  rewrite (@bind_ok _ _ _ _ _ _ _ _ Hcy), (@bind_ok _ _ _ _ _ _ _ _ Hfy).
  unfold py_div at 1. rewrite Hy. unfold lift at 1, bind at 1.
  fold x y. unfold py_sqrt. rewrite HA0. unfold lift at 1, bind at 1.
  fold n. unfold py_div. rewrite Hn0. reflexivity.
Qed.

Lemma div_one_not_negative (n : B64.float) :
  B64.at_least_one n -> B64.not_negative (B64.div (B64.of_Z 1) n).
Proof.
  rewrite one_binary64.
  destruct n as [s|s| |s m e]; cbn [B64.at_least_one]; intros H;
    try contradiction; try (subst; exact I || reflexivity).
  destruct H as [-> _]. unfold B64.div, SFdiv.
  destruct (SFdiv_core_binary _ _ _ _ _ _) as [[mz ez] lz].
  pose proof (binary_round_aux_sign (xorb false false) mz ez lz) as H.
  unfold B64.not_negative.
  destruct (binary_round_aux _ _ _ _ _ _); try exact I; exact H.
Qed.

Lemma not_negative_fltb (x : B64.float) :
  B64.not_negative x -> @fltb _ binary64 x (of_int 0) = false.
Proof.
  destruct x as [s|s| |s m e]; cbn [B64.not_negative]; intros H; subst;
    reflexivity.
Qed.

Lemma sample_flat_calibrated :
  calibrated (Sample.camera Sample.flat_info).
Proof.
  exists Sample.flat_info, PinholeCameraModel.init.
  split; [reflexivity | vm_compute; reflexivity].
Defined.

(** C10, as the code has it (binary64).  On a calibrated model whose
    adjusted [P] has [fx == 0] or [fy == 0], [projectPixelTo3dRay] raises
    [ZeroDivisionError] for every pixel; when neither is zero it returns,
    for every pixel, a vector whose z component is not negative.  When the
    squared norm [x*x + y*y + 1] that the method computes is finite, the
    three components are finite, the sum of their squares is within [2^-48]
    of 1 and the z component is positive; when it is [+inf] or NaN, the z
    component is not positive.  The squared norm is finite when the pixel
    and the principal point are below [2^250] in magnitude and [fx] and
    [fy] are normal numbers of magnitude between [2^-250] and [2^250]. *)
Theorem C10_ray_zero_focal_and_unit_norm :
  forall (s : PinholeCameraModel.t B64.float) (u v : B64.float),
    calibrated s ->
    exists fx fy cx cy,
      PinholeCameraModel.fx s = (Ok fx, s) /\
      PinholeCameraModel.fy s = (Ok fy, s) /\
      PinholeCameraModel.cx s = (Ok cx, s) /\
      PinholeCameraModel.cy s = (Ok cy, s) /\
      (feqb fx (of_int 0) = true \/ feqb fy (of_int 0) = true ->
       PinholeCameraModel.projectPixelTo3dRay (u, v) s
       = (Raise ZeroDivisionError, s)) /\
      (feqb fx (of_int 0) = false -> feqb fy (of_int 0) = false ->
       let x := fdiv (fsub u cx) fx in
       let y := fdiv (fsub v cy) fy in
       let S := fadd (fadd (fmul x x) (fmul y y)) (of_int 1) in
       exists a b c,
         PinholeCameraModel.projectPixelTo3dRay (u, v) s
         = (Ok (a, b, c), s) /\
         fltb c (of_int 0) = false /\
         (B64.is_finite S = true ->
          B64.is_finite a = true /\ B64.is_finite b = true /\
          B64.is_finite c = true /\
          (Rabs (B2R a * B2R a + B2R b * B2R b + B2R c * B2R c - 1)
           <= p2 (-48))%R /\
          (0 < B2R c)%R) /\
         (B64.is_finite S = false -> fltb (of_int 0) c = false) /\
         (bounded_by 250 u = true -> bounded_by 250 v = true ->
          bounded_by 250 cx = true -> bounded_by 250 cy = true ->
          in_range 250 fx = true -> in_range 250 fy = true ->
          B64.is_finite S = true)).
Proof.
  intros s u v Hc.
  destruct (calibrated_P of_int_nonzero_binary64 Hc)
    as (p00 & p01 & p02 & p03 & p10 & p11 & p12 & p13 & p20 & p21 & p22
        & p23 & HP).
  destruct (accessors_3x4 s HP) as (Hfx & Hfy & Hcx & Hcy & _).
  exists p00, p11, p02, p12.
  split; [exact Hfx|]. split; [exact Hfy|].
  split; [exact Hcx|]. split; [exact Hcy|]. split.
  - intros H0.
    exact (projectPixelTo3dRay_zero_focal u v Hcx Hcy Hfx Hfy H0).
  - intros Hx Hy x y S.
    rewrite (projectPixelTo3dRay_total u v Hcx Hcy Hfx Hfy Hx Hy).
    fold x y S.
    assert (AS : B64.at_least_one S).
    { apply add_one_at_least_one, add_not_negative;
        apply mul_self_not_negative. }
    eexists _, _, _. split; [reflexivity|]. split; [|split; [|split]].
    + apply not_negative_fltb, div_one_not_negative, sqrt_at_least_one.
      exact AS.
    + intros FS.
      exact (@ray_norm x y (div_valid _ _) (div_valid _ _) FS).
    + intros FS. exact (ray_overflow _ AS FS).
    + intros Bu Bv Bcx Bcy Bfx Bfy.
      destruct (coordinate_size _ _ _ Bu Bcx Bfx) as [Fx Sx].
      destruct (coordinate_size _ _ _ Bv Bcy Bfy) as [Fy Sy].
      exact (@squared_norm_finite x y (div_valid _ _) (div_valid _ _)
               Fx Fy Sx Sy).
Qed.

Lemma C10_ray_zero_focal_and_unit_norm_witness :
  PinholeCameraModel.projectPixelTo3dRay (Sample.fl 320, Sample.fl 240)
    (Sample.camera Sample.flat_info)
  = (Raise ZeroDivisionError, Sample.camera Sample.flat_info)
  /\
  exists a b c,
    PinholeCameraModel.projectPixelTo3dRay (Sample.fl 620, Sample.fl 640)
      (Sample.camera Sample.left_info)
    = (Ok (a, b, c), Sample.camera Sample.left_info) /\
    fltb c (of_int 0) = false /\
    B64.is_finite a = true /\ B64.is_finite b = true /\
    B64.is_finite c = true /\
    (Rabs (B2R a * B2R a + B2R b * B2R b + B2R c * B2R c - 1)
     <= p2 (-48))%R /\
    (0 < B2R c)%R.
Proof.
  split.
  - destruct (@C10_ray_zero_focal_and_unit_norm
                (Sample.camera Sample.flat_info) (Sample.fl 320)
                (Sample.fl 240) sample_flat_calibrated)
      as (fx & fy & cx & cy & Hfx & Hfy & Hcx & Hcy & H & _).
    vm_compute in Hfx. injection Hfx as <-.
    apply H. left. reflexivity.
  - destruct (@C10_ray_zero_focal_and_unit_norm
                (Sample.camera Sample.left_info) (Sample.fl 620)
                (Sample.fl 640) sample_left_calibrated)
      as (fx & fy & cx & cy & Hfx & Hfy & Hcx & Hcy & _ & H).
    vm_compute in Hfx. injection Hfx as <-.
    vm_compute in Hfy. injection Hfy as <-.
    vm_compute in Hcx. injection Hcx as <-.
    vm_compute in Hcy. injection Hcy as <-.
    destruct (H eq_refl eq_refl) as (a & b & c & Hr & Hs & Hn & _ & Hi).
    exists a, b, c. split; [exact Hr|]. split; [exact Hs|].
    exact (Hn (Hi eq_refl eq_refl eq_refl eq_refl eq_refl eq_refl)).
Defined.

(** On the sample camera ([fx = fy = 500]), the pixel [(2^600, 240)]
    overflows the squared norm: the ray returned is the zero vector, of
    norm 0 and with a z component that is not positive. *)
Lemma C10_counterexample :
  calibrated (Sample.camera Sample.left_info) /\
  PinholeCameraModel.fx (Sample.camera Sample.left_info)
  = (Ok (Sample.fl 500), Sample.camera Sample.left_info) /\
  PinholeCameraModel.fy (Sample.camera Sample.left_info)
  = (Ok (Sample.fl 500), Sample.camera Sample.left_info) /\
  PinholeCameraModel.projectPixelTo3dRay (B64.lit 1 600, Sample.fl 240)
    (Sample.camera Sample.left_info)
  = (Ok (Sample.fl 0, Sample.fl 0, Sample.fl 0),
     Sample.camera Sample.left_info) /\
  fltb (Sample.fl 0) (Sample.fl 0) = false.
Proof.
  split; [exact sample_left_calibrated|].
  split; [|split; [|split]]; vm_compute; reflexivity.
Qed.

(* ===================================================================== *)
(** * Projection followed by back-projection *)
(* ===================================================================== *)



(* ===================================================================== *)
(** * Recalibration *)
(* ===================================================================== *)

(** X1. [fromCameraInfo] assigns every attribute: the model it leaves
    depends on the message only, not on what the model held before.  So a
    second calibration wipes out the first, and calibrating twice with the
    same message is the same as once. *)
Theorem X1_fromCameraInfo_overwrites :
  forall (msg1 msg2 : CameraInfo.t B64.float)
         (s0 s1 : PinholeCameraModel.t B64.float),
    CameraInfo.valid msg1 = true ->
    CameraInfo.valid msg2 = true ->
    PinholeCameraModel.fromCameraInfo msg2 s0
    = PinholeCameraModel.fromCameraInfo msg2 s1 /\
    (PinholeCameraModel.fromCameraInfo msg1 ;;
     PinholeCameraModel.fromCameraInfo msg2) s0
    = PinholeCameraModel.fromCameraInfo msg2 s0 /\
    (PinholeCameraModel.fromCameraInfo msg2 ;;
     PinholeCameraModel.fromCameraInfo msg2) s0
    = PinholeCameraModel.fromCameraInfo msg2 s0.
Proof.
  intros msg1 msg2 s0 s1 H1 H2.
  pose proof (fun s => fromCameraInfo_calibration of_int_nonzero_binary64
                         msg1 s H1) as E1.
  pose proof (fun s => fromCameraInfo_calibration of_int_nonzero_binary64
                         msg2 s H2) as E2.
  split; [now rewrite !E2|].
  split.
  - rewrite (@bind_ok _ _ _ _ _ _ _ _ (E1 s0)). now rewrite !E2.
  - rewrite (@bind_ok _ _ _ _ _ _ _ _ (E2 s0)). now rewrite !E2.
Qed.

Lemma X1_fromCameraInfo_overwrites_witness :
  (PinholeCameraModel.fromCameraInfo Sample.right_info ;;
   PinholeCameraModel.fromCameraInfo Sample.left_info)
    PinholeCameraModel.init
  = PinholeCameraModel.fromCameraInfo Sample.left_info
      PinholeCameraModel.init.
Proof.
  exact (proj1 (proj2 (@X1_fromCameraInfo_overwrites Sample.right_info
                         Sample.left_info PinholeCameraModel.init
                         PinholeCameraModel.init eq_refl eq_refl))).
Defined.

(** X2. The stereo [fromCameraInfo] likewise: whether it raises depends on
    the two messages only, and when it returns, so does the model it
    leaves ([left], [right] and [Q]). *)
Theorem X2_stereo_fromCameraInfo_overwrites :
  forall (left_msg right_msg : CameraInfo.t B64.float)
         (s0 s1 : StereoCameraModel.t B64.float),
    CameraInfo.valid left_msg = true ->
    CameraInfo.valid right_msg = true ->
    fst (StereoCameraModel.fromCameraInfo left_msg right_msg s0)
    = fst (StereoCameraModel.fromCameraInfo left_msg right_msg s1) /\
    (fst (StereoCameraModel.fromCameraInfo left_msg right_msg s0) = Ok tt ->
     StereoCameraModel.fromCameraInfo left_msg right_msg s0
     = StereoCameraModel.fromCameraInfo left_msg right_msg s1).
Proof.
  intros lm rm s0 s1 Hl Hr.
  assert (Hc : calibrated (calibration rm)).
  { exists rm, PinholeCameraModel.init. split; [exact Hr|].
    now apply fromCameraInfo_calibration, Hr; apply of_int_nonzero_binary64. }
  destruct (calibrated_P of_int_nonzero_binary64 Hc)
    as (p00 & p01 & p02 & p03 & p10 & p11 & p12 & p13 & p20 & p21 & p22 & p23
        & HP).
  rewrite !(@stereo_fromCameraInfo_cases _ _ of_int_nonzero_binary64 lm rm _
              _ _ _ _ _ _ _ _ _ _ _ _ Hl Hr HP).
  destruct (feqb p00 (of_int 0)); [split; [reflexivity | discriminate]|].
  destruct (feqb _ (of_int 0)); [split; [reflexivity | discriminate]|].
  split; reflexivity.
Qed.

Lemma X2_stereo_fromCameraInfo_overwrites_witness :
  StereoCameraModel.fromCameraInfo Sample.left_info Sample.right_info
    StereoCameraModel.init
  = StereoCameraModel.fromCameraInfo Sample.left_info Sample.right_info
      (Sample.stereo Sample.right_info Sample.right_info).
Proof.
  apply (proj2 (@X2_stereo_fromCameraInfo_overwrites Sample.left_info
                  Sample.right_info StereoCameraModel.init
                  (Sample.stereo Sample.right_info Sample.right_info)
                  eq_refl eq_refl)).
  vm_compute. reflexivity.
Defined.

(* ===================================================================== *)
(** * The accessors of a calibrated model *)
(* ===================================================================== *)

(** X3. After [fromCameraInfo(msg)]: [distortionCoeffs()] is [None] for an
    empty [msg.D] and the column matrix of [msg.D] otherwise;
    [rotationMatrix()], [fullIntrinsicMatrix()] and [fullProjectionMatrix()]
    are the matrices of the message as they came; [fx()], [fy()], [cx()]
    and [cy()] are the entries of [msg.P] adjusted for binning and ROI;
    [Tx()] and [Ty()] are [msg.P[0,3]] and [msg.P[1,3]] as they came,
    whatever the binning. *)
Theorem X3_accessors_after_calibration :
  forall (msg : CameraInfo.t B64.float)
         (s0 s : PinholeCameraModel.t B64.float),
    CameraInfo.valid msg = true ->
    PinholeCameraModel.fromCameraInfo msg s0 = (Ok tt, s) ->
    let raw := mkmat 3 4 (CameraInfo.P msg) in
    let bx := of_int (Z.max 1 (CameraInfo.binning_x msg)) in
    let by_ := of_int (Z.max 1 (CameraInfo.binning_y msg)) in
    let xo := of_int (RegionOfInterest.x_offset (CameraInfo.roi msg)) in
    let yo := of_int (RegionOfInterest.y_offset (CameraInfo.roi msg)) in
    PinholeCameraModel.distortionCoeffs s
    = (Ok (match CameraInfo.D msg with
           | [] => None
           | _ :: _ => Some (mkmat (List.length (CameraInfo.D msg)) 1
                                   (CameraInfo.D msg))
           end), s) /\
    PinholeCameraModel.rotationMatrix s
    = (Ok (Some (mkmat 3 3 (CameraInfo.R msg))), s) /\
    PinholeCameraModel.fullIntrinsicMatrix s
    = (Ok (Some (mkmat 3 3 (CameraInfo.K msg))), s) /\
    PinholeCameraModel.fullProjectionMatrix s = (Ok (Some raw), s) /\
    exists p00 p02 p03 p11 p12 p13,
      mat_get raw 0 0 = Ok p00 /\ mat_get raw 0 2 = Ok p02 /\
      mat_get raw 0 3 = Ok p03 /\ mat_get raw 1 1 = Ok p11 /\
      mat_get raw 1 2 = Ok p12 /\ mat_get raw 1 3 = Ok p13 /\
      PinholeCameraModel.fx s = (Ok (fdiv p00 bx), s) /\
      PinholeCameraModel.fy s = (Ok (fdiv p11 by_), s) /\
      PinholeCameraModel.cx s = (Ok (fdiv (fsub p02 xo) bx), s) /\
      PinholeCameraModel.cy s = (Ok (fdiv (fsub p12 yo) by_), s) /\
      PinholeCameraModel.Tx s = (Ok p03, s) /\
      PinholeCameraModel.Ty s = (Ok p13, s).
Proof.
  intros msg s0 s Hv Hs.
  rewrite (fromCameraInfo_calibration of_int_nonzero_binary64 _ _ Hv) in Hs.
  injection Hs as <-.
  destruct (valid_ranges msg Hv) as (_ & _ & HP & _).
  destruct msg as [hdr h w D0 K0 R0 P0 bx by_ roi].
  cbn [CameraInfo.P] in HP. list_of_length P0 HP.
  cbn [CameraInfo.K CameraInfo.P CameraInfo.binning_x CameraInfo.binning_y
       CameraInfo.roi CameraInfo.D CameraInfo.R].
  repeat (split; [reflexivity|]).
  eexists _, _, _, _, _, _. repeat (split; [reflexivity|]). reflexivity.
Qed.

Lemma X3_accessors_after_calibration_witness :
  PinholeCameraModel.Tx (Sample.camera Sample.right_info)
  = (Ok (Sample.fl (-50000)), Sample.camera Sample.right_info).
Proof.
  destruct (@X3_accessors_after_calibration Sample.right_info
              PinholeCameraModel.init (Sample.camera Sample.right_info)
              eq_refl)
    as (_ & _ & _ & _ & p00 & p02 & p03 & p11 & p12 & p13
        & _ & _ & H03 & _ & _ & _ & _ & _ & _ & _ & HT & _).
  - vm_compute. reflexivity.
  - vm_compute in H03. injection H03 as <-. exact HT.
Defined.

(** With a binning of 2 the focal length read by [fx()] is halved and the
    translation read by [Tx()] is not. *)
Example binning_scales_fx_not_Tx :
  let msg :=
    {| CameraInfo.header := Sample.header "right";
       CameraInfo.height := 480; CameraInfo.width := 640;
       CameraInfo.D := [];
       CameraInfo.K := map Sample.fl [500; 0; 320; 0; 500; 240; 0; 0; 1]%Z;
       CameraInfo.R := map Sample.fl [1; 0; 0; 0; 1; 0; 0; 0; 1]%Z;
       CameraInfo.P :=
         map Sample.fl [500; 0; 320; -50000; 0; 500; 240; 0; 0; 0; 1; 0]%Z;
       CameraInfo.binning_x := 2; CameraInfo.binning_y := 2;
       CameraInfo.roi := Sample.roi 0 0 0 0 |} in
  fst (PinholeCameraModel.fx (Sample.camera msg)) = Ok (Sample.fl 250) /\
  fst (PinholeCameraModel.Tx (Sample.camera msg)) = Ok (Sample.fl (-50000)).
Proof. split; vm_compute; reflexivity. Qed.

(* ===================================================================== *)
(** * Use before calibration *)
(* ===================================================================== *)

(** X4. On a model whose [P] is still [None] (as [__init__] leaves it) every
    method that indexes the projection matrix raises [TypeError] and leaves
    the model as it was: the six scalar accessors, [projectPixelTo3dRay] and
    the four delta conversions; [getDeltaU] and [getDeltaV] read [P] before
    they test [Z], so they raise at [Z == 0] too.  [projectionMatrix()]
    returns [None]. *)
Theorem X4_uncalibrated_model_raises_TypeError :
  forall (T : Type) (F : PyFloat T) (s : PinholeCameraModel.t T),
    PinholeCameraModel.P s = None ->
    (forall m, In m [PinholeCameraModel.cx; PinholeCameraModel.cy;
                     PinholeCameraModel.fx; PinholeCameraModel.fy;
                     PinholeCameraModel.Tx; PinholeCameraModel.Ty] ->
               m s = (Raise TypeError, s)) /\
    (forall uv,
        PinholeCameraModel.projectPixelTo3dRay uv s = (Raise TypeError, s)) /\
    (forall d Z,
        PinholeCameraModel.getDeltaU d Z s = (Raise TypeError, s) /\
        PinholeCameraModel.getDeltaV d Z s = (Raise TypeError, s) /\
        PinholeCameraModel.getDeltaX d Z s = (Raise TypeError, s) /\
        PinholeCameraModel.getDeltaY d Z s = (Raise TypeError, s)) /\
    PinholeCameraModel.projectionMatrix s = (Ok None, s).
Proof.
  intros T F s HP.
  assert (L : forall i j, PinholeCameraModel.load_P i j s = (Raise TypeError, s)).
  { intros i j. unfold PinholeCameraModel.load_P, bind, attr. now rewrite HP. }
  split; [|split; [|split]].
  - intros m Hm. cbn [In] in Hm.
    repeat (destruct Hm as [<-|Hm]; [apply L|]). contradiction.
  - intros [u v].
    unfold PinholeCameraModel.projectPixelTo3dRay, PinholeCameraModel.cx, bind.
    now rewrite L.
  - intros d Z.
    unfold PinholeCameraModel.getDeltaU, PinholeCameraModel.getDeltaV,
      PinholeCameraModel.getDeltaX, PinholeCameraModel.getDeltaY, bind.
    rewrite !L. repeat split.
  - unfold PinholeCameraModel.projectionMatrix, gets. now rewrite HP.
Qed.

(** X5. On a stereo model that was never calibrated: [projectPixelTo3d]
    raises [AttributeError] when [Q] was never assigned; when the right
    camera has no [P], [getZ] and [getDisparity] still answer [+inf] for a
    zero argument (the test comes before [P] is read) and raise [TypeError]
    for any other.  The model is left as it was. *)
Theorem X5_uncalibrated_stereo_model :
  forall (T : Type) (F : PyFloat T) (s : StereoCameraModel.t T),
    (StereoCameraModel.Q s = None ->
     forall uv d,
       StereoCameraModel.projectPixelTo3d uv d s = (Raise AttributeError, s))
    /\
    (PinholeCameraModel.P (StereoCameraModel.right s) = None ->
     forall d,
       StereoCameraModel.getZ d s
       = (if feqb d (of_int 0) then Ok finf else Raise TypeError, s) /\
       StereoCameraModel.getDisparity d s
       = (if feqb d (of_int 0) then Ok finf else Raise TypeError, s)).
Proof.
  intros T F [l r q]. cbn [StereoCameraModel.Q StereoCameraModel.left
                       StereoCameraModel.right].
  split.
  - intros -> [u v] d.
    unfold StereoCameraModel.projectPixelTo3d, bind, StereoCameraModel.attr_Q.
    reflexivity.
  - intros HP d.
    unfold StereoCameraModel.getZ, StereoCameraModel.getDisparity.
    destruct (feqb d (of_int 0)); [split; reflexivity|].
    unfold bind, StereoCameraModel.on_right, PinholeCameraModel.load_P, bind,
      attr. cbn [StereoCameraModel.right]. rewrite HP.
    destruct r; cbn in *; subst; split; reflexivity.
Qed.

Lemma X4_uncalibrated_model_raises_TypeError_witness :
  PinholeCameraModel.getDeltaU (Sample.fl 1) (Sample.fl 0)
    PinholeCameraModel.init
  = (Raise TypeError, PinholeCameraModel.init).
Proof.
  exact (proj1 (proj1 (proj2 (proj2
           (@X4_uncalibrated_model_raises_TypeError _ binary64
              PinholeCameraModel.init eq_refl)))
           (Sample.fl 1) (Sample.fl 0))).
Defined.

Lemma X5_uncalibrated_stereo_model_witness :
  StereoCameraModel.projectPixelTo3d (Sample.fl 320, Sample.fl 240)
    (Sample.fl 5) StereoCameraModel.init
  = (Raise AttributeError, StereoCameraModel.init) /\
  StereoCameraModel.getZ (Sample.fl 0) StereoCameraModel.init
  = (Ok finf, StereoCameraModel.init) /\
  StereoCameraModel.getZ (Sample.fl 5) StereoCameraModel.init
  = (Raise TypeError, StereoCameraModel.init).
Proof.
  pose proof (@X5_uncalibrated_stereo_model _ binary64 StereoCameraModel.init)
    as (HQ & HZ).
  split; [exact (HQ eq_refl (Sample.fl 320, Sample.fl 240) (Sample.fl 5))|].
  split; [exact (proj1 (HZ eq_refl (Sample.fl 0)))|].
  exact (proj1 (HZ eq_refl (Sample.fl 5))).
Defined.

(* ===================================================================== *)
(** * The reprojection matrix of a calibrated pair *)
(* ===================================================================== *)

Section StereoReprojection.
Context {T : Type} {F : PyFloat T}.
Hypothesis of_int_nonzero :
  forall n : Z, (1 <= n < 2 ^ 32)%Z -> feqb (of_int n) (of_int 0) = false.

(** The reprojection matrix of a calibrated stereo model, read off the
    projection matrix of its right camera. *)
Lemma stereo_calibrated_Q (s : StereoCameraModel.t T)
      (p00 p01 p02 p03 p10 p11 p12 p13 p20 p21 p22 p23 : T) :
  stereo_calibrated s ->
  PinholeCameraModel.P (StereoCameraModel.right s)
  = Some (mkmat 3 4 [p00; p01; p02; p03; p10; p11; p12; p13;
                     p20; p21; p22; p23]) ->
  feqb p00 (of_int 0) = false /\
  feqb (fdiv (fneg p03) p00) (of_int 0) = false /\
  StereoCameraModel.Q s
  = Some (Q_matrix p00 p02 p12 (fdiv (of_int 1) (fdiv (fneg p03) p00))).
Proof.
  intros (lm & rm & s0 & Hl & Hr & Hs) HP.
  assert (Hc : calibrated (calibration rm)).
  { exists rm, PinholeCameraModel.init. split; [exact Hr|].
    now apply fromCameraInfo_calibration. }
  destruct (calibrated_P of_int_nonzero Hc)
    as (q00 & q01 & q02 & q03 & q10 & q11 & q12 & q13 & q20 & q21 & q22 & q23
        & HQ).
  rewrite (@stereo_fromCameraInfo_cases _ _ of_int_nonzero lm rm s0 _ _ _ _ _ _ _ _ _ _ _ _ Hl Hr HQ)
    in Hs.
  destruct (feqb q00 (of_int 0)) eqn:E0; [discriminate Hs|].
  destruct (feqb (fdiv (fneg q03) q00) (of_int 0)) eqn:E1; [discriminate Hs|].
  injection Hs as <-.
  cbn [StereoCameraModel.right StereoCameraModel.set_Q StereoCameraModel.Q]
    in HP |- *.
  rewrite HQ in HP. injection HP as -> -> -> -> -> -> -> -> -> -> -> ->.
  repeat split; assumption.
Qed.
End StereoReprojection.

(* ===================================================================== *)
(** * The reprojection matrix comes from the right camera *)
(* ===================================================================== *)

(** X10. The stereo [fromCameraInfo] computes [Q] from the projection
    matrix of the right camera alone: with the same right message, two
    left messages (and two models to start from) give the same outcome,
    and when the call returns the same [Q] and the same right camera. *)
Theorem X10_Q_from_right_camera_only :
  forall (left1 left2 right_msg : CameraInfo.t B64.float)
         (s1 s2 : StereoCameraModel.t B64.float),
    CameraInfo.valid left1 = true ->
    CameraInfo.valid left2 = true ->
    CameraInfo.valid right_msg = true ->
    let r1 := StereoCameraModel.fromCameraInfo left1 right_msg s1 in
    let r2 := StereoCameraModel.fromCameraInfo left2 right_msg s2 in
    fst r1 = fst r2 /\
    StereoCameraModel.right (snd r1) = StereoCameraModel.right (snd r2) /\
    (fst r1 = Ok tt ->
     StereoCameraModel.Q (snd r1) = StereoCameraModel.Q (snd r2)).
Proof.
  intros l1 l2 rm s1 s2 H1 H2 Hr r1 r2. subst r1 r2.
  assert (Hc : calibrated (calibration rm)).
  { exists rm, PinholeCameraModel.init. split; [exact Hr|].
    now apply (fromCameraInfo_calibration of_int_nonzero_binary64). }
  destruct (calibrated_P of_int_nonzero_binary64 Hc)
    as (p00 & p01 & p02 & p03 & p10 & p11 & p12 & p13 & p20 & p21 & p22 & p23
        & HP).
  rewrite (@stereo_fromCameraInfo_cases _ _ of_int_nonzero_binary64 l1 rm s1
             _ _ _ _ _ _ _ _ _ _ _ _ H1 Hr HP).
  rewrite (@stereo_fromCameraInfo_cases _ _ of_int_nonzero_binary64 l2 rm s2
             _ _ _ _ _ _ _ _ _ _ _ _ H2 Hr HP).
  destruct (feqb p00 (of_int 0));
    [|destruct (feqb (fdiv (fneg p03) p00) (of_int 0))];
    (split; [reflexivity|split; [reflexivity|]]);
    intros E; try discriminate E; reflexivity.
Qed.

Lemma X10_Q_from_right_camera_only_witness :
  StereoCameraModel.Q
    (snd (StereoCameraModel.fromCameraInfo Sample.left_info Sample.right_info
            StereoCameraModel.init))
  = StereoCameraModel.Q
      (snd (StereoCameraModel.fromCameraInfo Sample.flat_info
              Sample.right_info StereoCameraModel.init)).
Proof.
  apply (proj2 (proj2 (@X10_Q_from_right_camera_only Sample.left_info
           Sample.flat_info Sample.right_info StereoCameraModel.init
           StereoCameraModel.init eq_refl eq_refl eq_refl))).
  vm_compute. reflexivity.
Defined.

(* ===================================================================== *)
(** * Zero disparity and the principal point (binary64) *)
(* ===================================================================== *)

(** The last row of the reprojection product at a zero disparity. *)
Lemma zero_disparity_W (u v q d : B64.float) :
  B64.is_finite u = true -> B64.is_finite v = true ->
  B64.is_finite q = true ->
  @feqb _ binary64 d (of_int 0) = true ->
  @feqb _ binary64
    (fadd (fadd (fadd (fadd (of_int 0) (fmul (of_int 0) u))
                      (fmul (of_int 0) v))
                (fmul q d)) (fmul (of_int 0) (of_int 1))) (of_int 0) = true.
Proof.
  destruct d as [sd|[]| |[] md ed]; try discriminate.
  destruct u as [[]|su| |[] mu eu]; try discriminate; intros _;
    (destruct v as [[]|sv| |[] mv ev]; try discriminate; intros _);
    (destruct q as [[]|sq| |[] mq eq_]; try discriminate; intros _ _);
    destruct sd; reflexivity.
Qed.

(** X11. In binary64, on a calibrated stereo model whose [Q[3,2]] is
    finite, the triangulation of a finite pixel with a zero disparity
    returns the origin [(0, 0, 0)]. *)
Theorem X11_zero_disparity_is_origin :
  forall (s : StereoCameraModel.t B64.float) (Qm : CvMat B64.float)
         (u v d q32 : B64.float),
    stereo_calibrated s ->
    StereoCameraModel.Q s = Some Qm ->
    mat_get Qm 3 2 = Ok q32 ->
    B64.is_finite q32 = true ->
    B64.is_finite u = true -> B64.is_finite v = true ->
    feqb d (of_int 0) = true ->
    StereoCameraModel.projectPixelTo3d (u, v) d s
    = (Ok (Sample.fl 0, Sample.fl 0, Sample.fl 0), s).
Proof.
  intros s Qm u v d q32 Hs HQ Hq Fq Fu Fv Hd.
  destruct (stereo_calibrated_shape of_int_nonzero_binary64 Hs)
    as (_ & _ & Hr).
  destruct (calibrated_P of_int_nonzero_binary64 Hr)
    as (p00 & p01 & p02 & p03 & p10 & p11 & p12 & p13 & p20 & p21 & p22 & p23
        & HP).
  destruct (@stereo_calibrated_Q _ _ of_int_nonzero_binary64 s _ _ _ _ _ _ _ _
              _ _ _ _ Hs HP) as (_ & _ & HQ').
  remember (@fdiv _ binary64 (of_int 1) (fdiv (fneg p03) p00)) as q eqn:Eq.
  clear Eq. rewrite HQ' in HQ. injection HQ as <-.
  unfold mat_get, Q_matrix, mkmat in Hq.
  cbn [rows cols data Nat.ltb Nat.leb andb nth_error Nat.mul Nat.add] in Hq.
  injection Hq as ->.
  destruct (@projectPixelTo3d_4x4 _ _ s _ u v d HQ'
              eq_refl eq_refl eq_refl) as [_ Hp].
  rewrite Hp. clear Hp.
  unfold py_ne0, MatMul_entry, elt, Q_matrix, mkmat.
  cbn [seq fold_left cols rows data nth Nat.mul Nat.add].
  rewrite (@zero_disparity_W u v q32 d Fu Fv Fq Hd).
  reflexivity.
Qed.

Lemma X11_zero_disparity_is_origin_witness :
  StereoCameraModel.projectPixelTo3d (Sample.fl 320, Sample.fl 240)
    (Sample.fl 0) (Sample.stereo Sample.left_info Sample.right_info)
  = (Ok (Sample.fl 0, Sample.fl 0, Sample.fl 0),
     Sample.stereo Sample.left_info Sample.right_info).
Proof.
  apply (@X11_zero_disparity_is_origin
           (Sample.stereo Sample.left_info Sample.right_info)
           (Q_matrix (Sample.fl 500) (Sample.fl 320) (Sample.fl 240)
                     (fdiv (Sample.fl 1) (Sample.fl 100)))
           (Sample.fl 320) (Sample.fl 240) (Sample.fl 0)
           (fdiv (Sample.fl 1) (Sample.fl 100))
           sample_stereo_calibrated);
    vm_compute; reflexivity.
Defined.

(** With a baseline so small that [1 / tx] overflows, [Q[3,2]] is an
    infinity and a zero disparity gives NaN, not the origin. *)
Example zero_disparity_infinite_Q32 :
  let msg :=
    {| CameraInfo.header := Sample.header "right";
       CameraInfo.height := 480; CameraInfo.width := 640;
       CameraInfo.D := [];
       CameraInfo.K := map Sample.fl [1; 0; 320; 0; 1; 240; 0; 0; 1]%Z;
       CameraInfo.R := map Sample.fl [1; 0; 0; 0; 1; 0; 0; 0; 1]%Z;
       CameraInfo.P :=
         [Sample.fl 1; Sample.fl 0; Sample.fl 320; B64.lit 1 (-1074);
          Sample.fl 0; Sample.fl 1; Sample.fl 240; Sample.fl 0;
          Sample.fl 0; Sample.fl 0; Sample.fl 1; Sample.fl 0];
       CameraInfo.binning_x := 0; CameraInfo.binning_y := 0;
       CameraInfo.roi := Sample.roi 0 0 0 0 |} in
  stereo_calibrated (Sample.stereo msg msg) /\
  fst (StereoCameraModel.projectPixelTo3d (Sample.fl 320, Sample.fl 240)
         (Sample.fl 0) (Sample.stereo msg msg))
  = Ok (fnan, fnan, fnan).
Proof.
  intros msg. split.
  - exists msg, msg, StereoCameraModel.init.
    split; [reflexivity | split; [reflexivity | vm_compute; reflexivity]].
  - vm_compute. reflexivity.
Qed.

(** ** The ray through the principal point *)

Lemma sub_self_binary64 (x : B64.float) :
  B64.is_finite x = true -> B64.sub x x = S754_zero false.
Proof.
  destruct x as [[]|s| |s m e]; try discriminate; intros _; try reflexivity.
  unfold B64.sub, SFsub. rewrite Z.sub_diag. reflexivity.
Qed.

(** X12. In binary64, on a model whose [cx] and [cy] are finite and whose
    [fx] and [fy] are neither 0 nor NaN, the ray through the principal point
    [(cx, cy)] is the optical axis: its [x] and [y] are zeros and its [z] is
    exactly 1. *)
Theorem X12_ray_through_principal_point :
  forall (s : PinholeCameraModel.t B64.float) (cx_ cy_ fx_ fy_ : B64.float),
    PinholeCameraModel.cx s = (Ok cx_, s) ->
    PinholeCameraModel.cy s = (Ok cy_, s) ->
    PinholeCameraModel.fx s = (Ok fx_, s) ->
    PinholeCameraModel.fy s = (Ok fy_, s) ->
    B64.is_finite cx_ = true -> B64.is_finite cy_ = true ->
    feqb fx_ (of_int 0) = false -> B64.is_nan fx_ = false ->
    feqb fy_ (of_int 0) = false -> B64.is_nan fy_ = false ->
    exists a b,
      PinholeCameraModel.projectPixelTo3dRay (cx_, cy_) s
      = (Ok (a, b, Sample.fl 1), s) /\
      feqb a (of_int 0) = true /\ feqb b (of_int 0) = true.
Proof.
  intros s cx_ cy_ fx_ fy_ Hcx Hcy Hfx Hfy Fx Fy Zx Nx Zy Ny.
  rewrite (@projectPixelTo3dRay_total s cx_ cy_ fx_ fy_ cx_ cy_
             Hcx Hcy Hfx Hfy Zx Zy).
  change (@fsub _ binary64) with B64.sub.
  rewrite (sub_self_binary64 _ Fx), (sub_self_binary64 _ Fy).
  destruct fx_ as [sx|[]| |[] mx ex]; try discriminate;
    destruct fy_ as [sy|[]| |[] my ey]; try discriminate;
    eexists _, _; (split; [vm_compute; reflexivity|]); split; reflexivity.
Qed.

Lemma X12_ray_through_principal_point_witness :
  exists a b,
    PinholeCameraModel.projectPixelTo3dRay (Sample.fl 320, Sample.fl 240)
      (Sample.camera Sample.left_info)
    = (Ok (a, b, Sample.fl 1), Sample.camera Sample.left_info) /\
    feqb a (of_int 0) = true /\ feqb b (of_int 0) = true.
Proof.
  apply (@X12_ray_through_principal_point (Sample.camera Sample.left_info)
           (Sample.fl 320) (Sample.fl 240) (Sample.fl 500) (Sample.fl 500));
    vm_compute; reflexivity.
Defined.

(* ===================================================================== *)
(** * Division by one (binary64) *)
(* ===================================================================== *)

Lemma div_eucl_exact (a b : Z) :
  (0 < b)%Z -> Z.div_eucl (a * b) b = (a, 0%Z).
Proof.
  intros Hb.
  assert (Hq : (a * b / b = a)%Z) by (apply Z.div_mul; lia).
  assert (Hr : ((a * b) mod b = 0)%Z) by (apply Z.mod_mul; lia).
  unfold Z.div, Z.modulo in Hq, Hr.
  destruct (Z.div_eucl (a * b) b) as [q r]. now subst.
Qed.

Lemma binary_round_aux_canonical_exact (s : bool) (m : positive) (e : Z) :
  bounded B64.prec B64.emax m e = true ->
  binary_round_aux B64.prec B64.emax s (Zpos m) e loc_Exact
  = S754_finite s m e.
Proof.
  unfold bounded, canonical_mantissa. intros H.
  apply andb_prop in H. destruct H as [Hc He].
  apply Z.eqb_eq in Hc.
  unfold binary_round_aux, shr_fexp. cbn [Zdigits2 shr_record_of_loc].
  rewrite Hc, Z.sub_diag. cbn [shr shr_m loc_of_shr_record round_nearest_even
                               Zdigits2 shr_record_of_loc].
  rewrite Hc, Z.sub_diag. cbn [shr shr_m]. now rewrite He.
Qed.

Lemma binary_round_aux_double_exact (s : bool) (m : positive) (e : Z) :
  bounded B64.prec B64.emax m e = true ->
  binary_round_aux B64.prec B64.emax s (Zpos m~0) (e - 1) loc_Exact
  = S754_finite s m e.
Proof.
  unfold bounded, canonical_mantissa. intros H.
  apply andb_prop in H. destruct H as [Hc He].
  apply Z.eqb_eq in Hc.
  unfold binary_round_aux, shr_fexp.
  cbn [Zdigits2 shr_record_of_loc digits2_pos].
  replace (Z.pos (Pos.succ (digits2_pos m)) + (e - 1))%Z
    with (Z.pos (digits2_pos m) + e)%Z by lia.
  rewrite Hc. replace (e - (e - 1))%Z with 1%Z by lia.
  cbn [shr iter_pos shr_1 shr_m shr_r shr_s orb loc_of_shr_record
       round_nearest_even Zdigits2 shr_record_of_loc].
  replace (e - 1 + 1)%Z with e by lia.
  rewrite Hc, Z.sub_diag. cbn [shr shr_m]. now rewrite He.
Qed.

(** Dividing a binary64 number by 1 gives the number back. *)
Lemma div_one_binary64 (x : B64.float) :
  binary64_valid x = true -> B64.div x (B64.of_Z 1) = x.
Proof.
  rewrite one_binary64. unfold binary64_valid.
  destruct x as [[]|[]| |s m e]; try reflexivity.
  cbn [valid_binary]. intros Hb.
  assert (Hc : fexp B64.prec B64.emax (Z.pos (digits2_pos m) + e) = e).
  { unfold bounded, canonical_mantissa in Hb. apply andb_prop in Hb.
    now apply Z.eqb_eq. }
  unfold B64.div, SFdiv, SFdiv_core_binary.
  change (Zdigits2 4503599627370496) with 53%Z. cbn [Zdigits2].
  set (e' := Z.min _ _).
  assert (He' : e' = e \/ e' = (e - 1)%Z).
  { subst e'. revert Hc. unfold fexp, emin, B64.prec, B64.emax. lia. }
  clearbody e'. destruct He' as [-> | ->].
  - replace (e - -52 - e)%Z with 52%Z by lia.
    rewrite Z.shiftl_mul_pow2 by lia.
    change (2 ^ 52)%Z with 4503599627370496%Z.
    rewrite div_eucl_exact by lia.
    change (new_location 4503599627370496 0) with loc_Exact.
    rewrite xorb_false_r. now apply binary_round_aux_canonical_exact.
  - replace (e - -52 - (e - 1))%Z with 53%Z by lia.
    rewrite Z.shiftl_mul_pow2 by lia.
    replace (Z.pos m * 2 ^ 53)%Z with (Z.pos m~0 * 4503599627370496)%Z by lia.
    rewrite div_eucl_exact by lia.
    change (new_location 4503599627370496 0) with loc_Exact.
    rewrite xorb_false_r. now apply binary_round_aux_double_exact.
Qed.

Lemma sub_zero_binary64 (x : B64.float) : B64.sub x (B64.of_Z 0) = x.
Proof. destruct x as [[]|[]| |s m e]; reflexivity. Qed.

(** X13. In binary64, when the message has no binning (0 or 1) and no ROI
    offset, and the entries of [K] and [P] are binary64 numbers, the
    calibration leaves the matrices as they came: [intrinsicMatrix()] is
    [fullIntrinsicMatrix()] and [projectionMatrix()] is
    [fullProjectionMatrix()]. *)
Theorem X13_no_binning_no_offset :
  forall (msg : CameraInfo.t B64.float)
         (s0 s : PinholeCameraModel.t B64.float),
    CameraInfo.valid msg = true ->
    PinholeCameraModel.fromCameraInfo msg s0 = (Ok tt, s) ->
    (CameraInfo.binning_x msg <= 1)%Z ->
    (CameraInfo.binning_y msg <= 1)%Z ->
    RegionOfInterest.x_offset (CameraInfo.roi msg) = 0%Z ->
    RegionOfInterest.y_offset (CameraInfo.roi msg) = 0%Z ->
    forallb binary64_valid (CameraInfo.K msg) = true ->
    forallb binary64_valid (CameraInfo.P msg) = true ->
    PinholeCameraModel.intrinsicMatrix s
    = PinholeCameraModel.fullIntrinsicMatrix s /\
    PinholeCameraModel.projectionMatrix s
    = PinholeCameraModel.fullProjectionMatrix s.
Proof.
  intros msg s0 s Hv Hs Hbx Hby Hxo Hyo HK HP.
  rewrite (fromCameraInfo_calibration of_int_nonzero_binary64 _ _ Hv) in Hs.
  injection Hs as <-.
  destruct (valid_ranges msg Hv) as (LK & _ & LP & _ & _).
  destruct msg as [hdr h w D0 K0 R0 P0 bx by_ roi].
  cbn [CameraInfo.K CameraInfo.P CameraInfo.binning_x CameraInfo.binning_y
       CameraInfo.roi] in *.
  list_of_length K0 LK. list_of_length P0 LP.
  unfold PinholeCameraModel.intrinsicMatrix,
    PinholeCameraModel.fullIntrinsicMatrix,
    PinholeCameraModel.projectionMatrix,
    PinholeCameraModel.fullProjectionMatrix, gets, calibration.
  cbn [PinholeCameraModel.K PinholeCameraModel.P PinholeCameraModel.full_K
       PinholeCameraModel.full_P CameraInfo.K CameraInfo.P
       CameraInfo.binning_x CameraInfo.binning_y CameraInfo.roi].
  rewrite Hxo, Hyo.
  replace (Z.max 1 bx) with 1%Z by lia. replace (Z.max 1 by_) with 1%Z by lia.
  unfold adjusted.
  cbn [map combine seq List.length Nat.eqb Nat.add].
  change (@fdiv _ binary64) with B64.div.
  change (@fsub _ binary64) with B64.sub.
  change (@of_int _ binary64) with B64.of_Z.
  cbn [forallb] in HK, HP.
  repeat match goal with
         | H : (_ && _)%bool = true |- _ =>
             apply andb_prop in H; destruct H as [? H]
         end.
  rewrite !sub_zero_binary64, !div_one_binary64 by assumption.
  split; reflexivity.
Qed.

Lemma X13_no_binning_no_offset_witness :
  PinholeCameraModel.intrinsicMatrix (Sample.camera Sample.right_info)
  = PinholeCameraModel.fullIntrinsicMatrix (Sample.camera Sample.right_info)
  /\
  PinholeCameraModel.projectionMatrix (Sample.camera Sample.right_info)
  = PinholeCameraModel.fullProjectionMatrix (Sample.camera Sample.right_info).
Proof.
  apply (@X13_no_binning_no_offset Sample.right_info PinholeCameraModel.init
           (Sample.camera Sample.right_info));
    [reflexivity | vm_compute; reflexivity | cbn; lia | cbn; lia
    | reflexivity | reflexivity | vm_compute; reflexivity
    | vm_compute; reflexivity].
Defined.

(* ===================================================================== *)
(** * The accuracy of the conversions *)
(* ===================================================================== *)

(** A product divided: [x * y / z] with two roundings. *)
Lemma mul_div_error (x y z : B64.float) :
  in_range 300 x = true -> in_range 300 y = true -> in_range 300 z = true ->
  let r := B64.div (B64.mul x y) z in
  B64.is_finite r = true /\
  (Rabs (B2R r - B2R x * B2R y / B2R z)
   <= p2 (-50) * Rabs (B2R x * B2R y / B2R z))%R.
Proof.
  intros Hx Hy Hz r.
  destruct (in_range_spec _ _ Hx) as (Fx & Vx & Wx).
  destruct (in_range_spec _ _ Hy) as (Fy & Vy & Wy).
  destruct (in_range_spec _ _ Hz) as (Fz & Vz & Wz).
  pose proof (within_nonzero Wz) as Nz.
  pose proof eps_small. pose proof (p2_pos (-52)).
  destruct (@mul_rel 600 x y Vx Vy Fx Fy ltac:(lia) (within_mul Wx Wy))
    as (Fp & Vp & d1 & Hd1 & Ep).
  set (p := B64.mul x y) in *.
  assert (E1 : (B2R p / B2R z = B2R x * B2R y / B2R z * (1 + d1))%R)
    by (rewrite Ep; field; exact Nz).
  assert (W1 : within 901 (B2R p / B2R z)).
  { rewrite E1. apply (@within_pert 900); [|exact Hd1].
    apply (@within_div 600 300); [apply (within_mul Wx Wy) | exact Wz]. }
  destruct (@div_rel 901 p z Fp Fz Nz ltac:(lia) W1)
    as (Fr & Vr & d2 & Hd2 & Er).
  fold r in Fr, Vr, Er.
  split; [exact Fr|].
  rewrite Er, E1.
  set (q := (B2R x * B2R y / B2R z)%R).
  replace (q * (1 + d1) * (1 + d2) - q)%R
    with (q * ((1 + d1) * (1 + d2) - 1))%R by ring.
  rewrite Rabs_mult, (Rmult_comm (p2 (-50))).
  apply Rmult_le_compat_l; [apply Rabs_pos|].
  assert (A1 : (Rabs ((1 + d1) - 1) <= p2 (-52))%R)
    by (replace (1 + d1 - 1)%R with d1 by ring; exact Hd1).
  pose proof (@factor_step (1 + d1) d2 (p2 (-52)) A1 Hd2) as A2.
  eapply Rle_trans; [exact A2|]. rewrite p2_m50. nra.
Qed.

(** X16.  What the four conversions between pixels and metres compute, as
    real numbers (binary64): on a calibrated model, for [deltaU], [Z] and
    [fx] normal numbers of magnitude between [2^-300] and [2^300],
    [getDeltaX(deltaU, Z)] returns a finite number within a relative error
    of [2^-50] of the real [Z * deltaU / fx], and [getDeltaU(deltaX, Z)]
    one within [2^-50] of [fx * deltaX / Z]; the same for [getDeltaY] and
    [getDeltaV] with [fy]. *)
Theorem X16_delta_accuracy :
  forall (s : PinholeCameraModel.t B64.float) (d Z : B64.float),
    calibrated s ->
    in_range 300 d = true -> in_range 300 Z = true ->
    exists fx fy,
      PinholeCameraModel.fx s = (Ok fx, s) /\
      PinholeCameraModel.fy s = (Ok fy, s) /\
      (in_range 300 fx = true ->
       exists rx ru,
         PinholeCameraModel.getDeltaX d Z s = (Ok rx, s) /\
         PinholeCameraModel.getDeltaU d Z s = (Ok ru, s) /\
         B64.is_finite rx = true /\ B64.is_finite ru = true /\
         (Rabs (B2R rx - B2R Z * B2R d / B2R fx)
          <= p2 (-50) * Rabs (B2R Z * B2R d / B2R fx))%R /\
         (Rabs (B2R ru - B2R fx * B2R d / B2R Z)
          <= p2 (-50) * Rabs (B2R fx * B2R d / B2R Z))%R) /\
      (in_range 300 fy = true ->
       exists ry rv,
         PinholeCameraModel.getDeltaY d Z s = (Ok ry, s) /\
         PinholeCameraModel.getDeltaV d Z s = (Ok rv, s) /\
         B64.is_finite ry = true /\ B64.is_finite rv = true /\
         (Rabs (B2R ry - B2R Z * B2R d / B2R fy)
          <= p2 (-50) * Rabs (B2R Z * B2R d / B2R fy))%R /\
         (Rabs (B2R rv - B2R fy * B2R d / B2R Z)
          <= p2 (-50) * Rabs (B2R fy * B2R d / B2R Z))%R).
Proof.
  intros s d Z Hc Hd HZ.
  destruct (calibrated_P of_int_nonzero_binary64 Hc)
    as (p00 & p01 & p02 & p03 & p10 & p11 & p12 & p13 & p20 & p21 & p22 & p23
        & HP).
  destruct (accessors_3x4 s HP) as (Hfx & Hfy & _).
  pose proof (in_range_feqb _ _ HZ) as EZ.
  exists p00, p11. split; [exact Hfx|]. split; [exact Hfy|].
  split; intros Hf; pose proof (in_range_feqb _ _ Hf) as Ef.
  - destruct (mul_div_error _ _ _ HZ Hd Hf) as [F1 E1].
    destruct (mul_div_error _ _ _ Hf Hd HZ) as [F2 E2].
    exists (B64.div (B64.mul Z d) p00), (B64.div (B64.mul p00 d) Z).
    split; [rewrite (getDeltaX_eq _ _ Hfx); unfold py_div; now rewrite Ef|].
    split; [rewrite (getDeltaU_eq _ _ Hfx), EZ; reflexivity|].
    split; [exact F1|]. split; [exact F2|]. split; [exact E1 | exact E2].
  - destruct (mul_div_error _ _ _ HZ Hd Hf) as [F1 E1].
    destruct (mul_div_error _ _ _ Hf Hd HZ) as [F2 E2].
    exists (B64.div (B64.mul Z d) p11), (B64.div (B64.mul p11 d) Z).
    split; [rewrite (getDeltaY_eq _ _ Hfy); unfold py_div; now rewrite Ef|].
    split; [rewrite (getDeltaV_eq _ _ Hfy), EZ; reflexivity|].
    split; [exact F1|]. split; [exact F2|]. split; [exact E1 | exact E2].
Qed.

Lemma X16_delta_accuracy_witness :
  exists rx ru,
    PinholeCameraModel.getDeltaX (Sample.fl 7) (Sample.fl 143)
      (Sample.camera Sample.left_info)
    = (Ok rx, Sample.camera Sample.left_info) /\
    PinholeCameraModel.getDeltaU (Sample.fl 7) (Sample.fl 143)
      (Sample.camera Sample.left_info)
    = (Ok ru, Sample.camera Sample.left_info) /\
    B64.is_finite rx = true /\ B64.is_finite ru = true /\
    (Rabs (B2R rx - B2R (Sample.fl 143) * B2R (Sample.fl 7)
                    / B2R (Sample.fl 500))
     <= p2 (-50) * Rabs (B2R (Sample.fl 143) * B2R (Sample.fl 7)
                         / B2R (Sample.fl 500)))%R /\
    (Rabs (B2R ru - B2R (Sample.fl 500) * B2R (Sample.fl 7)
                    / B2R (Sample.fl 143))
     <= p2 (-50) * Rabs (B2R (Sample.fl 500) * B2R (Sample.fl 7)
                         / B2R (Sample.fl 143)))%R.
Proof.
  destruct (@X16_delta_accuracy (Sample.camera Sample.left_info)
              (Sample.fl 7) (Sample.fl 143) sample_left_calibrated
              eq_refl eq_refl)
    as (fx & fy & Hfx & _ & H & _).
  vm_compute in Hfx. injection Hfx as <-.
  exact (H eq_refl).
Defined.

(** X17.  What [getZ] and [getDisparity] compute, as real numbers
    (binary64): on a calibrated stereo model, for [right.P[0,3]] and the
    argument normal numbers of magnitude between [2^-500] and [2^500],
    both return the same finite number, within a relative error of [2^-52]
    (one rounding) of the real quotient [-right.P[0,3] / d]. *)
Theorem X17_depth_accuracy :
  forall (s : StereoCameraModel.t B64.float) (d : B64.float),
    stereo_calibrated s ->
    in_range 500 d = true ->
    exists p03,
      StereoCameraModel.on_right PinholeCameraModel.Tx s = (Ok p03, s) /\
      (in_range 500 p03 = true ->
       exists r,
         StereoCameraModel.getZ d s = (Ok r, s) /\
         StereoCameraModel.getDisparity d s = (Ok r, s) /\
         B64.is_finite r = true /\
         (Rabs (B2R r - - B2R p03 / B2R d)
          <= p2 (-52) * Rabs (- B2R p03 / B2R d))%R).
Proof.
  intros s d Hc Hd.
  destruct (stereo_calibrated_shape of_int_nonzero_binary64 Hc)
    as (_ & _ & Hr).
  destruct (calibrated_P of_int_nonzero_binary64 Hr)
    as (p00 & p01 & p02 & p03 & p10 & p11 & p12 & p13 & p20 & p21 & p22
        & p23 & HP).
  assert (HT : StereoCameraModel.on_right PinholeCameraModel.Tx s
               = (Ok p03, s)).
  { unfold StereoCameraModel.on_right.
    rewrite (proj1 (proj2 (proj2 (proj2 (proj2 (accessors_3x4 _ HP)))))).
    destruct s; reflexivity. }
  exists p03. split; [exact HT|]. intros Hp.
  pose proof (in_range_feqb _ _ Hd) as Ed.
  rewrite <- in_range_opp in Hp.
  destruct (in_range_spec _ _ Hp) as (FT & VT & WT).
  destruct (in_range_spec _ _ Hd) as (Fd & Vd & Wd).
  pose proof (within_nonzero Wd) as Nd.
  destruct (@div_rel 1000 (SFopp p03) d FT Fd Nd ltac:(lia)
              (within_div WT Wd)) as (Fr & _ & e & He & Er).
  rewrite B2R_opp in Er.
  exists (B64.div (SFopp p03) d).
  split; [rewrite (getZ_eq _ HT), Ed; reflexivity|].
  split; [rewrite (getDisparity_eq _ HT), Ed; reflexivity|].
  split; [exact Fr|].
  rewrite Er.
  set (q := (- B2R p03 / B2R d)%R).
  replace (q * (1 + e) - q)%R with (q * e)%R by ring.
  rewrite Rabs_mult, Rmult_comm.
  apply Rmult_le_compat_r; [apply Rabs_pos | exact He].
Qed.

Lemma X17_depth_accuracy_witness :
  exists r,
    StereoCameraModel.getZ (Sample.fl 11)
      (Sample.stereo Sample.left_info Sample.right_info)
    = (Ok r, Sample.stereo Sample.left_info Sample.right_info) /\
    StereoCameraModel.getDisparity (Sample.fl 11)
      (Sample.stereo Sample.left_info Sample.right_info)
    = (Ok r, Sample.stereo Sample.left_info Sample.right_info) /\
    B64.is_finite r = true /\
    (Rabs (B2R r - - B2R (Sample.fl (-50000)) / B2R (Sample.fl 11))
     <= p2 (-52) * Rabs (- B2R (Sample.fl (-50000)) / B2R (Sample.fl 11)))%R.
Proof.
  destruct (@X17_depth_accuracy
              (Sample.stereo Sample.left_info Sample.right_info)
              (Sample.fl 11) sample_stereo_calibrated eq_refl)
    as (p03 & HT & H).
  vm_compute in HT. injection HT as <-.
  exact (H eq_refl).
Defined.
